(** * kodofs: a Qiniu Kodo bucket behind a hierarchical file-system interface

    Shallow embedding of the listing, open, stub and registry code of
    [github.com/xushiwei/kodofs], and the properties its specification
    states about them; then further properties of that code and of the
    helpers around it: mounting by URL, the list iterator, the cached
    layer, upload hosts and tokens, the answer of a call, upload progress.

    Conventions of the embedding:
    - Go strings are [string]; lengths and indices are [Z] as Go's [int];
      a slice expression out of range is a run-time panic, written out as
      an explicit result.
    - Go's [(value, error)] results are pairs with an [option error],
      [None] standing for [nil].
    - the remote listing API, the single-object opener and the token decoder
      are collaborators outside the repository: they are parameters of the
      functions that call them.
    - loops that depend on the remote side ([for { ... }] over pages, the
      recursive [Next]) take a fuel argument; [None] means the fuel ran out. *)

From Stdlib Require Import ZArith Lia String Ascii List Bool NArith.
From Stdlib Require Import Strings.Byte.
From Stdlib Require Import Sorting.Sorted.
From stdpp Require Import gmap strings list.

Local Open Scope Z_scope.

(** ** Go's [strings] package and slice expressions on strings *)

Module GoStrings.

Definition len (s : string) : Z := Z.of_nat (String.length s).

Fixpoint drop (n : nat) (s : string) : string :=
  match n, s with
  | O, _ => s
  | S _, EmptyString => EmptyString
  | S n', String _ s' => drop n' s'
  end.

Fixpoint take (n : nat) (s : string) : string :=
  match n, s with
  | O, _ => EmptyString
  | S _, EmptyString => EmptyString
  | S n', String c s' => String c (take n' s')
  end.

(** [s[i:]]: panics unless [0 <= i <= len(s)]. *)
Definition slice_from (s : string) (i : Z) : option string :=
  if (0 <=? i) && (i <=? len s) then Some (drop (Z.to_nat i) s) else None.

(** [s[i:j]]: panics unless [0 <= i <= j <= len(s)]. *)
Definition slice (s : string) (i j : Z) : option string :=
  if (0 <=? i) && (i <=? j) && (j <=? len s)
  then Some (take (Z.to_nat (j - i)) (drop (Z.to_nat i) s))
  else None.

Definition HasPrefix (s p : string) : bool := String.prefix p s.

Definition HasSuffix (s suffix : string) : bool :=
  (len suffix <=? len s)
  && String.eqb (drop (Z.to_nat (len s - len suffix)) s) suffix.

Definition TrimPrefix (s p : string) : string :=
  if HasPrefix s p then drop (String.length p) s else s.

Definition TrimSuffix (s suffix : string) : string :=
  if HasSuffix s suffix
  then take (Z.to_nat (len s - len suffix)) s
  else s.

(** The first occurrence of [sep] in [s]: the text before it and after it. *)
Fixpoint cut (sep s : string) : option (string * string) :=
  if String.prefix sep s then Some (EmptyString, drop (String.length sep) s)
  else match s with
       | EmptyString => None
       | String c s' =>
           match cut sep s' with
           | Some (before, after) => Some (String c before, after)
           | None => None
           end
       end.

(** [strings.SplitN(s, sep, 2)] for a non-empty [sep]. *)
Definition SplitN2 (s sep : string) : list string :=
  match cut sep s with
  | Some (before, after) => [before; after]
  | None => [s]
  end.

(** Whether [sub] occurs somewhere in [s] ([strings.Contains]). *)
Fixpoint Contains (s sub : string) : bool :=
  String.prefix sub s
  || match s with
     | EmptyString => false
     | String _ s' => Contains s' sub
     end.

End GoStrings.

(** ** Errors *)

(** The error values the embedded code creates or tests for.  [ErrOther]
    stands for any error of a collaborator that is none of the named ones. *)
Inductive error : Type :=
| ErrNotExist
| ErrPermission
| ErrExist
| ErrInvalid
| EOF
| ErrOther (msg : string).

#[global] Instance error_eq_dec : EqDecision error.
Proof. solve_decision. Defined.

(** [os.IsNotExist]. *)
Definition os_IsNotExist (e : option error) : bool :=
  match e with
  | Some ErrNotExist => true
  | _ => false
  end.

(** A run-time panic of the Go program. *)
Inductive panic : Type :=
| IndexOutOfRange (index length : Z)
| SliceOutOfRange (low high length : Z).

#[global] Instance panic_eq_dec : EqDecision panic.
Proof. solve_decision. Defined.

(** ** The bucket-to-host registry ([kodofs.Register]) *)

Module registry.

(** [for i, n := 0, len(bucketHostPairs); i < n; i += 2 { ... }], from
    index [i]; the registry [hosts] is the package-level map. *)
Fixpoint Register_loop (fuel : nat) (bucketHostPairs : list string) (i : nat)
    (hosts : gmap string string) : option (gmap string string * option panic) :=
  if decide (i < length bucketHostPairs)%nat then
    match fuel with
    | O => None
    | S fuel' =>
        match bucketHostPairs !! i, bucketHostPairs !! (i + 1)%nat with
        | Some bucket, Some host =>
            Register_loop fuel' bucketHostPairs (i + 2)%nat (<[bucket := host]> hosts)
        | Some _, None =>
            Some (hosts, Some (IndexOutOfRange (Z.of_nat (i + 1))
                                 (Z.of_nat (length bucketHostPairs))))
        | None, _ =>
            Some (hosts, Some (IndexOutOfRange (Z.of_nat i)
                                 (Z.of_nat (length bucketHostPairs))))
        end
    end
  else Some (hosts, None).

Definition Register (bucketHostPairs : list string) (hosts : gmap string string)
    : option (gmap string string * option panic) :=
  Register_loop (length bucketHostPairs) bucketHostPairs 0 hosts.

(** The complete (bucket, host) pairs of an argument list, in order. *)
Fixpoint pairsOf (l : list string) : list (string * string) :=
  match l with
  | bucket :: host :: rest => (bucket, host) :: pairsOf rest
  | _ => []
  end.

Definition store (hosts : gmap string string) (p : string * string)
    : gmap string string :=
  <[p.1 := p.2]> hosts.

End registry.

(** ** File modes, times and the [fs.FileInfo] interface *)

Definition wrap64 (z : Z) : Z := (z + 2 ^ 63) mod 2 ^ 64 - 2 ^ 63.

Module fs.

Definition ModeDir : Z := 2 ^ 31.
Definition ModeSymlink : Z := 2 ^ 27.
Definition ModeIrregular : Z := 2 ^ 19.

(** [time.Time] as far as the code builds it: the zero value,
    [time.Unix(0, nsec)], and [time.Now()] (the instant of the call). *)
Inductive Time : Type :=
| TimeZero
| TimeUnix (nsec : Z)
| TimeNow.

(** A value of the interface [fs.FileInfo], given by what its methods
    return. *)
Record FileInfo : Type := mkFileInfo {
  Name : string;
  Size : Z;
  Mode : Z;
  ModTime : Time;
  IsDir : bool
}.

End fs.

#[global] Instance Time_eq_dec : EqDecision fs.Time.
Proof. solve_decision. Defined.

#[global] Instance FileInfo_eq_dec : EqDecision fs.FileInfo.
Proof. solve_decision. Defined.

(** ** Go's [path.Base] *)

Module path.

Definition isSlash (c : ascii) : bool := Ascii.eqb c "/"%char.

Fixpoint hasSlash (s : string) : bool :=
  match s with
  | EmptyString => false
  | String c s' => isSlash c || hasSlash s'
  end.

Fixpoint stripTrailingSlashes (s : string) : string :=
  match s with
  | EmptyString => EmptyString
  | String c s' =>
      let r := stripTrailingSlashes s' in
      if isSlash c && String.eqb r EmptyString then EmptyString else String c r
  end.

Fixpoint afterLastSlash (s : string) : string :=
  match s with
  | EmptyString => EmptyString
  | String c s' =>
      if hasSlash s' then afterLastSlash s'
      else if isSlash c then s' else String c s'
  end.

Definition Base (p : string) : string :=
  if String.eqb p EmptyString then "."%string
  else
    let p1 := afterLastSlash (stripTrailingSlashes p) in
    if String.eqb p1 EmptyString then "/"%string else p1.

End path.

(** ** File infos of the bucket: [FileInfo], [DirInfo], [dataFileInfo] *)

Module xfs.
Import fs.

(** [NewFileInfo(name, size)], with the exported field [Mtime]. *)
Definition FileInfoAt (name : string) (size : Z) (Mtime : Time) : FileInfo :=
  {| Name := name; Size := size; Mode := ModeIrregular;
     ModTime := Mtime; IsDir := false |}.

Definition NewFileInfo (name : string) (size : Z) : FileInfo :=
  FileInfoAt name size TimeZero.

Definition NewDirInfo (name : string) : FileInfo :=
  {| Name := name; Size := 0; Mode := Z.lor ModeIrregular ModeDir;
     ModTime := TimeNow; IsDir := true |}.

(** The method [Close] of [DirInfo]. *)
Definition DirInfo_Close (p : FileInfo) : option error := None.

(** An [http.File]: a file handle [f] of the single-object opener, or the
    directory pseudo-file [Dir(fi, fis)] that holds its entries. *)
Inductive File (F : Type) : Type :=
| Obj (f : F)
| Dir (fi : FileInfo) (fis : list FileInfo).
Arguments Obj {F} f.
Arguments Dir {F} fi fis.

(** [Readdir(-1)] of a directory pseudo-file returns the entries it was
    built from; an object handle has no entries to give. *)
Definition Readdir {F : Type} (f : File F) : list FileInfo * option error :=
  match f with
  | Dir _ fis => (fis, None)
  | Obj _ => ([], Some ErrInvalid)
  end.

(** [Close] of a directory pseudo-file closes its [DirInfo]; [closeObj]
    closes an object handle. *)
Definition Close {F : Type} (closeObj : F -> option error) (f : File F)
    : option error :=
  match f with
  | Dir fi _ => DirInfo_Close fi
  | Obj o => closeObj o
  end.

End xfs.

(** ** Results of code that may panic *)

Inductive outcome (A : Type) : Type :=
| Returned (a : A)
| Panicked (p : panic).
Arguments Returned {A} a.
Arguments Panicked {A} p.

(** ** Package [kodo]: listing, walking, reading a directory *)

Module kodo.
Import fs.

Record ListItem : Type := mkListItem {
  Key : string;
  Fsize : Z;
  PutTime : Z
}.

Record ListFilesRet : Type := mkListFilesRet {
  Marker : string;
  Items : list ListItem;
  CommonPrefixes : list string
}.

(** The options of one [ListFilesWithContext] call; an option the caller
    does not pass has its zero value. *)
Record ListInput : Type := mkListInput {
  optPrefix : string;
  optDelimiter : string;
  optLimit : Z;
  optMarker : string
}.

(** What [ListFilesWithContext] returns: [(ret, hasNext, nil)] or an
    error. *)
Inductive ListResult : Type :=
| ListOk (ret : ListFilesRet) (hasNext : bool)
| ListErr (e : error).

(** The remote listing API of a bucket manager: bucket, options, result. *)
Definition Lister : Type := string -> ListInput -> ListResult.

Definition fromPutTime (putTime : Z) : Time := TimeUnix (wrap64 (putTime * 100)).

(** The directory prefix both [WalkContext] and [ReaddirContext] list. *)
Definition normDir (dir : string) : string :=
  if String.eqb dir "/" then EmptyString
  else
    let dir := GoStrings.TrimPrefix dir "/" in
    if negb (GoStrings.HasSuffix dir "/") then (dir ++ "/")%string else dir.

Section Walk.
Context {St : Type}.

(** [WalkFunc]: a visitor; [St] is the state its closure works on. *)
Definition WalkFunc : Type :=
  string -> FileInfo -> option error -> St -> St * option error.

(** [for _, item := range ret.Items { ... fn(...) }] of [WalkContext]:
    what [fn] returns is dropped. *)
Fixpoint walkItems (dir : string) (fn : WalkFunc) (items : list ListItem)
    (s : St) : St * option panic :=
  match items with
  | [] => (s, None)
  | item :: rest =>
      let key := Key item in
      match GoStrings.slice_from key (GoStrings.len dir) with
      | None =>
          (s, Some (SliceOutOfRange (GoStrings.len dir) (GoStrings.len key)
                      (GoStrings.len key)))
      | Some name =>
          let '(s', _) := fn ("/" ++ key)%string
                             (xfs.NewFileInfo name (Fsize item)) None s in
          walkItems dir fn rest s'
      end
  end.

Fixpoint WalkContext_loop (fuel : nat) (m : Lister) (bucket dir : string)
    (fn : WalkFunc) (marker : string) (s : St)
    : option (St * outcome (option error)) :=
  match fuel with
  | O => None
  | S fuel' =>
      match m bucket {| optPrefix := dir; optDelimiter := EmptyString;
                        optLimit := 1000; optMarker := marker |} with
      | ListErr e => Some (s, Returned (Some e))
      | ListOk ret hasNext =>
          match walkItems dir fn (Items ret) s with
          | (s', Some p) => Some (s', Panicked p)
          | (s', None) =>
              if negb hasNext then Some (s', Returned None)
              else WalkContext_loop fuel' m bucket dir fn (Marker ret) s'
          end
      end
  end.

Definition WalkContext (fuel : nat) (m : Lister) (bucket dir : string)
    (fn : WalkFunc) (s : St) : option (St * outcome (option error)) :=
  WalkContext_loop fuel m bucket (normDir dir) fn EmptyString s.

End Walk.

(** [for _, item := range ret.Items { ... }] of [ReaddirContext]. *)
Fixpoint readItems (dir : string) (items : list ListItem) (fis : list FileInfo)
    : outcome (list FileInfo) :=
  match items with
  | [] => Returned fis
  | item :: rest =>
      let key := Key item in
      match GoStrings.slice_from key (GoStrings.len dir) with
      | None =>
          Panicked (SliceOutOfRange (GoStrings.len dir) (GoStrings.len key)
                      (GoStrings.len key))
      | Some name =>
          readItems dir rest
            (fis ++ [xfs.FileInfoAt name (Fsize item) (fromPutTime (PutTime item))])
      end
  end.

(** [for _, key := range ret.CommonPrefixes { ... }] of [ReaddirContext]. *)
Fixpoint readPrefixes (dir : string) (keys : list string) (fis : list FileInfo)
    : outcome (list FileInfo) :=
  match keys with
  | [] => Returned fis
  | key :: rest =>
      match GoStrings.slice key (GoStrings.len dir) (GoStrings.len key - 1) with
      | None =>
          Panicked (SliceOutOfRange (GoStrings.len dir) (GoStrings.len key - 1)
                      (GoStrings.len key))
      | Some name => readPrefixes dir rest (fis ++ [xfs.NewDirInfo name])
      end
  end.

Fixpoint ReaddirContext_loop (fuel : nat) (m : Lister) (bucket dir : string)
    (marker : string) (fis : list FileInfo)
    : option (outcome (list FileInfo * option error)) :=
  match fuel with
  | O => None
  | S fuel' =>
      match m bucket {| optPrefix := dir; optDelimiter := "/";
                        optLimit := 1000; optMarker := marker |} with
      | ListErr e => Some (Returned ([], Some e))
      | ListOk ret hasNext =>
          match readItems dir (Items ret) fis with
          | Panicked p => Some (Panicked p)
          | Returned fis1 =>
              match readPrefixes dir (CommonPrefixes ret) fis1 with
              | Panicked p => Some (Panicked p)
              | Returned fis2 =>
                  if negb hasNext then Some (Returned (fis2, None))
                  else ReaddirContext_loop fuel' m bucket dir (Marker ret) fis2
              end
          end
      end
  end.

Definition ReaddirContext (fuel : nat) (m : Lister) (bucket dir : string)
    : option (outcome (list FileInfo * option error)) :=
  ReaddirContext_loop fuel m bucket (normDir dir) EmptyString [].

(** *** The list iterator *)

Record listPage : Type := mkListPage {
  Objects : list ListItem;
  NextPageToken : string
}.

Record listPagedOptions : Type := mkListPagedOptions {
  Prefix : string;
  Delimiter : string;
  PageSize : Z;
  PageToken : string
}.

Record ListObject : Type := mkListObject {
  objKey : string;
  objModTime : Time;
  objSize : Z;
  objIsDir : bool
}.

(** The fields of a [ListIterator] but its bucket, which the functions
    below take as [m] and [bucket]. *)
Record ListIterator : Type := mkListIterator {
  opts : listPagedOptions;
  page : option listPage;
  nextIdx : Z;
  isLastPage : bool
}.

Definition listPaged (m : Lister) (bucket : string) (o : listPagedOptions)
    : (listPage * bool) + error :=
  match m bucket {| optPrefix := Prefix o; optDelimiter := Delimiter o;
                    optLimit := PageSize o; optMarker := PageToken o |} with
  | ListErr e => inr e
  | ListOk ret hasNext =>
      inl ({| Objects := Items ret; NextPageToken := Marker ret |}, negb hasNext)
  end.

(** The object [Next] builds from the item [obj] of the page. *)
Definition toListObject (obj : ListItem) : outcome ListObject :=
  let mtime := fromPutTime (PutTime obj) in
  let key := Key obj in
  let isDir := GoStrings.HasSuffix key "/" in
  if isDir && negb (String.eqb key "/") then
    match GoStrings.slice key 0 (GoStrings.len key - 1) with
    | Some key' => Returned (mkListObject key' mtime (Fsize obj) isDir)
    | None => Panicked (SliceOutOfRange 0 (GoStrings.len key - 1) (GoStrings.len key))
    end
  else Returned (mkListObject key mtime (Fsize obj) isDir).

Definition withPageToken (i : ListIterator) (token : string) : ListIterator :=
  {| opts := {| Prefix := Prefix (opts i); Delimiter := Delimiter (opts i);
                PageSize := PageSize (opts i); PageToken := token |};
     page := page i; nextIdx := nextIdx i; isLastPage := isLastPage i |}.

(** The body of [Next]: the value it returns (or its panic) and the
    iterator after the call; [recur] is the recursive call [i.Next(ctx)]
    at its end. *)
Definition NextStep
    (recur : ListIterator ->
             option (outcome (option ListObject * option error) * ListIterator))
    (m : Lister) (bucket : string) (i : ListIterator)
    : option (outcome (option ListObject * option error) * ListIterator) :=
  let load (i : ListIterator) :=
    match listPaged m bucket (opts i) with
    | inr e => Some (Returned (None, Some e), i)
    | inl (p, isLast) =>
        recur {| opts := opts i; page := Some p; nextIdx := 0; isLastPage := isLast |}
    end in
  match page i with
  | Some pg =>
      if nextIdx i <? Z.of_nat (length (Objects pg)) then
        if nextIdx i <? 0 then
          Some (Panicked (IndexOutOfRange (nextIdx i)
                            (Z.of_nat (length (Objects pg)))), i)
        else
          match Objects pg !! Z.to_nat (nextIdx i) with
          | None =>
              Some (Panicked (IndexOutOfRange (nextIdx i)
                                (Z.of_nat (length (Objects pg)))), i)
          | Some obj =>
              let i' := {| opts := opts i; page := page i;
                           nextIdx := nextIdx i + 1;
                           isLastPage := isLastPage i |} in
              match toListObject obj with
              | Returned o => Some (Returned (Some o, None), i')
              | Panicked p => Some (Panicked p, i')
              end
          end
      else if isLastPage i then Some (Returned (None, Some EOF), i)
      else load (withPageToken i (NextPageToken pg))
  | None => load i
  end.

(** [Next]; one unit of fuel is one activation of it. *)
Fixpoint Next (fuel : nat) (m : Lister) (bucket : string) (i : ListIterator)
    : option (outcome (option ListObject * option error) * ListIterator) :=
  match fuel with
  | O => None
  | S fuel' => NextStep (Next fuel' m bucket) m bucket i
  end.

(** [List(opts)] with the prefix and delimiter of [opts]. *)
Definition List (prefix delimiter : string) : ListIterator :=
  {| opts := {| Prefix := prefix; Delimiter := delimiter;
                PageSize := 1000; PageToken := EmptyString |};
     page := None; nextIdx := 0; isLastPage := false |}.

End kodo.

(** ** Package [kodoutil]: the flat walk with credentials *)

Module kodoutil.
Import fs kodo.

Definition Scheme : string := "kodo".

(** [Get] of [url.Values]: the first value of the key, or the empty
    string. *)
Definition Values_Get (v : gmap string (list string)) (key : string) : string :=
  match v !! key with
  | Some (x :: _) => x
  | _ => EmptyString
  end.

(** [protected.Decode]: the parameters of a token, or an error. *)
Definition Decoder : Type := string -> gmap string (list string) + error.

(** [Parse]: the results [bucket], [ak], [sk] and [err]. *)
Definition Parse (decode : Decoder) (url : string)
    : string * string * string * option error :=
  let url := GoStrings.TrimPrefix url (Scheme ++ ":") in
  match GoStrings.SplitN2 url "?" with
  | [name; token] =>
      match decode token with
      | inr e => (EmptyString, EmptyString, EmptyString, Some e)
      | inl params =>
          let ak := Values_Get params "ak" in
          let sk := Values_Get params "sk" in
          if String.eqb ak EmptyString || String.eqb sk EmptyString
          then (EmptyString, ak, sk, Some ErrPermission)
          else (name, ak, sk, None)
      end
  | _ => (EmptyString, EmptyString, EmptyString, Some ErrPermission)
  end.

(** A decoder that rejects every token the way [encoding/base64] does. *)
Definition corruptInput : Decoder :=
  fun _ => inr (ErrOther "illegal base64 data at input byte 0").

(** A decoder that reads every token as the keys [AK] and [SK]. *)
Definition fixedKeys : Decoder :=
  fun _ => inl {[ "ak"%string := ["AK"%string]; "sk"%string := ["SK"%string] ]}.

(** The [fs.FileInfo] of the struct [dataFileInfo] holding [name] and
    [size]. *)
Definition dataFileInfo (name : string) (size : Z) : FileInfo :=
  {| Name := path.Base name; Size := size; Mode := 0;
     ModTime := TimeZero; IsDir := false |}.

Section Walk.
Context {St : Type}.

Fixpoint walkItems (fn : @WalkFunc St) (items : list ListItem) (s : St) : St :=
  match items with
  | [] => s
  | item :: rest =>
      let key := Key item in
      let key := if negb (GoStrings.HasPrefix key "/")
                 then ("/" ++ key)%string else key in
      let '(s', _) := fn key (dataFileInfo key (Fsize item)) None s in
      walkItems fn rest s'
  end.

Fixpoint Walk_loop (fuel : nat) (m : Lister) (bucket dir : string)
    (fn : @WalkFunc St) (marker : string) (s : St)
    : option (St * option error) :=
  match fuel with
  | O => None
  | S fuel' =>
      match m bucket {| optPrefix := dir; optDelimiter := EmptyString;
                        optLimit := 0; optMarker := marker |} with
      | ListErr e => Some (s, Some e)
      | ListOk ret hasNext =>
          let s' := walkItems fn (Items ret) s in
          if negb hasNext then Some (s', None)
          else Walk_loop fuel' m bucket dir fn (Marker ret) s'
      end
  end.

Definition Walk (fuel : nat) (m : Lister) (bucket dir : string)
    (fn : @WalkFunc St) (s : St) : option (St * option error) :=
  let dir := if negb (GoStrings.HasSuffix dir "/")
             then (dir ++ "/")%string else dir in
  Walk_loop fuel m bucket dir fn EmptyString s.

End Walk.

End kodoutil.

(** ** Package [kodofs]: opening a name of the bucket *)

Module kodofs.
Import fs.

Section Bucket.
(** [F]: the file handles the single-object opener returns. *)
Context {F : Type}.

(** [opener.Open(ctx, url)] of the opener that [prepare(name)] gives:
    the handle (or [nil]) and the error (or [nil]). *)
Definition Opener : Type := string -> option F * option error.

Record Bucket : Type := mkBucket {
  bkt : kodo.Lister;
  bktName : string;
  prepare : string -> Opener;
  host : string
}.

Definition NewBucket (m : kodo.Lister) (bucket host : string)
    (prepare : string -> Opener) : Bucket :=
  {| bkt := m; bktName := bucket; prepare := prepare;
     host := GoStrings.TrimSuffix host "/" |}.

Definition isIndexPage (name : string) : bool :=
  GoStrings.HasSuffix name "/index.html".

(** The first part of [Open]: for a name other than the root, the
    single-object fetch. *)
Definition fetch (b : Bucket) (name : string) : option (option F * option error) :=
  if negb (String.eqb name "/")
  then Some (prepare b name (host b ++ name)%string)
  else None.

(** Whether [Open] returns right after the fetch: the condition
    [err == nil || isIndexPage(name) || !os.IsNotExist(err)]. *)
Definition returnsFetch (name : string) (err : option error) : bool :=
  match err with None => true | Some _ => false end
  || isIndexPage name
  || negb (os_IsNotExist err).

(** The second part of [Open], from [b.bkt.ReaddirContext(ctx, name)] on:
    the name as a directory.  [f] is the result variable [f] as the
    first part left it. *)
Definition openDir (fuel : nat) (b : Bucket) (name : string) (f : option F)
    : option (outcome (option (xfs.File F) * option error)) :=
  match kodo.ReaddirContext fuel (bkt b) (bktName b) name with
  | None => None
  | Some (Panicked p) => Some (Panicked p)
  | Some (Returned (_, Some e)) => Some (Returned (xfs.Obj <$> f, Some e))
  | Some (Returned (fis, None)) =>
      if (Z.of_nat (length fis) =? 0)
      then Some (Returned (None, Some ErrNotExist))
      else Some (Returned (Some (xfs.Dir (xfs.NewDirInfo (path.Base name)) fis),
                           None))
  end.

Definition Open (fuel : nat) (b : Bucket) (name : string)
    : option (outcome (option (xfs.File F) * option error)) :=
  match fetch b name with
  | Some (f, err) =>
      if returnsFetch name err
      then Some (Returned (xfs.Obj <$> f, err))
      else openDir fuel b name f
  | None => openDir fuel b name None
  end.

(** Whether [Open] goes on to read [name] as a directory. *)
Definition fallsThrough (b : Bucket) (name : string) : bool :=
  match fetch b name with
  | Some (_, err) => negb (returnsFetch name err)
  | None => true
  end.

End Bucket.

(** An opener that finds no object under any name. *)
Definition noObject : string -> @Opener unit :=
  fun _ _ => (None, Some ErrNotExist).

End kodofs.

(** ** [encoding/base64]: the URL-safe alphabet with padding *)

Module base64.
Local Open Scope N_scope.

Definition encodeURL : string :=
  "ABCDEFGHIJKLMNOPQRSTUVWXYZabcdefghijklmnopqrstuvwxyz0123456789-_".

Definition padChar : ascii := "="%char.

(** The character of a 6-bit value. *)
Definition encodeChar (n : N) : ascii :=
  match String.get (N.to_nat n) encodeURL with
  | Some c => c
  | None => padChar
  end.

(** The 6-bit value of a character of the alphabet (the decode map). *)
Definition decodeChar (c : ascii) : option N :=
  let n := N_of_ascii c in
  if (65 <=? n) && (n <=? 90) then Some (n - 65)
  else if (97 <=? n) && (n <=? 122) then Some (n - 71)
  else if (48 <=? n) && (n <=? 57) then Some (n + 4)
  else if n =? 45 then Some 62
  else if n =? 95 then Some 63
  else None.

Definition byteOf (n : N) : byte :=
  match Byte.of_N n with
  | Some b => b
  | None => x00
  end.

Definition quad (c0 c1 c2 c3 : ascii) (rest : string) : string :=
  String c0 (String c1 (String c2 (String c3 rest))).

Fixpoint EncodeToString (src : list byte) : string :=
  match src with
  | [] => EmptyString
  | [a] =>
      let a := Byte.to_N a in
      quad (encodeChar (a / 4)) (encodeChar (a mod 4 * 16)) padChar padChar EmptyString
  | [a; b] =>
      let a := Byte.to_N a in
      let b := Byte.to_N b in
      quad (encodeChar (a / 4)) (encodeChar (a mod 4 * 16 + b / 16))
        (encodeChar (b mod 16 * 4)) padChar EmptyString
  | a :: b :: c :: rest =>
      let a := Byte.to_N a in
      let b := Byte.to_N b in
      let c := Byte.to_N c in
      quad (encodeChar (a / 4)) (encodeChar (a mod 4 * 16 + b / 16))
        (encodeChar (b mod 16 * 4 + c / 64)) (encodeChar (c mod 64))
        (EncodeToString rest)
  end.

(** The bytes of a group of four characters, [n] of which are data. *)
Definition decodeQuantum (c0 c1 : ascii) (c2 c3 : option ascii) : option (list byte) :=
  match decodeChar c0, decodeChar c1 with
  | Some s0, Some s1 =>
      let b0 := byteOf (s0 * 4 + s1 / 16) in
      match c2 with
      | None => Some [b0]
      | Some c2 =>
          match decodeChar c2 with
          | None => None
          | Some s2 =>
              let b1 := byteOf (s1 mod 16 * 16 + s2 / 4) in
              match c3 with
              | None => Some [b0; b1]
              | Some c3 =>
                  match decodeChar c3 with
                  | None => None
                  | Some s3 => Some [b0; b1; byteOf (s2 mod 4 * 64 + s3)]
                  end
              end
          end
      end
  | _, _ => None
  end.

Definition isPad (c : ascii) : bool := Ascii.eqb c padChar.

Fixpoint decodeQuads (s : string) : option (list byte) :=
  match s with
  | EmptyString => Some []
  | String c0 (String c1 (String c2 (String c3 rest))) =>
      match rest with
      | EmptyString =>
          if isPad c3 then
            if isPad c2 then decodeQuantum c0 c1 None None
            else decodeQuantum c0 c1 (Some c2) None
          else decodeQuantum c0 c1 (Some c2) (Some c3)
      | _ =>
          match decodeQuantum c0 c1 (Some c2) (Some c3), decodeQuads rest with
          | Some bs, Some bs' => Some (bs ++ bs')
          | _, _ => None
          end
      end
  | _ => None
  end.

Definition isNewline (c : ascii) : bool :=
  Ascii.eqb c "010"%char || Ascii.eqb c "013"%char.

Fixpoint stripNewlines (s : string) : string :=
  match s with
  | EmptyString => EmptyString
  | String c s' =>
      if isNewline c then stripNewlines s' else String c (stripNewlines s')
  end.

Definition DecodeString (s : string) : option (list byte) :=
  decodeQuads (stripNewlines s).
End base64.

(** ** The local file system, as the stub store uses it *)

Module localfs.
Import fs.

Inductive kind : Type :=
| KDir
| KFile
| KLink (target : string).

Record node : Type := mkNode {
  nkind : kind;
  nsize : Z;
  nperm : Z;
  nmtime : Time
}.

(** The operations of packages [os] and [path/filepath] the stub store
    calls, over the states [FS] of a local file system; [node_at] is what
    [lstat] sees at a path. *)
Record OS : Type := mkOS {
  FS : Type;
  node_at : FS -> string -> option node;
  Join : string -> string -> string;
  Mkdir : string -> Z -> FS -> FS * option error;
  Symlink : string -> string -> FS -> FS * option error;
  WriteFile : string -> list byte -> Z -> FS -> FS * option error
}.

Definition kind_at (os : OS) (s : FS os) (p : string) : option kind :=
  nkind <$> node_at os s p.

(** What these operations guarantee on any file system: a successful
    [Mkdir] or [Symlink] leaves a directory or that link at its path; a
    successful [WriteFile] leaves a regular file at its path, unless the
    path was a link (the write then goes to where the link points); no
    operation changes the kind of an entry that exists; [Mkdir] and
    [Symlink] make no regular file. *)
Record OSLaws (os : OS) : Prop := mkOSLaws {
  Mkdir_ok : forall p perm s s',
    Mkdir os p perm s = (s', None) -> kind_at os s' p = Some KDir;
  Symlink_ok : forall target p s s',
    Symlink os target p s = (s', None) -> kind_at os s' p = Some (KLink target);
  Mkdir_keeps : forall p perm s s' e q k,
    Mkdir os p perm s = (s', e) -> kind_at os s q = Some k -> kind_at os s' q = Some k;
  Symlink_keeps : forall target p s s' e q k,
    Symlink os target p s = (s', e) ->
    kind_at os s q = Some k -> kind_at os s' q = Some k;
  WriteFile_keeps : forall p data perm s s' e q k,
    WriteFile os p data perm s = (s', e) ->
    kind_at os s q = Some k -> kind_at os s' q = Some k;
  WriteFile_ok : forall p data perm s s',
    WriteFile os p data perm s = (s', None) ->
    kind_at os s' p = Some KFile \/ exists target, kind_at os s p = Some (KLink target);
  Mkdir_no_file : forall p perm s s' e q,
    Mkdir os p perm s = (s', e) ->
    kind_at os s' q = Some KFile -> kind_at os s q = Some KFile;
  Symlink_no_file : forall target p s s' e q,
    Symlink os target p s = (s', e) ->
    kind_at os s' q = Some KFile -> kind_at os s q = Some KFile
}.

Definition modeOf (n : node) : Z :=
  match nkind n with
  | KDir => Z.lor ModeDir (nperm n)
  | KFile => nperm n
  | KLink _ => Z.lor ModeSymlink (nperm n)
  end.

Definition infoOf (p : string) (n : node) : FileInfo :=
  {| Name := path.Base p; Size := nsize n; Mode := modeOf n;
     ModTime := nmtime n;
     IsDir := match nkind n with KDir => true | _ => false end |}.

(** [os.Lstat]. *)
Definition Lstat (os : OS) (p : string) (s : FS os) : option FileInfo * option error :=
  match node_at os s p with
  | Some n => (Some (infoOf p n), None)
  | None => (None, Some ErrNotExist)
  end.

(** [os.Readlink]. *)
Definition Readlink (os : OS) (p : string) (s : FS os) : string * option error :=
  match node_at os s p with
  | Some n =>
      match nkind n with
      | KLink target => (target, None)
      | _ => (EmptyString, Some ErrInvalid)
      end
  | None => (EmptyString, Some ErrNotExist)
  end.

(** *** A small file system in memory

    An instance of the interface, to run the stub store on examples: a
    map from paths to nodes.  An entry can be made where nothing exists
    and the parent is a directory; it does not resolve links, and refuses
    to write through one. *)

Fixpoint beforeLastSlash (s : string) : string :=
  match s with
  | EmptyString => EmptyString
  | String c s' =>
      if path.hasSlash s' then String c (beforeLastSlash s') else EmptyString
  end.

Definition parent (p : string) : string :=
  if path.hasSlash p then
    let d := beforeLastSlash p in
    if String.eqb d EmptyString then "/"%string else d
  else "."%string.

Definition isDirAt (s : gmap string node) (p : string) : bool :=
  match s !! p with
  | Some n => match nkind n with KDir => true | _ => false end
  | None => false
  end.

Definition create (p : string) (n : node) (s : gmap string node)
    : gmap string node * option error :=
  match s !! p with
  | Some _ => (s, Some ErrExist)
  | None =>
      if isDirAt s (parent p) then (<[p := n]> s, None)
      else (s, Some ErrNotExist)
  end.

Definition memWriteFile (p : string) (data : list byte) (perm : Z)
    (s : gmap string node) : gmap string node * option error :=
  let n := mkNode KFile (Z.of_nat (length data)) perm TimeNow in
  match s !! p with
  | Some old =>
      match nkind old with
      | KFile => (<[p := mkNode KFile (Z.of_nat (length data)) (nperm old) TimeNow]> s,
                  None)
      | KDir => (s, Some (ErrOther "is a directory"))
      | KLink _ => (s, Some (ErrOther "is a symbolic link"))
      end
  | None =>
      if isDirAt s (parent p) then (<[p := n]> s, None)
      else (s, Some ErrNotExist)
  end.

Definition memJoin (dir name : string) : string :=
  if String.eqb dir EmptyString then name
  else if String.eqb name EmptyString then dir
  else (dir ++ "/" ++ name)%string.

Definition memfs : OS :=
  {| FS := gmap string node;
     node_at := fun s p => s !! p;
     Join := memJoin;
     Mkdir := fun p perm => create p (mkNode KDir 0 perm TimeNow);
     Symlink := fun target p =>
       create p (mkNode (KLink target) (GoStrings.len target) 511 TimeNow);
     WriteFile := memWriteFile |}.

End localfs.

(** ** Package [cached]: stubs of remote entries on the local disk *)

Module cached.
Import fs localfs.

Section Remote.
Context (os : OS).
(** The codec of file infos, [xdir.BytesFileInfo] and
    [xdir.FileInfoFrom], and the mode bits of [cached.ModeRemote]. *)
Context (BytesFileInfo : FileInfo -> list byte).
Context (FileInfoFrom : list byte -> option FileInfo).
Context (ModeRemote : Z).

Definition dirListCacheFile : string := ".bktls.cache".

Definition checkDirCached (dir : string) (s : FS os) : option FileInfo :=
  let cacheFile := Join os dir dirListCacheFile in
  match Lstat os cacheFile s with
  | (fi, None) => fi
  | (_, Some _) => None
  end.

Definition touchDirCached (dir : string) (s : FS os) : FS os * option error :=
  let cacheFile := Join os dir dirListCacheFile in
  WriteFile os cacheFile [] 438 s.

(** The wrapper [fileInfoRemote]: the mode with [ModeRemote] set. *)
Definition fileInfoRemote (fi : FileInfo) : FileInfo :=
  {| Name := Name fi; Size := Size fi; Mode := Z.lor (Mode fi) ModeRemote;
     ModTime := ModTime fi; IsDir := IsDir fi |}.

(** The link target [writeStubFile] makes for [fi]. *)
Definition stubTarget (fi : FileInfo) : string :=
  base64.EncodeToString (BytesFileInfo (fileInfoRemote fi)).

Definition writeStubFile (localFile : string) (fi : FileInfo) (s : FS os)
    : FS os * option error :=
  if IsDir fi then Mkdir os localFile 493 s
  else Symlink os (stubTarget fi) localFile s.

Definition readStubFile (localFile : string) (fi : FileInfo) (s : FS os)
    : FileInfo :=
  match Readlink os localFile s with
  | (dest, None) =>
      match base64.DecodeString dest with
      | Some b =>
          match FileInfoFrom b with
          | Some ret => ret
          | None => fi
          end
      | None => fi
      end
  | (_, Some _) => fi
  end.

Definition isRemote (fi : FileInfo) : bool :=
  negb (Z.land (Mode fi) ModeSymlink =? 0).

(** The method [Lstat] of [remote]. *)
Definition Lstat (localFile : string) (s : FS os) : option FileInfo * option error :=
  match localfs.Lstat os localFile s with
  | (_, Some e) => (None, Some e)
  | (None, None) => (None, None)
  | (Some fi, None) =>
      if IsDir fi then
        match checkDirCached localFile s with
        | None => (Some (fileInfoRemote fi), None)
        | Some _ => (Some fi, None)
        end
      else if isRemote fi then (Some (readStubFile localFile fi s), None)
      else (Some fi, None)
  end.

(** [for _, fi := range fis { ... }] in the goroutine of [SyncOpen]:
    the count of failed stub writes and the state after them. *)
Fixpoint writeStubs (base : string) (fis : list FileInfo) (nError : Z) (s : FS os)
    : Z * FS os :=
  match fis with
  | [] => (nError, s)
  | fi :: rest =>
      let itemFile := (base ++ "/" ++ Name fi)%string in
      match writeStubFile itemFile fi s with
      | (s', Some _) => writeStubs base rest (nError + 1) s'
      | (s', None) => writeStubs base rest nError s'
      end
  end.

(** The name [SyncOpen] opens and joins to [local]. *)
Definition syncName (name : string) : string :=
  if String.eqb name "/" then "."%string else GoStrings.TrimPrefix name "/".

(** The goroutine of [SyncOpen], run on its own from the state [s]: the
    stub-writing pass for the entries [fis] of the directory [name], the
    name as [syncName] left it. *)
Definition SyncOpen_stubs (local name : string) (fis : list FileInfo) (s : FS os)
    : FS os :=
  let base := Join os local name in
  let '(nError, s1) := writeStubs base fis 0 s in
  if nError =? 0 then (touchDirCached base s1).1 else s1.

(** What each stub write of the pass returns, in order, and the state
    after all of them. *)
Fixpoint stubResults (base : string) (fis : list FileInfo) (s : FS os)
    : list (option error) :=
  match fis with
  | [] => []
  | fi :: rest =>
      let '(s', e) := writeStubFile (base ++ "/" ++ Name fi)%string fi s in
      e :: stubResults base rest s'
  end.

Fixpoint afterStubs (base : string) (fis : list FileInfo) (s : FS os) : FS os :=
  match fis with
  | [] => s
  | fi :: rest =>
      afterStubs base rest (writeStubFile (base ++ "/" ++ Name fi)%string fi s).1
  end.

Definition isNil (e : option error) : bool :=
  match e with None => true | Some _ => false end.

(** How many of the results are errors. *)
Fixpoint failures (results : list (option error)) : Z :=
  match results with
  | [] => 0
  | Some _ :: rest => 1 + failures rest
  | None :: rest => failures rest
  end.

(** The sentinel file of a directory: a regular file at the path
    [touchDirCached] writes. *)
Definition hasSentinel (dir : string) (s : FS os) : Prop :=
  kind_at os s (Join os dir dirListCacheFile) = Some KFile.

(** The entry [fi] of the listing has its stub under [base]: a directory
    for a directory, the link that encodes [fi] otherwise. *)
Definition stubbed (base : string) (s : FS os) (fi : FileInfo) : Prop :=
  kind_at os s (base ++ "/" ++ Name fi)%string =
  Some (if IsDir fi then KDir else KLink (stubTarget fi)).

(** The codec gives back the name, the size and the is-directory flag of
    [fi]. *)
Definition codecRoundTrips (fi : FileInfo) : Prop :=
  exists ret,
    FileInfoFrom (BytesFileInfo fi) = Some ret
    /\ Name ret = Name fi /\ Size ret = Size fi /\ IsDir ret = IsDir fi.

End Remote.

(** *** A small codec, to run the stub store on examples: the
    is-directory flag, the size in eight bytes, then the name. *)

Fixpoint bytesOfN (width : nat) (n : N) : list byte :=
  match width with
  | O => []
  | S w => bytesOfN w (n / 256) ++ [base64.byteOf (n mod 256)]
  end.

Fixpoint nOfBytes (bs : list byte) (acc : N) : N :=
  match bs with
  | [] => acc
  | b :: rest => nOfBytes rest (acc * 256 + Byte.to_N b)%N
  end.

Definition toyBytes (fi : FileInfo) : list byte :=
  (if IsDir fi then x01 else x00)
    :: bytesOfN 8 (Z.to_N (Size fi)) ++ list_byte_of_string (Name fi).

Definition toyFrom (b : list byte) : option FileInfo :=
  match b with
  | flag :: rest =>
      if (8 <=? Z.of_nat (length rest)) then
        let isDir := Byte.eqb flag x01 in
        Some {| Name := string_of_list_byte (drop 8 rest);
                Size := Z.of_N (nOfBytes (take 8 rest) 0);
                Mode := if isDir then Z.lor ModeIrregular ModeDir else ModeIrregular;
                ModTime := TimeZero;
                IsDir := isDir |}
      else None
  | [] => None
  end.

(** The bits of [cached.ModeRemote] in the examples. *)
Definition remoteBits : Z := Z.lor ModeSymlink ModeIrregular.

(** A listing of two entries: the file [a] and the directory [sub]. *)
Definition twoEntries : list FileInfo :=
  [xfs.NewFileInfo "a" 100; xfs.NewDirInfo "sub"].

(** A local tree with the directory [root/d]. *)
Definition rootTree : FS memfs :=
  {[ "."%string := mkNode KDir 0 493 TimeZero;
     "root"%string := mkNode KDir 0 493 TimeZero;
     "root/d"%string := mkNode KDir 0 493 TimeZero ]}.

End cached.

(** ** Listings page by page, and the visits of a walk *)

Module walkspec.
Import fs kodo.

(** [listing m bucket mk marker pages r]: starting at [marker], the remote
    side answers with the pages [pages], each next one asked for with the
    marker of the one before, and the sequence ends with [r]: [None] when
    the last page reports no further page, [Some e] when the fetch after
    the last page of [pages] fails with [e]. *)
Inductive listing (m : Lister) (bucket : string) (mk : string -> ListInput)
    : string -> list ListFilesRet -> option error -> Prop :=
| listing_fail marker e :
    m bucket (mk marker) = ListErr e ->
    listing m bucket mk marker [] (Some e)
| listing_last marker ret :
    m bucket (mk marker) = ListOk ret false ->
    listing m bucket mk marker [ret] None
| listing_more marker ret pages r :
    m bucket (mk marker) = ListOk ret true ->
    listing m bucket mk (Marker ret) pages r ->
    listing m bucket mk marker (ret :: pages) r.

Definition allItems (pages : list ListFilesRet) : list ListItem :=
  concat (map Items pages).

(** The options [WalkContext] and [kodoutil.Walk] pass for a marker. *)
Definition walkInput (dir marker : string) : ListInput :=
  {| optPrefix := dir; optDelimiter := EmptyString;
     optLimit := 1000; optMarker := marker |}.

Definition utilWalkInput (dir marker : string) : ListInput :=
  {| optPrefix := dir; optDelimiter := EmptyString;
     optLimit := 0; optMarker := marker |}.

(** The arguments [WalkContext] calls the visitor with for [item]. *)
Definition entryOf (dir : string) (item : ListItem) : string * FileInfo :=
  (("/" ++ Key item)%string,
   xfs.NewFileInfo (GoStrings.drop (String.length dir) (Key item)) (Fsize item)).

(** The arguments [kodoutil.Walk] calls the visitor with for [item]. *)
Definition utilEntryOf (item : ListItem) : string * FileInfo :=
  let key := if negb (GoStrings.HasPrefix (Key item) "/")
             then ("/" ++ Key item)%string else Key item in
  (key, kodoutil.dataFileInfo key (Fsize item)).

(** Calling the visitor once for each entry, in order, whatever it
    returns. *)
Definition visitAll {St : Type} (fn : @WalkFunc St)
    (entries : list (string * FileInfo)) (s : St) : St :=
  foldl (fun s e => (fn e.1 e.2 None s).1) s entries.

(** A visitor that records the path it is called with and asks the walk
    to stop, every time. *)
Definition stopper : @WalkFunc (list string) :=
  fun path _ _ visited => (visited ++ [path], Some (ErrOther "stop")).

(** A bucket whose listing under [d/] has two pages: two entries, then
    one. *)
Definition twoPages : Lister :=
  fun _ input =>
    if String.eqb (optMarker input) EmptyString then
      ListOk {| Marker := "m1";
                Items := [mkListItem "d/a" 1 0; mkListItem "d/b" 2 0];
                CommonPrefixes := [] |} true
    else
      ListOk {| Marker := EmptyString;
                Items := [mkListItem "d/c" 3 0];
                CommonPrefixes := [] |} false.

(** *** Reading a directory *)

(** The options [ReaddirContext] passes for a marker. *)
Definition readdirInput (dir marker : string) : ListInput :=
  {| optPrefix := dir; optDelimiter := "/";
     optLimit := 1000; optMarker := marker |}.

Definition allPrefixes (pages : list ListFilesRet) : list string :=
  concat (map CommonPrefixes pages).

(** The entry [ReaddirContext] appends for an item and for a common
    prefix. *)
Definition fileEntry (dir : string) (item : ListItem) : FileInfo :=
  xfs.FileInfoAt (GoStrings.drop (String.length dir) (Key item)) (Fsize item)
    (fromPutTime (PutTime item)).

Definition dirEntry (dir : string) (key : string) : FileInfo :=
  xfs.NewDirInfo
    (GoStrings.take (String.length key - 1 - String.length dir)
       (GoStrings.drop (String.length dir) key)).

Definition pageEntries (dir : string) (ret : ListFilesRet) : list FileInfo :=
  map (fileEntry dir) (Items ret) ++ map (dirEntry dir) (CommonPrefixes ret).

Definition entriesOf (dir : string) (pages : list ListFilesRet) : list FileInfo :=
  concat (map (pageEntries dir) pages).

(** A listing whose only page holds the common prefix [d/] itself. *)
Definition prefixOnly : Lister :=
  fun _ _ => ListOk {| Marker := EmptyString; Items := [];
                       CommonPrefixes := ["d/"%string] |} false.

(** A listing whose only page holds the item [d/d/x]. *)
Definition nested : Lister :=
  fun _ _ => ListOk {| Marker := EmptyString; Items := [mkListItem "d/d/x" 7 0];
                       CommonPrefixes := [] |} false.

(** A listing of [d/] in one page: the file [d/a] and the directory
    [d/sub/]. *)
Definition onePage : ListFilesRet :=
  {| Marker := EmptyString; Items := [mkListItem "d/a" 100 0];
     CommonPrefixes := ["d/sub/"%string] |}.

Definition oneDir : Lister := fun _ _ => ListOk onePage false.

(** *** The list iterator *)

(** Every page the remote side returns is non-empty or flagged as the last
    one. *)
Definition pagesNonEmptyOrLast (m : Lister) (bucket : string) : Prop :=
  forall input ret hasNext,
    m bucket input = ListOk ret hasNext -> Items ret <> [] \/ hasNext = false.

(** A remote side that answers every request with an empty page and says
    there is more. *)
Definition emptyForever : Lister :=
  fun _ _ => ListOk {| Marker := "again"; Items := []; CommonPrefixes := [] |} true.

(** A bucket with the one-page listing above, whose opener finds no
    object. *)
Definition emptyBucket : @kodofs.Bucket unit :=
  kodofs.NewBucket oneDir "bkt" "" kodofs.noObject.

End walkspec.

(** ** Package [kodofs]: mounting a bucket by URL *)

Module mount.
Import kodoutil kodofs.

Section Mount.
(** [F]: the file handles of the opener; [manager ak sk]: the listing API
    of the bucket manager made for the credentials; [simplePrepareOpen]:
    the [prepare] hook used when none is given. *)
Context {F : Type}.
Context (manager : string -> string -> kodo.Lister).
Context (simplePrepareOpen : string -> @Opener F).

(** [New(accessKey, secretKey, bucket, host, prepare)]; [None] is a [nil]
    hook. *)
Definition New (accessKey secretKey bucket host : string)
    (prepare : option (string -> @Opener F)) : @Bucket F :=
  NewBucket (manager accessKey secretKey) bucket host
    (match prepare with
     | Some p => p
     | None => simplePrepareOpen
     end).

Definition hostNotFound (bucket : string) : error :=
  ErrOther ("host of bucket `" ++ bucket ++ "` not found, please call kodofs.Register").

(** [Open(ctx, url)]: the file system of the URL, or the error; [hosts] is
    the registry. *)
Definition Open (decode : Decoder) (hosts : gmap string string) (url : string)
    : option (@Bucket F) * option error :=
  match Parse decode url with
  | (_, _, _, Some e) => (None, Some e)
  | (bucket, ak, sk, None) =>
      match hosts !! bucket with
      | None => (None, Some (hostNotFound bucket))
      | Some host => (Some (New ak sk bucket host None), None)
      end
  end.

End Mount.

(** The URL the helper program prints for a bucket and a token:
    [fmt.Printf("kodo:%s?%s\n", args[0], query)], without the newline. *)
Definition kodourl (bucket query : string) : string :=
  ("kodo:" ++ bucket ++ "?" ++ query)%string.

End mount.

(** ** Draining a list iterator *)

Module iterate.
Import fs kodo.

(** An iterator whose index is within its page. *)
Definition wf (i : ListIterator) : Prop :=
  match page i with
  | Some pg => 0 <= nextIdx i <= Z.of_nat (length (Objects pg))
  | None => True
  end.

(** The object of an item of a page: a key that ends in [/], and is not
    [/] itself, loses that slash and is a directory. *)
Definition objectOf (obj : ListItem) : ListObject :=
  let key := Key obj in
  let isDir := GoStrings.HasSuffix key "/" in
  {| objKey := if isDir && negb (String.eqb key "/")
               then GoStrings.take (String.length key - 1) key else key;
     objModTime := fromPutTime (PutTime obj);
     objSize := Fsize obj;
     objIsDir := isDir |}.

(** A caller's loop over an iterator,
    [for { obj, err := it.Next(ctx); if err != nil { break }; ... }],
    for at most [calls] calls of [Next]: the objects it got, the error that
    ended it ([None] when the calls ran out first), the iterator it left. *)
Fixpoint collect (calls fuel : nat) (m : Lister) (bucket : string) (i : ListIterator)
    : option (list ListObject * option error * ListIterator) :=
  match calls with
  | O => Some ([], None, i)
  | S calls' =>
      match Next fuel m bucket i with
      | Some (Returned (_, Some e), i') => Some ([], Some e, i')
      | Some (Returned (Some o, None), i') =>
          match collect calls' fuel m bucket i' with
          | Some (os, e, i'') => Some (o :: os, e, i'')
          | None => None
          end
      | _ => None
      end
  end.

(** The options [listPaged] passes for the iterator of [List(prefix,
    delimiter)] at a page token. *)
Definition pagedInput (prefix delimiter marker : string) : ListInput :=
  {| optPrefix := prefix; optDelimiter := delimiter;
     optLimit := 1000; optMarker := marker |}.

(** The iterator on the page [ret] at index [k]. *)
Definition atPage (o : listPagedOptions) (ret : ListFilesRet) (hasNext : bool)
    (k : nat) : ListIterator :=
  {| opts := o;
     page := Some {| Objects := Items ret; NextPageToken := Marker ret |};
     nextIdx := Z.of_nat k;
     isLastPage := negb hasNext |}.

(** The tail of [Next] from "Loading a new page" on, for the iterator [j]. *)
Definition loadFrom
    (recur : ListIterator ->
             option (outcome (option ListObject * option error) * ListIterator))
    (m : Lister) (bucket : string) (j : ListIterator)
    : option (outcome (option ListObject * option error) * ListIterator) :=
  match listPaged m bucket (opts j) with
  | inr e => Some (Returned (None, Some e), j)
  | inl (p, isLast) =>
      recur {| opts := opts j; page := Some p; nextIdx := 0; isLastPage := isLast |}
  end.

(** [Next] on [i] goes straight to loading a page, as the iterator [j]. *)
Definition loading (m : Lister) (bucket : string) (i j : ListIterator) : Prop :=
  forall recur, NextStep recur m bucket i = loadFrom recur m bucket j.

(** An iterator at the end of its last page. *)
Definition ended (i : ListIterator) : Prop :=
  match page i with
  | Some pg => nextIdx i = Z.of_nat (length (Objects pg)) /\ isLastPage i = true
  | None => False
  end.

(** What ends a drained iterator: end-of-sequence, or the error of the
    fetch that failed. *)
Definition endOf (r : option error) : error :=
  match r with
  | None => EOF
  | Some e => e
  end.

End iterate.

(** ** Package [cached]: listing a local directory *)

Module cachedfs.
Import fs localfs cached.

Section Remote.
Context (os : OS).
Context (FileInfoFrom : list byte -> option FileInfo).

(** [for _, fi := range fis { ... }] of [ReaddirAll], from index [k] with
    [todo] entries to go: the loop reads entry [k] of the array and writes
    the entries it keeps over its front, at index [n]. *)
Fixpoint ReaddirAll_loop (localDir : string) (offline : bool) (s : FS os)
    (todo k n : nat) (fis : list FileInfo) : list FileInfo * nat :=
  match todo with
  | O => (fis, n)
  | S todo' =>
      match fis !! k with
      | None => (fis, n)
      | Some fi =>
          let name := Name fi in
          if String.eqb name dirListCacheFile
          then ReaddirAll_loop localDir offline s todo' (S k) n fis
          else if isRemote fi then
            if offline
            then ReaddirAll_loop localDir offline s todo' (S k) n fis
            else
              let localFile := Join os localDir name in
              ReaddirAll_loop localDir offline s todo' (S k) (S n)
                (<[n := readStubFile os FileInfoFrom localFile fi s]> fis)
          else ReaddirAll_loop localDir offline s todo' (S k) (S n) (<[n := fi]> fis)
      end
  end.

(** [ReaddirAll]; [dirReaddir] is what [dir.Readdir(-1)] returns. *)
Definition ReaddirAll (localDir : string) (dirReaddir : list FileInfo * option error)
    (offline : bool) (s : FS os) : list FileInfo * option error :=
  match dirReaddir with
  | (fis, Some e) => (fis, Some e)
  | (fis, None) =>
      let '(arr, n) := ReaddirAll_loop localDir offline s (length fis) 0 0 fis in
      (take n arr, None)
  end.

(** What [ReaddirAll] lists for an entry of the directory, if anything. *)
Definition listed (localDir : string) (offline : bool) (s : FS os) (fi : FileInfo)
    : option FileInfo :=
  if String.eqb (Name fi) dirListCacheFile then None
  else if isRemote fi then
    if offline then None
    else Some (readStubFile os FileInfoFrom (Join os localDir (Name fi)) fi s)
  else Some fi.

End Remote.

(** [Mkdir] and [Symlink] make new entries only: at a path where something
    exists they fail. *)
Record OSExclusive (os : OS) : Prop := mkOSExclusive {
  Mkdir_exists : forall p perm s k,
    kind_at os s p = Some k -> (Mkdir os p perm s).2 <> None;
  Symlink_exists : forall target p s k,
    kind_at os s p = Some k -> (Symlink os target p s).2 <> None
}.

(** The local tree with a file [root/d/a] already there. *)
Definition treeWithFile : FS memfs :=
  <[ "root/d/a"%string := mkNode KFile 3 420 TimeZero ]> rootTree.


End cachedfs.

(** ** Upload hosts ([endpoint], [hostAddSchemeIfNeeded], [removeHostScheme],
    [removeRepeatStringItem]) *)

Module uphost.
Import GoStrings.
Local Open Scope string_scope.

Section Endpoint.
(** [strings.TrimSpace], which knows Unicode's white space. *)
Context (TrimSpace : string -> string).

Definition endpoint (useHttps : bool) (host : string) : string :=
  let host := TrimSpace host in
  if String.eqb host "" then ""
  else if HasPrefix host "http://" || HasPrefix host "https://" then host
  else
    let scheme := if useHttps then "https://" else "http://" in
    scheme ++ host.

Definition hostAddSchemeIfNeeded (useHttps : bool) (host : string) : string :=
  if String.eqb host "" then ""
  else if Contains host "://" then host
  else endpoint useHttps host.

End Endpoint.

Definition removeHostScheme (host : string) : string :=
  let host := TrimPrefix host "http://" in
  let host := TrimPrefix host "https://" in
  host.

(** The loop of [removeRepeatStringItem]: [tempMap] is the map of the items
    seen, whose size tells whether the current one is new. *)
Fixpoint removeRepeat_loop (slc : list string) (tempMap : gmap string Z)
    (result : list string) : list string :=
  match slc with
  | [] => result
  | e :: rest =>
      let l := size tempMap in
      let tempMap := <[ e := 0%Z ]> tempMap in
      if negb (size tempMap =? l)%nat
      then removeRepeat_loop rest tempMap (result ++ [e])
      else removeRepeat_loop rest tempMap result
  end.

Definition removeRepeatStringItem (slc : list string) : list string :=
  removeRepeat_loop slc ∅ [].

(** White space of ASCII text, to run [endpoint] on examples. *)
Definition isSpace (c : ascii) : bool :=
  let n := N_of_ascii c in
  (n =? 32)%N || ((9 <=? n)%N && (n <=? 13)%N).

Fixpoint trimLeft (s : string) : string :=
  match s with
  | EmptyString => EmptyString
  | String c s' => if isSpace c then trimLeft s' else s
  end.

Fixpoint trimRight (s : string) : string :=
  match s with
  | EmptyString => EmptyString
  | String c s' =>
      match trimRight s' with
      | EmptyString => if isSpace c then EmptyString else String c EmptyString
      | t => String c t
      end
  end.

Definition asciiTrimSpace (s : string) : string := trimRight (trimLeft s).

End uphost.

(** ** Request signing ([auth.Credentials], [xQiniuHeaders]) *)

Module auth.
Local Open Scope string_scope.

Record Credentials : Type := mkCredentials {
  AccessKey : string;
  SecretKey : list byte
}.

Definition New (accessKey secretKey : string) : Credentials :=
  mkCredentials accessKey (list_byte_of_string secretKey).

Section Sign.
(** HMAC-SHA1 of a message under a key ([crypto/hmac], [crypto/sha1]). *)
Context (hmacSha1 : list byte -> list byte -> list byte).

Definition Sign (ath : Credentials) (data : list byte) : string :=
  let sign := base64.EncodeToString (hmacSha1 (SecretKey ath) data) in
  AccessKey ath ++ ":" ++ sign.

Definition SignWithData (ath : Credentials) (b : list byte) : string :=
  let encodedData := base64.EncodeToString b in
  let sign := Sign ath (list_byte_of_string encodedData) in
  sign ++ ":" ++ encodedData.

End Sign.

Record xQiniuHeaderItem : Type := mkHeaderItem {
  HeaderName : string;
  HeaderValue : string
}.

(** Go's [<] on strings: the order of their bytes. *)
Definition lt (a b : string) : bool := String.ltb a b.

(** The comparison [Less] makes between two items. *)
Definition lessItem (a b : xQiniuHeaderItem) : bool :=
  if lt (HeaderName a) (HeaderName b) then true
  else if lt (HeaderName b) (HeaderName a) then false
  else lt (HeaderValue a) (HeaderValue b).

Definition Less (headers : list xQiniuHeaderItem) (i j : Z) : outcome bool :=
  let n := Z.of_nat (length headers) in
  match (if 0 <=? i then headers !! Z.to_nat i else None)%Z with
  | None => Panicked (IndexOutOfRange i n)
  | Some a =>
      match (if 0 <=? j then headers !! Z.to_nat j else None)%Z with
      | None => Panicked (IndexOutOfRange j n)
      | Some b => Returned (lessItem a b)
      end
  end.

End auth.

(** ** Reading an upload token back ([getAkBucketFromUploadToken]) *)

Module uptoken.
Import GoStrings.
Local Open Scope string_scope.

(** [strings.Split(s, sep)] for a non-empty [sep]: [s] is cut at every [sep],
    which takes at most [len(s)] cuts. *)
Fixpoint Split_loop (fuel : nat) (s sep : string) : list string :=
  match fuel with
  | O => [s]
  | S fuel' =>
      match cut sep s with
      | None => [s]
      | Some (before, after) => before :: Split_loop fuel' after sep
      end
  end.

Definition Split (s sep : string) : list string :=
  Split_loop (String.length s) s sep.

Definition formatError : error := ErrOther "invalid upload token, format error".
Definition policyError : error := ErrOther "invalid upload token, invalid put policy".

Section Token.
(** [json.Unmarshal] of the policy bytes into a [PutPolicy], of which the
    [Scope] field is read; [None] when the bytes are not such a JSON text. *)
Context (unmarshalScope : list byte -> option string).

Definition getAkBucketFromUploadToken (token : string)
    : string * string * option error :=
  let items := Split token ":" in
  let items' :=
    if (length items =? 5)%nat && String.eqb (nth 0 items "") ""
    then Some (skipn 2 items)
    else if negb (length items =? 3)%nat then None
    else Some items in
  match items' with
  | None => ("", "", Some formatError)
  | Some items =>
      let ak := nth 0 items "" in
      match base64.DecodeString (nth 2 items "") with
      | None => (ak, "", Some policyError)
      | Some policyBytes =>
          match unmarshalScope policyBytes with
          | None => (ak, "", Some policyError)
          | Some scope => (ak, nth 0 (Split scope ":") "", None)
          end
      end
  end.

End Token.

(** The scope [Upload] puts in its policy. *)
Definition uploadScope (bucket name : string) : string :=
  bucket ++ ":" ++ TrimPrefix name "/".

End uptoken.

(** ** Reading the answer of a call ([client.CallRet], [client.ResponseError]) *)

Module client.
Import GoStrings.
Local Open Scope string_scope.

Record ErrorInfo : Type := mkErrorInfo {
  Err : string;
  Key : string;
  Reqid : string;
  Errno : Z;
  Code : Z
}.

(** An HTTP response; [Body] is what [io.ReadAll] gets from the body: the
    bytes read and the error that stopped the reading, if any. *)
Record Response : Type := mkResponse {
  StatusCode : Z;
  ContentLength : Z;
  Header : gmap string (list string);
  Body : list byte * option error
}.

(** [Header.Get] for a key given in its canonical form: the first value. *)
Definition Header_Get (h : gmap string (list string)) (key : string) : string :=
  match h !! key with
  | Some (v :: _) => v
  | _ => ""
  end.

Fixpoint inCutset (c : ascii) (cutset : string) : bool :=
  match cutset with
  | EmptyString => false
  | String x rest => Ascii.eqb c x || inCutset c rest
  end.

(** [strings.TrimRight] for a cutset of ASCII characters. *)
Fixpoint TrimRight (s cutset : string) : string :=
  match s with
  | EmptyString => EmptyString
  | String c s' =>
      match TrimRight s' cutset with
      | EmptyString => if inCutset c cutset then EmptyString else String c EmptyString
      | t => String c t
      end
  end.

(** What [CallRet] returns as an error: the error of decoding the body, or
    the [ErrorInfo] read from the response. *)
Inductive callError : Type :=
| DecodeError (e : error)
| ResponseErr (e : ErrorInfo).

Section Client.
(** The text of an error, and the JSON decoder of an error body, which
    gives the fields [error], [key] and [errno] of the text or fails. *)
Context (Error : error -> string).
Context (decodeJsonFromData : list byte -> option (string * string * Z)).

Definition parseError (e : ErrorInfo) (r : list byte * option error) : ErrorInfo :=
  match r with
  | (_, Some err1) => mkErrorInfo (Error err1) (Key e) (Reqid e) (Errno e) (Code e)
  | (body, None) =>
      match decodeJsonFromData body with
      | Some (err, key, errno) =>
          if negb (String.eqb err "")
          then mkErrorInfo err key (Reqid e) errno (Code e)
          else mkErrorInfo (string_of_list_byte body) (Key e) (Reqid e) (Errno e) (Code e)
      | None => mkErrorInfo (string_of_list_byte body) (Key e) (Reqid e) (Errno e) (Code e)
      end
  end.

Definition ResponseError (resp : Response) : outcome ErrorInfo :=
  let e := mkErrorInfo "" "" (Header_Get (Header resp) "X-Reqid") 0 (StatusCode resp) in
  let plain := mkErrorInfo (TrimRight (string_of_list_byte (fst (Body resp))) (String "010" ""))
                 (Key e) (Reqid e) (Errno e) (Code e) in
  if (StatusCode resp >? 299)%Z then
    if negb (ContentLength resp =? 0)%Z then
      match Header resp !! "Content-Type" with
      | Some [] => Panicked (IndexOutOfRange 0 0)
      | Some (ct0 :: _) =>
          if HasPrefix ct0 "application/json"
          then Returned (parseError e (Body resp))
          else Returned plain
      | None => Returned plain
      end
    else Returned e
  else Returned e.

(** [ret] is [None] for a nil [ret]; otherwise it is the JSON decoding into
    [ret], of which the error matters here. *)
Definition CallRet (ret : option (list byte * option error -> option error))
    (resp : Response) : outcome (option callError) :=
  if (Z.quot (StatusCode resp) 100 =? 2)%Z then
    match ret with
    | Some decode =>
        if negb (ContentLength resp =? 0)%Z then
          match decode (Body resp) with
          | Some err => Returned (Some (DecodeError err))
          | None => Returned None
          end
        else Returned None
    | None => Returned None
    end
  else
    match ResponseError resp with
    | Returned e => Returned (Some (ResponseErr e))
    | Panicked p => Panicked p
    end.

End Client.

(** Examples of the collaborators, to run the functions. *)
Definition plainError (e : error) : string :=
  match e with
  | ErrOther msg => msg
  | _ => "error"
  end.

Definition noJson (_ : list byte) : option (string * string * Z) := None.

Definition notFound : Response :=
  mkResponse 404 9
    {[ "X-Reqid" := ["req-1"]; "Content-Type" := ["text/plain"] ]}
    (list_byte_of_string ("not found" ++ String "010" ""), None).

End client.

(** ** Upload progress ([uploadProgress], [readerWithProgress]) and entries *)

Module upload.
Local Open Scope Z_scope.

(** [progress] tells whether the handler is there (not nil); a call of the
    handler is recorded as the pair of its arguments. *)
Record uploadProgress : Type := mkUploadProgress {
  lastUploadedBytes : Z;
  progress : bool
}.

Definition newUploadProgress (progressHandler : bool) : uploadProgress :=
  mkUploadProgress 0 progressHandler.

Definition onProgress (p : uploadProgress) (totalBytes uploadedBytes : Z)
    : uploadProgress * list (Z * Z) :=
  if negb (progress p) then (p, [])
  else if lastUploadedBytes p >=? uploadedBytes then (p, [])
  else (mkUploadProgress uploadedBytes (progress p), [(totalBytes, uploadedBytes)]).

Record readerWithProgress : Type := mkReader {
  uploaded : Z;
  fsize : Z
}.

(** [Read] when the inner reader returns [n] bytes, with the [onProgress]
    of an [uploadProgress] as the handler, as [putSeekableData] sets it. *)
Definition Read (r : readerWithProgress) (n : Z) (p : uploadProgress)
    : readerWithProgress * uploadProgress * list (Z * Z) :=
  let '(p, calls) :=
    if uploaded r >? 0 then onProgress p (fsize r) (uploaded r) else (p, []) in
  let uploaded := wrap64 (uploaded r + n) in
  let uploaded :=
    if (fsize r >? 0) && (uploaded >? fsize r) then fsize r else uploaded in
  (mkReader uploaded (fsize r), p, calls).

(** A run of calls of [onProgress], and a run of [Read]s, with the handler
    calls they make. *)
Fixpoint onProgress_all (p : uploadProgress) (args : list (Z * Z))
    : uploadProgress * list (Z * Z) :=
  match args with
  | [] => (p, [])
  | (total, count) :: rest =>
      let '(p, calls) := onProgress p total count in
      let '(p, calls') := onProgress_all p rest in
      (p, calls ++ calls')
  end.

Fixpoint Read_all (r : readerWithProgress) (ns : list Z) (p : uploadProgress)
    : readerWithProgress * uploadProgress * list (Z * Z) :=
  match ns with
  | [] => (r, p, [])
  | n :: rest =>
      let '(r, p, calls) := Read r n p in
      let '(r, p, calls') := Read_all r rest p in
      (r, p, calls ++ calls')
  end.

Definition EncodedEntry (bucket key : string) : string :=
  let entry := (bucket ++ ":" ++ key)%string in
  base64.EncodeToString (list_byte_of_string entry).

End upload.

(** * Properties *)

Module registry_spec.
Import registry.

Lemma pairsOf_drop (l : list string) (i : nat) (b h : string) :
  l !! i = Some b -> l !! (i + 1)%nat = Some h ->
  pairsOf (drop i l) = (b, h) :: pairsOf (drop (i + 2) l).
Proof.
  intros Hb Hh.
  rewrite (drop_S l b i Hb).
  replace (i + 2)%nat with (S (S i)) by lia.
  replace (i + 1)%nat with (S i) in Hh by lia.
  rewrite (drop_S l h (S i) Hh). reflexivity.
Qed.

Lemma Register_loop_pairs (fuel : nat) (l : list string) :
  forall (i : nat) (hosts : gmap string string),
    (length l - i <= fuel)%nat ->
    Register_loop fuel l i hosts =
    Some (foldl store hosts (pairsOf (drop i l)),
          if Nat.even (length l - i) then None
          else Some (IndexOutOfRange (Z.of_nat (length l)) (Z.of_nat (length l)))).
Proof.
  induction fuel as [|fuel IH]; intros i hosts Hfuel.
  - simpl. destruct (decide (i < length l)%nat) as [Hlt|Hge]; [lia|].
    rewrite drop_ge by lia.
    replace (length l - i)%nat with 0%nat by lia. reflexivity.
  - simpl. destruct (decide (i < length l)%nat) as [Hlt|Hge].
    + destruct (lookup_lt_is_Some_2 l i Hlt) as [b Hb]. rewrite Hb.
      destruct (l !! (i + 1)%nat) as [h|] eqn:Hh.
      * rewrite IH by lia.
        rewrite (pairsOf_drop l i b h Hb Hh). simpl.
        assert (Hlt' : (i + 1 < length l)%nat) by (eapply lookup_lt_Some; eauto).
        replace (length l - i)%nat with (S (S (length l - (i + 2)))) by lia.
        reflexivity.
      * apply lookup_ge_None_1 in Hh.
        assert (Hlen : length l = (i + 1)%nat) by lia.
        rewrite (drop_S l b i Hb). rewrite drop_ge by lia. simpl.
        replace (length l - i)%nat with 1%nat by lia. simpl.
        rewrite Hlen. reflexivity.
    + rewrite drop_ge by lia.
      replace (length l - i)%nat with 0%nat by lia. reflexivity.
Qed.

(** C10: [Register] consumes its arguments in pairs.  It always returns or
    panics (the fuel never runs out); every complete (bucket, host) pair
    is stored in the registry, in argument order; with an even number of
    arguments the call returns normally, and with an odd number it reads
    index [len(bucketHostPairs)], one past the end, which is an
    index-out-of-range panic. *)
Theorem Register_pairs (bucketHostPairs : list string) (hosts : gmap string string) :
  Register bucketHostPairs hosts =
  Some (foldl store hosts (pairsOf bucketHostPairs),
        if Nat.even (length bucketHostPairs) then None
        else Some (IndexOutOfRange (Z.of_nat (length bucketHostPairs))
                     (Z.of_nat (length bucketHostPairs)))).
Proof.
  unfold Register.
  rewrite Register_loop_pairs by lia.
  rewrite drop_0, Nat.sub_0_r. reflexivity.
Qed.

End registry_spec.

Module walk_spec.
Import fs kodo walkspec.

Lemma drop_slice_from (key : string) (n : nat) :
  (n <= String.length key)%nat ->
  GoStrings.slice_from key (Z.of_nat n) = Some (GoStrings.drop n key).
Proof.
  intros Hn. unfold GoStrings.slice_from, GoStrings.len.
  replace (0 <=? Z.of_nat n) with true by (symmetry; apply Z.leb_le; lia).
  replace (Z.of_nat n <=? Z.of_nat (String.length key)) with true
    by (symmetry; apply Z.leb_le; lia).
  simpl. rewrite Nat2Z.id. reflexivity.
Qed.

Lemma visitAll_app {St : Type} (fn : @WalkFunc St) (xs ys : list (string * FileInfo))
    (s : St) :
  visitAll fn (xs ++ ys) s = visitAll fn ys (visitAll fn xs s).
Proof. unfold visitAll. apply foldl_app. Qed.

Lemma walkItems_visits {St : Type} (dir : string) (fn : @WalkFunc St)
    (items : list ListItem) :
  Forall (fun item => (String.length dir <= String.length (Key item))%nat) items ->
  forall s : St,
    walkItems dir fn items s = (visitAll fn (map (entryOf dir) items) s, None).
Proof.
  induction 1 as [|item items Hlen _ IH]; intros s; simpl; [reflexivity|].
  unfold GoStrings.len at 1. rewrite (drop_slice_from _ _ Hlen).
  destruct (fn ("/" ++ Key item)%string
              (xfs.NewFileInfo (GoStrings.drop (String.length dir) (Key item))
                 (Fsize item)) None s) as [s' r] eqn:Hfn.
  rewrite IH. reflexivity.
Qed.

Lemma utilWalkItems_visits {St : Type} (fn : @WalkFunc St) (items : list ListItem) :
  forall s : St,
    kodoutil.walkItems fn items s = visitAll fn (map utilEntryOf items) s.
Proof.
  induction items as [|item items IH]; intros s; simpl; [reflexivity|].
  unfold visitAll. simpl.
  destruct (fn _ _ None s) as [s' r]. simpl. apply IH.
Qed.

Lemma WalkContext_loop_listing {St : Type} (m : Lister) (bucket dir : string)
    (fn : @WalkFunc St) (marker : string) (pages : list ListFilesRet)
    (r : option error) :
  listing m bucket (walkInput dir) marker pages r ->
  Forall (fun item => (String.length dir <= String.length (Key item))%nat)
    (allItems pages) ->
  forall (fuel : nat) (s : St),
    (length pages < fuel)%nat ->
    WalkContext_loop fuel m bucket dir fn marker s =
    Some (visitAll fn (map (entryOf dir) (allItems pages)) s, Returned r).
Proof.
  unfold walkInput.
  induction 1 as [marker e Hm|marker ret Hm|marker ret pages r Hm _ IH];
    intros Hkeys fuel s Hfuel; (destruct fuel as [|fuel]; [simpl in Hfuel; lia|]);
    simpl; rewrite Hm.
  - reflexivity.
  - unfold allItems in *. simpl in *. rewrite app_nil_r in *.
    rewrite (walkItems_visits dir fn _ Hkeys). reflexivity.
  - unfold allItems in *. simpl in *.
    apply Forall_app in Hkeys as [Hhere Hrest].
    rewrite (walkItems_visits dir fn _ Hhere). simpl.
    rewrite IH by (auto; lia).
    rewrite map_app, visitAll_app. reflexivity.
Qed.

Lemma Walk_loop_listing {St : Type} (m : Lister) (bucket dir : string)
    (fn : @WalkFunc St) (marker : string) (pages : list ListFilesRet)
    (r : option error) :
  listing m bucket (utilWalkInput dir) marker pages r ->
  forall (fuel : nat) (s : St),
    (length pages < fuel)%nat ->
    kodoutil.Walk_loop fuel m bucket dir fn marker s =
    Some (visitAll fn (map utilEntryOf (allItems pages)) s, r).
Proof.
  unfold utilWalkInput.
  induction 1 as [marker e Hm|marker ret Hm|marker ret pages r Hm _ IH];
    intros fuel s Hfuel; (destruct fuel as [|fuel]; [simpl in Hfuel; lia|]);
    simpl; rewrite Hm.
  - reflexivity.
  - unfold allItems. simpl. rewrite app_nil_r.
    rewrite utilWalkItems_visits. reflexivity.
  - unfold allItems in *. simpl in *.
    rewrite IH by lia.
    rewrite utilWalkItems_visits, map_app, visitAll_app. reflexivity.
Qed.

(** C1 (as the code has it): when the listing under the normalized
    directory answers with the pages [pages] and ends with [r] (no further
    page, or a failed fetch), and every listed key is at least as long as
    the prefix, [WalkContext], given fuel for these pages, calls the
    visitor exactly once for each listed entry, in listing order, and then
    returns [r]: it stops when there is no further page or when a page
    fetch fails.  The state the visitor leaves is [visitAll], which drops
    what the visitor returns: a visitor's non-nil error stops nothing. *)
Theorem WalkContext_visits_every_entry {St : Type} (m : Lister)
    (bucket dir : string) (fn : @WalkFunc St) (pages : list ListFilesRet)
    (r : option error) (fuel : nat) (s : St) :
  listing m bucket (walkInput (normDir dir)) EmptyString pages r ->
  Forall (fun item => (String.length (normDir dir) <= String.length (Key item))%nat)
    (allItems pages) ->
  (length pages < fuel)%nat ->
  WalkContext fuel m bucket dir fn s =
  Some (visitAll fn (map (entryOf (normDir dir)) (allItems pages)) s, Returned r).
Proof.
  intros Hlist Hkeys Hfuel. unfold WalkContext.
  eapply WalkContext_loop_listing; eauto.
Qed.

(** The same for [kodoutil.Walk], which has no slice expression. *)
Lemma Walk_visits_every_entry {St : Type} (m : Lister) (bucket dir : string)
    (fn : @WalkFunc St) (pages : list ListFilesRet) (r : option error)
    (fuel : nat) (s : St) :
  let dir' := if negb (GoStrings.HasSuffix dir "/") then (dir ++ "/")%string else dir in
  listing m bucket (utilWalkInput dir') EmptyString pages r ->
  (length pages < fuel)%nat ->
  kodoutil.Walk fuel m bucket dir fn s =
  Some (visitAll fn (map utilEntryOf (allItems pages)) s, r).
Proof.
  intros dir' Hlist Hfuel. unfold kodoutil.Walk. fold dir'.
  eapply Walk_loop_listing; eauto.
Qed.

Lemma twoPages_listing :
  listing twoPages "bkt" (walkInput "d/") EmptyString
    [ {| Marker := "m1"; Items := [mkListItem "d/a" 1 0; mkListItem "d/b" 2 0];
         CommonPrefixes := [] |};
      {| Marker := EmptyString; Items := [mkListItem "d/c" 3 0];
         CommonPrefixes := [] |} ] None.
Proof.
  eapply listing_more; [reflexivity|]. eapply listing_last. reflexivity.
Qed.

Lemma WalkContext_visits_every_entry_witness :
  WalkContext 3 twoPages "bkt" "/d" stopper [] =
  Some (visitAll stopper
          (map (entryOf "d/")
             [mkListItem "d/a" 1 0; mkListItem "d/b" 2 0; mkListItem "d/c" 3 0]) [],
        Returned None).
Proof.
  apply (WalkContext_visits_every_entry twoPages "bkt" "/d" stopper _ None 3 []
           twoPages_listing).
  - repeat constructor.
  - simpl. lia.
Defined.

(** C1 (as stated) fails: the visitor [stopper] asks the walk to stop at
    its first call, on [/d/a]; the walk still visits [/d/b] of the same
    page, fetches the second page, visits [/d/c] and returns [nil]. *)
Lemma WalkContext_ignores_visitor_error :
  (stopper "/d/a" (xfs.NewFileInfo "a" 1) None []).2 = Some (ErrOther "stop")
  /\ WalkContext 3 twoPages "bkt" "/d" stopper [] =
     Some (["/d/a"; "/d/b"; "/d/c"]%string, Returned None).
Proof. split; reflexivity. Qed.

End walk_spec.

Module iterator_spec.
Import fs kodo walkspec.

(** On a page that has an object left, or is the last one, [Next] answers
    at once, whatever fuel it is given. *)
Lemma Next_on_page (m : Lister) (bucket : string) (i : ListIterator) (pg : listPage) :
  page i = Some pg ->
  nextIdx i < Z.of_nat (length (Objects pg)) \/ isLastPage i = true ->
  exists r, forall fuel, Next (S fuel) m bucket i = Some r.
Proof.
  intros Hpg Hready. simpl. unfold NextStep. rewrite Hpg.
  destruct (nextIdx i <? Z.of_nat (length (Objects pg))) eqn:Hidx.
  - destruct (nextIdx i <? 0); [eauto|].
    destruct (Objects pg !! Z.to_nat (nextIdx i)) as [obj|]; [|eauto].
    simpl. destruct (toListObject obj); eauto.
  - destruct Hready as [Hlt|Hlast]; [apply Z.ltb_ge in Hidx; lia|].
    rewrite Hlast. eauto.
Qed.

(** Loading a page and going on, the tail of [Next]. *)
Lemma Next_load (m : Lister) (bucket : string) (i : ListIterator) :
  pagesNonEmptyOrLast m bucket ->
  exists r, forall fuel,
    match listPaged m bucket (opts i) with
    | inr e => Some (Returned (None, Some e), i)
    | inl (p, isLast) =>
        Next (S fuel) m bucket
          {| opts := opts i; page := Some p; nextIdx := 0; isLastPage := isLast |}
    end = Some r.
Proof.
  intros Hpre. unfold listPaged.
  destruct (m bucket _) as [ret hasNext|e] eqn:Hm; [|eauto].
  eapply Next_on_page; [reflexivity|]. simpl.
  destruct (Hpre _ _ _ Hm) as [Hne|Hlast].
  - left. destruct (Items ret); [congruence|simpl; lia].
  - right. rewrite Hlast. reflexivity.
Qed.

Lemma Next_starved (fuel : nat) (bucket : string) :
  forall i : ListIterator,
    match page i with
    | None => True
    | Some pg => Objects pg = [] /\ 0 <= nextIdx i /\ isLastPage i = false
    end ->
    Next fuel emptyForever bucket i = None.
Proof.
  induction fuel as [|fuel IH]; intros i Hi; [reflexivity|].
  simpl. unfold NextStep. destruct (page i) as [pg|] eqn:Hpg.
  - destruct Hi as (Hobjs & Hidx & Hlast). rewrite Hobjs, Hlast. simpl.
    replace (nextIdx i <? Z.of_nat 0) with false
      by (symmetry; apply Z.ltb_ge; simpl; lia).
    apply IH. simpl. split; [reflexivity|split; [lia|reflexivity]].
  - simpl. apply IH. simpl. split; [reflexivity|split; [lia|reflexivity]].
Qed.

(** C8: if every page the remote side returns is non-empty or flagged as
    the last page, [Next] terminates from every iterator state: two
    activations (one page load at most) give its result, and more fuel
    gives the same.  Without that precondition it need not: against a
    remote side that keeps returning empty pages that are not the last,
    [Next] on a fresh iterator loads page after page and no amount of fuel
    lets it return. *)
Theorem Next_terminates :
  (forall (m : Lister) (bucket : string) (i : ListIterator),
      pagesNonEmptyOrLast m bucket ->
      exists r, forall fuel, (2 <= fuel)%nat -> Next fuel m bucket i = Some r)
  /\ (forall (fuel : nat) (bucket prefix delimiter : string),
        Next fuel emptyForever bucket (List prefix delimiter) = None).
Proof.
  split.
  - intros m bucket i Hpre.
    destruct (page i) as [pg|] eqn:Hpg.
    + destruct (nextIdx i <? Z.of_nat (length (Objects pg))) eqn:Hidx;
        [|destruct (isLastPage i) eqn:Hlast].
      * destruct (Next_on_page m bucket i pg Hpg) as [r Hr];
          [left; apply Z.ltb_lt; exact Hidx|].
        exists r. intros [|fuel] Hfuel; [lia|apply Hr].
      * destruct (Next_on_page m bucket i pg Hpg) as [r Hr]; [right; exact Hlast|].
        exists r. intros [|fuel] Hfuel; [lia|apply Hr].
      * destruct (Next_load m bucket (withPageToken i (NextPageToken pg)) Hpre)
          as [r Hr].
        exists r. intros [|[|fuel]] Hfuel; [lia|lia|].
        rewrite <- (Hr fuel).
        change (Next (S (S fuel)) m bucket i)
          with (NextStep (Next (S fuel) m bucket) m bucket i).
        unfold NextStep. rewrite Hpg, Hidx, Hlast. reflexivity.
    + destruct (Next_load m bucket i Hpre) as [r Hr].
      exists r. intros [|[|fuel]] Hfuel; [lia|lia|].
      rewrite <- (Hr fuel).
      change (Next (S (S fuel)) m bucket i)
        with (NextStep (Next (S fuel) m bucket) m bucket i).
      unfold NextStep. rewrite Hpg. reflexivity.
  - intros fuel bucket prefix delimiter. apply Next_starved. simpl. exact I.
Qed.

Lemma twoPages_nonEmpty : pagesNonEmptyOrLast twoPages "bkt".
Proof.
  intros input ret hasNext. unfold twoPages.
  destruct (String.eqb (optMarker input) EmptyString);
    intros [= <- <-]; left; discriminate.
Qed.

Lemma Next_terminates_witness :
  exists r, forall fuel, (2 <= fuel)%nat ->
    Next fuel twoPages "bkt" (List "d/" EmptyString) = Some r.
Proof.
  exact (proj1 Next_terminates twoPages "bkt" (List "d/" EmptyString)
           twoPages_nonEmpty).
Defined.

End iterator_spec.

Module readdir_spec.
Import fs kodo walkspec.

Lemma prefix_drop (d : string) :
  forall k : string,
    String.prefix d k = true ->
    k = (d ++ GoStrings.drop (String.length d) k)%string
    /\ (String.length d <= String.length k)%nat.
Proof.
  induction d as [|c d IH]; intros k Hp.
  - simpl. split; [reflexivity|lia].
  - destruct k as [|c' k]; [discriminate|]. simpl in Hp.
    destruct (ascii_dec c c') as [->|Hne]; [|discriminate].
    destruct (IH k Hp) as [Heq Hlen]. simpl.
    split; [|lia].
    change (String c' k = String c' (d ++ GoStrings.drop (String.length d) k)%string).
    f_equal. exact Heq.
Qed.

Lemma length_drop (n : nat) :
  forall s : string,
    String.length (GoStrings.drop n s) = (String.length s - n)%nat.
Proof.
  induction n as [|n IH]; intros [|c s]; simpl; auto.
Qed.

(** A non-empty string is all but its last character, then that
    character. *)
Lemma take_init_last (s : string) :
  (0 < String.length s)%nat ->
  exists c, s = (GoStrings.take (String.length s - 1) s ++ String c EmptyString)%string.
Proof.
  induction s as [|a s IH]; simpl; intros Hlen; [lia|].
  destruct s as [|b s].
  - exists a. reflexivity.
  - destruct IH as [c Hc]; [simpl; lia|]. exists c.
    simpl in *. rewrite Nat.sub_0_r in *.
    change (String a (String b s) =
            String a (GoStrings.take (String.length s) (String b s)
                        ++ String c EmptyString)%string).
    f_equal. exact Hc.
Qed.

Lemma slice_take_drop (key : string) (n : nat) :
  (n < String.length key)%nat ->
  GoStrings.slice key (Z.of_nat n) (GoStrings.len key - 1) =
  Some (GoStrings.take (String.length key - 1 - n) (GoStrings.drop n key)).
Proof.
  intros Hn. unfold GoStrings.slice, GoStrings.len.
  replace (0 <=? Z.of_nat n) with true by (symmetry; apply Z.leb_le; lia).
  replace (Z.of_nat n <=? Z.of_nat (String.length key) - 1) with true
    by (symmetry; apply Z.leb_le; lia).
  replace (Z.of_nat (String.length key) - 1 <=? Z.of_nat (String.length key))
    with true by (symmetry; apply Z.leb_le; lia).
  simpl. rewrite Nat2Z.id.
  replace (Z.to_nat (Z.of_nat (String.length key) - 1 - Z.of_nat n))
    with (String.length key - 1 - n)%nat by lia.
  reflexivity.
Qed.

Lemma readItems_entries (dir : string) (items : list ListItem) :
  Forall (fun item => GoStrings.HasPrefix (Key item) dir = true) items ->
  forall fis : list FileInfo,
    readItems dir items fis = Returned (fis ++ map (fileEntry dir) items).
Proof.
  induction 1 as [|item items Hp _ IH]; intros fis; simpl.
  - rewrite app_nil_r. reflexivity.
  - apply prefix_drop in Hp as [_ Hlen].
    unfold GoStrings.len at 1. rewrite (walk_spec.drop_slice_from _ _ Hlen).
    rewrite IH, <- app_assoc. reflexivity.
Qed.

Lemma readPrefixes_entries (dir : string) (keys : list string) :
  Forall (fun key => (String.length dir < String.length key)%nat) keys ->
  forall fis : list FileInfo,
    readPrefixes dir keys fis = Returned (fis ++ map (dirEntry dir) keys).
Proof.
  induction 1 as [|key keys Hlen _ IH]; intros fis; simpl.
  - rewrite app_nil_r. reflexivity.
  - unfold GoStrings.len at 1. rewrite (slice_take_drop _ _ Hlen).
    rewrite IH, <- app_assoc. reflexivity.
Qed.

Lemma ReaddirContext_loop_listing (m : Lister) (bucket dir : string)
    (marker : string) (pages : list ListFilesRet) (r : option error) :
  listing m bucket (readdirInput dir) marker pages r ->
  Forall (fun item => GoStrings.HasPrefix (Key item) dir = true) (allItems pages) ->
  Forall (fun key => (String.length dir < String.length key)%nat) (allPrefixes pages) ->
  forall (fuel : nat) (fis : list FileInfo),
    (length pages < fuel)%nat ->
    ReaddirContext_loop fuel m bucket dir marker fis =
    Some (Returned match r with
                   | None => (fis ++ entriesOf dir pages, None)
                   | Some e => ([], Some e)
                   end).
Proof.
  unfold readdirInput.
  induction 1 as [marker e Hm|marker ret Hm|marker ret pages r Hm _ IH];
    intros Hitems Hprefixes fuel fis Hfuel;
    (destruct fuel as [|fuel]; [simpl in Hfuel; lia|]);
    simpl; rewrite Hm.
  - reflexivity.
  - unfold allItems, allPrefixes, entriesOf, pageEntries in *. simpl in *.
    rewrite app_nil_r in *.
    rewrite (readItems_entries dir _ Hitems), (readPrefixes_entries dir _ Hprefixes).
    simpl. rewrite <- app_assoc. reflexivity.
  - unfold allItems, allPrefixes in *. simpl in *.
    apply Forall_app in Hitems as [Hi1 Hi2].
    apply Forall_app in Hprefixes as [Hp1 Hp2].
    rewrite (readItems_entries dir _ Hi1), (readPrefixes_entries dir _ Hp1). simpl.
    rewrite IH by (auto; lia).
    destruct r; [reflexivity|].
    unfold entriesOf, pageEntries. simpl. rewrite <- !app_assoc. reflexivity.
Qed.

(** C9 (as the code has it): let the listing under the normalized
    directory prefix answer with the pages [pages]; if every item key
    starts with that prefix, and every common prefix is strictly longer
    than it, then no slice expression of [ReaddirContext] is out of
    bounds: with fuel for these pages it returns, one entry per item and
    per common prefix, in order (or the error of the failed fetch).  Each
    file name is the item key with the prefix taken off its front, and each
    directory name is the common prefix with the prefix taken off its front
    and its last character off its end. *)
Theorem ReaddirContext_names (m : Lister) (bucket dir : string)
    (pages : list ListFilesRet) (r : option error) (fuel : nat) :
  listing m bucket (readdirInput (normDir dir)) EmptyString pages r ->
  Forall (fun item => GoStrings.HasPrefix (Key item) (normDir dir) = true)
    (allItems pages) ->
  Forall (fun key => GoStrings.HasPrefix key (normDir dir) = true
                     /\ (String.length (normDir dir) < String.length key)%nat)
    (allPrefixes pages) ->
  (length pages < fuel)%nat ->
  ReaddirContext fuel m bucket dir =
    Some (Returned match r with
                   | None => (entriesOf (normDir dir) pages, None)
                   | Some e => ([], Some e)
                   end)
  /\ Forall (fun item =>
               Key item = (normDir dir ++ Name (fileEntry (normDir dir) item))%string)
       (allItems pages)
  /\ Forall (fun key =>
               exists c,
                 key = (normDir dir ++ Name (dirEntry (normDir dir) key)
                          ++ String c EmptyString)%string)
       (allPrefixes pages).
Proof.
  intros Hlist Hitems Hprefixes Hfuel. split; [|split].
  - unfold ReaddirContext.
    rewrite (ReaddirContext_loop_listing m bucket (normDir dir) EmptyString pages r);
      auto.
    eapply Forall_impl; [exact Hprefixes|]. simpl. intros key [_ Hlen]. exact Hlen.
  - eapply Forall_impl; [exact Hitems|]. simpl. intros item Hp.
    apply prefix_drop in Hp as [Heq _]. exact Heq.
  - eapply Forall_impl; [exact Hprefixes|]. simpl. intros key [Hp Hlen].
    apply prefix_drop in Hp as [Heq _].
    destruct (take_init_last (GoStrings.drop (String.length (normDir dir)) key))
      as [c Hc].
    { rewrite length_drop. lia. }
    exists c. rewrite length_drop in Hc.
    replace (String.length key - String.length (normDir dir) - 1)%nat
      with (String.length key - 1 - String.length (normDir dir))%nat in Hc by lia.
    rewrite <- Hc. exact Heq.
Qed.

Lemma ReaddirContext_names_witness :
  ReaddirContext 2 oneDir "bkt" "/d" =
    Some (Returned (entriesOf (normDir "/d") [onePage], None))
  /\ Forall (fun item =>
               Key item = (normDir "/d" ++ Name (fileEntry (normDir "/d") item))%string)
       (allItems [onePage])
  /\ Forall (fun key =>
               exists c,
                 key = (normDir "/d" ++ Name (dirEntry (normDir "/d") key)
                          ++ String c EmptyString)%string)
       (allPrefixes [onePage]).
Proof.
  apply (ReaddirContext_names oneDir "bkt" "/d" [onePage] None 2).
  - apply listing_last. reflexivity.
  - repeat constructor.
  - repeat constructor.
  - simpl. lia.
Defined.

(** C9 (as stated) fails twice.  The common prefix [d/] starts with the
    directory prefix [d/], yet the slice for its name,
    [key[len(dir) : len(key)-1]], is [key[2:1]]: out of bounds.  And the
    item key [d/d/x] starts with the prefix [d/], its name is [d/x], which
    contains the prefix. *)
Lemma ReaddirContext_prefix_alone_panics :
  (GoStrings.HasPrefix "d/" (normDir "/d") = true
   /\ ReaddirContext 1 prefixOnly "bkt" "/d" = Some (Panicked (SliceOutOfRange 2 1 2)))
  /\ (GoStrings.HasPrefix "d/d/x" (normDir "/d") = true
      /\ ReaddirContext 1 nested "bkt" "/d" =
         Some (Returned ([xfs.FileInfoAt "d/x" 7 (fromPutTime 0)], None))
      /\ GoStrings.Contains "d/x" (normDir "/d") = true).
Proof. repeat split; reflexivity. Qed.

End readdir_spec.

Module open_spec.
Import fs kodo kodofs walkspec.

(** C2 (as the code has it): for a name other than the root, [Open]
    returns what the single-object fetch returned, without listing
    anything, when the fetch succeeded, or the name ends in [/index.html],
    or the error is not a not-found condition; so a failed fetch is
    propagated exactly when the name looks like an index page or the
    failure is not a not-found condition.  In the remaining case, a
    not-found failure on a name that is no index page, [Open] goes on to
    read the name as a directory. *)
Theorem Open_after_fetch {F : Type} (fuel : nat) (b : @Bucket F) (name : string)
    (f : option F) (err : option error) :
  name <> "/"%string ->
  prepare b name (host b ++ name)%string = (f, err) ->
  (err = None \/ isIndexPage name = true \/ os_IsNotExist err = false ->
   Open fuel b name = Some (Returned (xfs.Obj <$> f, err)))
  /\ (os_IsNotExist err = true -> isIndexPage name = false ->
      Open fuel b name = openDir fuel b name f).
Proof.
  intros Hroot Hfetch. unfold Open, fetch.
  apply String.eqb_neq in Hroot. rewrite Hroot. simpl. rewrite Hfetch.
  unfold returnsFetch. split.
  - intros [->|[->| ->]]; simpl; [reflexivity| |].
    + rewrite orb_true_r. reflexivity.
    + rewrite orb_true_r. reflexivity.
  - intros Hnf Hidx. rewrite Hnf, Hidx.
    destruct err; [reflexivity|discriminate].
Qed.

Lemma Open_after_fetch_witness :
  (Some ErrNotExist = None \/ isIndexPage "/d/index.html" = true
     \/ os_IsNotExist (Some ErrNotExist) = false ->
   Open 0 emptyBucket "/d/index.html" =
   Some (Returned (xfs.Obj <$> None, Some ErrNotExist)))
  /\ (os_IsNotExist (Some ErrNotExist) = true ->
      isIndexPage "/d/index.html" = false ->
      Open 0 emptyBucket "/d/index.html" =
      openDir 0 emptyBucket "/d/index.html" None).
Proof.
  apply (Open_after_fetch 0 emptyBucket "/d/index.html" None (Some ErrNotExist)).
  - discriminate.
  - reflexivity.
Defined.

(** C2 (as stated) fails: for the name [/d], not the root and no index
    page, the fetch fails with a not-found error; [Open] does not
    propagate it but lists [d/] and returns the directory. *)
Lemma Open_not_found_reads_directory :
  prepare emptyBucket "/d" (host emptyBucket ++ "/d")%string = (None, Some ErrNotExist)
  /\ os_IsNotExist (Some ErrNotExist) = true
  /\ isIndexPage "/d" = false
  /\ Open 2 emptyBucket "/d" =
     Some (Returned (Some (xfs.Dir (xfs.NewDirInfo "d")
                             [xfs.FileInfoAt "a" 100 (fromPutTime 0);
                              xfs.NewDirInfo "sub"]), None)).
Proof. repeat split; reflexivity. Qed.

(** C4: when [Open] reads the name as a directory and the listing of its
    children succeeds: with no entry, [Open] returns the does-not-exist
    error; with at least one, it returns the directory pseudo-file built
    from these entries, whose [Readdir] gives exactly them and whose
    [Close] returns [nil] and does nothing else. *)
Theorem Open_directory {F : Type} (fuel : nat) (b : @Bucket F) (name : string)
    (fis : list FileInfo) :
  fallsThrough b name = true ->
  ReaddirContext fuel (bkt b) (bktName b) name = Some (Returned (fis, None)) ->
  (fis = [] -> Open fuel b name = Some (Returned (None, Some ErrNotExist)))
  /\ (fis <> [] ->
      exists d : xfs.File F,
        Open fuel b name = Some (Returned (Some d, None))
        /\ d = xfs.Dir (xfs.NewDirInfo (path.Base name)) fis
        /\ xfs.Readdir d = (fis, None)
        /\ forall closeObj, xfs.Close closeObj d = None).
Proof.
  intros Hfall Hlist.
  assert (Hdir : Open fuel b name = openDir fuel b name None).
  { unfold Open, fallsThrough in *.
    destruct (fetch b name) as [[f err]|]; [|reflexivity].
    destruct (returnsFetch name err); [discriminate|].
    unfold openDir. rewrite Hlist. reflexivity. }
  rewrite Hdir. unfold openDir. rewrite Hlist. split.
  - intros ->. reflexivity.
  - intros Hne. destruct fis as [|fi fis]; [congruence|].
    eexists. split; [reflexivity|]. repeat split.
Qed.

Lemma Open_directory_witness :
  ([xfs.FileInfoAt "a" 100 (fromPutTime 0); xfs.NewDirInfo "sub"] = [] ->
   Open 2 emptyBucket "/d" = Some (Returned (None, Some ErrNotExist)))
  /\ ([xfs.FileInfoAt "a" 100 (fromPutTime 0); xfs.NewDirInfo "sub"] <> [] ->
      exists d : xfs.File unit,
        Open 2 emptyBucket "/d" = Some (Returned (Some d, None))
        /\ d = xfs.Dir (xfs.NewDirInfo (path.Base "/d"))
                 [xfs.FileInfoAt "a" 100 (fromPutTime 0); xfs.NewDirInfo "sub"]
        /\ xfs.Readdir d =
           ([xfs.FileInfoAt "a" 100 (fromPutTime 0); xfs.NewDirInfo "sub"], None)
        /\ forall closeObj, xfs.Close closeObj d = None).
Proof.
  apply (Open_directory 2 emptyBucket "/d").
  - reflexivity.
  - reflexivity.
Defined.

End open_spec.

(** ** The base64 codec gives back what it encoded *)

Module base64_facts.
Import base64.
Local Open Scope N_scope.

Lemma decode_encodeChar_nat (k : nat) :
  (k < 64)%nat ->
  decodeChar (encodeChar (N.of_nat k)) = Some (N.of_nat k)
  /\ isPad (encodeChar (N.of_nat k)) = false
  /\ isNewline (encodeChar (N.of_nat k)) = false.
Proof.
  intros Hk.
  do 64 (destruct k as [|k]; [repeat split; reflexivity|]). lia.
Qed.

Lemma decode_encodeChar (n : N) :
  n < 64 ->
  decodeChar (encodeChar n) = Some n
  /\ isPad (encodeChar n) = false
  /\ isNewline (encodeChar n) = false.
Proof.
  intros Hn. rewrite <- (N2Nat.id n). apply decode_encodeChar_nat. lia.
Qed.

Lemma sextets (a b c : byte) :
  let a := Byte.to_N a in let b := Byte.to_N b in let c := Byte.to_N c in
  a / 4 < 64 /\ a mod 4 * 16 + b / 16 < 64 /\ b mod 16 * 4 + c / 64 < 64 /\ c mod 64 < 64
  /\ a mod 4 * 16 < 64 /\ b mod 16 * 4 < 64
  /\ (a / 4) * 4 + (a mod 4 * 16 + b / 16) / 16 = a
  /\ (a mod 4 * 16 + b / 16) mod 16 * 16 + (b mod 16 * 4 + c / 64) / 4 = b
  /\ (b mod 16 * 4 + c / 64) mod 4 * 64 + c mod 64 = c
  /\ (a / 4) * 4 + (a mod 4 * 16) / 16 = a
  /\ (a mod 4 * 16 + b / 16) mod 16 * 16 + (b mod 16 * 4) / 4 = b.
Proof.
  intros a' b' c'.
  pose proof (Byte.to_N_bounded a). pose proof (Byte.to_N_bounded b).
  pose proof (Byte.to_N_bounded c).
  subst a' b' c'.
  generalize dependent (Byte.to_N a). generalize dependent (Byte.to_N b).
  generalize dependent (Byte.to_N c). intros.
  repeat split; zify; Z.to_euclidean_division_equations; lia.
Qed.

Lemma byteOf_to_N (b : byte) : byteOf (Byte.to_N b) = b.
Proof. unfold byteOf. rewrite Byte.of_to_N. reflexivity. Qed.

Lemma quantum3 (a b c : byte) :
  let x := Byte.to_N a in let y := Byte.to_N b in let z := Byte.to_N c in
  decodeQuantum (encodeChar (x / 4)) (encodeChar (x mod 4 * 16 + y / 16))
    (Some (encodeChar (y mod 16 * 4 + z / 64))) (Some (encodeChar (z mod 64)))
  = Some [a; b; c].
Proof.
  intros x y z.
  destruct (sextets a b c) as (H0 & H1 & H2 & H3 & _ & _ & Ha & Hb & Hc & _ & _).
  fold x y z in H0, H1, H2, H3, Ha, Hb, Hc.
  unfold decodeQuantum.
  rewrite (proj1 (decode_encodeChar _ H0)), (proj1 (decode_encodeChar _ H1)),
    (proj1 (decode_encodeChar _ H2)), (proj1 (decode_encodeChar _ H3)).
  rewrite Ha, Hb, Hc. unfold x, y, z. rewrite !byteOf_to_N. reflexivity.
Qed.

Lemma quantum2 (a b : byte) :
  let x := Byte.to_N a in let y := Byte.to_N b in
  decodeQuantum (encodeChar (x / 4)) (encodeChar (x mod 4 * 16 + y / 16))
    (Some (encodeChar (y mod 16 * 4))) None
  = Some [a; b].
Proof.
  intros x y.
  destruct (sextets a b x00) as (H0 & H1 & _ & _ & _ & H2 & _ & _ & _ & _ & Hb).
  destruct (sextets a b b) as (_ & _ & _ & _ & _ & _ & Ha & _).
  fold x y in H0, H1, H2, Ha, Hb.
  unfold decodeQuantum.
  rewrite (proj1 (decode_encodeChar _ H0)), (proj1 (decode_encodeChar _ H1)),
    (proj1 (decode_encodeChar _ H2)).
  rewrite Ha, Hb. unfold x, y. rewrite !byteOf_to_N. reflexivity.
Qed.

Lemma quantum1 (a : byte) :
  let x := Byte.to_N a in
  decodeQuantum (encodeChar (x / 4)) (encodeChar (x mod 4 * 16)) None None = Some [a].
Proof.
  intros x.
  destruct (sextets a x00 x00) as (H0 & _ & _ & _ & H1 & _ & _ & _ & _ & Ha & _).
  fold x in H0, H1, Ha.
  unfold decodeQuantum.
  rewrite (proj1 (decode_encodeChar _ H0)), (proj1 (decode_encodeChar _ H1)).
  rewrite Ha. unfold x. rewrite byteOf_to_N. reflexivity.
Qed.

Lemma list_ind3 {A : Type} (P : list A -> Prop) :
  P [] -> (forall a, P [a]) -> (forall a b, P [a; b]) ->
  (forall a b c rest, P rest -> P (a :: b :: c :: rest)) ->
  forall l, P l.
Proof.
  intros H0 H1 H2 H3.
  fix IH 1. intros [|a [|b [|c rest]]];
    [apply H0|apply H1|apply H2|apply H3; apply IH].
Qed.

Lemma EncodeToString_nil (src : list byte) :
  EncodeToString src = EmptyString -> src = [].
Proof. destruct src as [|a [|b [|c rest]]]; [reflexivity|discriminate..]. Qed.

Lemma stripNewlines_encoded (src : list byte) :
  stripNewlines (EncodeToString src) = EncodeToString src.
Proof.
  induction src as [|a|a b|a b c rest IH] using list_ind3.
  - reflexivity.
  - destruct (sextets a x00 x00) as (H0 & _ & _ & _ & H1 & _).
    cbn [EncodeToString quad stripNewlines].
    rewrite (proj2 (proj2 (decode_encodeChar _ H0))),
      (proj2 (proj2 (decode_encodeChar _ H1))). reflexivity.
  - destruct (sextets a b x00) as (H0 & H1 & _ & _ & _ & H2 & _).
    cbn [EncodeToString quad stripNewlines].
    rewrite (proj2 (proj2 (decode_encodeChar _ H0))),
      (proj2 (proj2 (decode_encodeChar _ H1))),
      (proj2 (proj2 (decode_encodeChar _ H2))). reflexivity.
  - destruct (sextets a b c) as (H0 & H1 & H2 & H3 & _).
    cbn [EncodeToString quad stripNewlines].
    rewrite (proj2 (proj2 (decode_encodeChar _ H0))),
      (proj2 (proj2 (decode_encodeChar _ H1))),
      (proj2 (proj2 (decode_encodeChar _ H2))),
      (proj2 (proj2 (decode_encodeChar _ H3))).
    cbn [EncodeToString] in IH. rewrite IH. reflexivity.
Qed.

Lemma decodeQuads_encoded (src : list byte) :
  decodeQuads (EncodeToString src) = Some src.
Proof.
  induction src as [|a|a b|a b c rest IH] using list_ind3.
  - reflexivity.
  - cbn [EncodeToString quad decodeQuads].
    change (isPad padChar) with true. cbn iota. apply quantum1.
  - destruct (sextets a b x00) as (_ & _ & _ & _ & _ & H2 & _).
    cbn [EncodeToString quad decodeQuads].
    change (isPad padChar) with true. cbn iota.
    rewrite (proj1 (proj2 (decode_encodeChar _ H2))). apply quantum2.
  - destruct (sextets a b c) as (_ & _ & _ & H3 & _).
    cbn [EncodeToString quad decodeQuads].
    fold EncodeToString. fold decodeQuads.
    rewrite (quantum3 a b c).
    destruct (EncodeToString rest) as [|ch more] eqn:Hrest.
    + apply EncodeToString_nil in Hrest. subst rest.
      rewrite (proj1 (proj2 (decode_encodeChar _ H3))). reflexivity.
    + rewrite IH. reflexivity.
Qed.

Theorem DecodeString_EncodeToString (src : list byte) :
  DecodeString (EncodeToString src) = Some src.
Proof.
  unfold DecodeString. rewrite stripNewlines_encoded. apply decodeQuads_encoded.
Qed.
End base64_facts.

Module stub_spec.
Import fs localfs cached.

Lemma memfs_create (p : string) (n : node) (s s' : gmap string node) (e : option error) :
  create p n s = (s', e) ->
  (s' = s) \/ (s !! p = None /\ s' = <[p := n]> s /\ e = None).
Proof.
  unfold create. destruct (s !! p) eqn:Hp.
  - intros [= <- <-]. left. reflexivity.
  - destruct (isDirAt s (parent p)); intros [= <- <-]; auto.
Qed.

Lemma memfs_create_keeps (p : string) (n : node) (s s' : gmap string node)
    (e : option error) (q : string) (k : kind) :
  create p n s = (s', e) ->
  nkind <$> s !! q = Some k -> nkind <$> s' !! q = Some k.
Proof.
  intros Hc Hq. destruct (memfs_create _ _ _ _ _ Hc) as [->|(Hp & -> & _)]; [exact Hq|].
  destruct (decide (p = q)) as [->|Hne].
  - rewrite Hp in Hq. discriminate.
  - rewrite lookup_insert_ne by exact Hne. exact Hq.
Qed.

Lemma memfs_create_no_file (p : string) (n : node) (s s' : gmap string node)
    (e : option error) (q : string) :
  nkind n <> KFile ->
  create p n s = (s', e) ->
  nkind <$> s' !! q = Some KFile -> nkind <$> s !! q = Some KFile.
Proof.
  intros Hn Hc Hq. destruct (memfs_create _ _ _ _ _ Hc) as [->|(Hp & -> & _)]; [exact Hq|].
  destruct (decide (p = q)) as [->|Hne].
  - rewrite lookup_insert_eq in Hq. simpl in Hq. congruence.
  - rewrite lookup_insert_ne in Hq by exact Hne. exact Hq.
Qed.

Lemma memfs_create_ok (p : string) (n : node) (s s' : gmap string node) :
  create p n s = (s', None) -> nkind <$> s' !! p = Some (nkind n).
Proof.
  unfold create. destruct (s !! p) eqn:Hp; [discriminate|].
  destruct (isDirAt s (parent p)); [|discriminate].
  intros [= <-]. rewrite lookup_insert_eq. reflexivity.
Qed.

(** The file system in memory is one. *)
Lemma memfs_laws : OSLaws memfs.
Proof.
  constructor; unfold kind_at; simpl.
  - intros p perm s s' H. apply (memfs_create_ok _ _ _ _ H).
  - intros target p s s' H. apply (memfs_create_ok _ _ _ _ H).
  - intros p perm s s' e q k. apply memfs_create_keeps.
  - intros target p s s' e q k. apply memfs_create_keeps.
  - intros p data perm s s' e q k. unfold memWriteFile.
    destruct (s !! p) as [old|] eqn:Hp.
    + destruct (nkind old) eqn:Hk; intros [= <- <-]; auto.
      intros Hq. destruct (decide (p = q)) as [->|Hne].
      * rewrite lookup_insert_eq. rewrite Hp in Hq. simpl in *. congruence.
      * rewrite lookup_insert_ne by exact Hne. exact Hq.
    + destruct (isDirAt s (parent p)); intros [= <- <-]; auto.
      intros Hq. destruct (decide (p = q)) as [->|Hne].
      * rewrite Hp in Hq. discriminate.
      * rewrite lookup_insert_ne by exact Hne. exact Hq.
  - intros p data perm s s'. unfold memWriteFile.
    destruct (s !! p) as [old|] eqn:Hp.
    + destruct (nkind old) eqn:Hk; intros [= <-];
        left; rewrite lookup_insert_eq; reflexivity.
    + destruct (isDirAt s (parent p)); intros [= <-].
      left. rewrite lookup_insert_eq. reflexivity.
  - intros p perm s s' e q. apply memfs_create_no_file. discriminate.
  - intros target p s s' e q. apply memfs_create_no_file. discriminate.
Qed.

Section Remote.
Context (os : OS) (laws : OSLaws os).
Context (BytesFileInfo : FileInfo -> list byte).
Context (FileInfoFrom : list byte -> option FileInfo).
Context (ModeRemote : Z).

Local Abbreviation writeStubFile := (cached.writeStubFile os BytesFileInfo ModeRemote).
Local Abbreviation stubResults := (cached.stubResults os BytesFileInfo ModeRemote).
Local Abbreviation afterStubs := (cached.afterStubs os BytesFileInfo ModeRemote).
Local Abbreviation writeStubs := (cached.writeStubs os BytesFileInfo ModeRemote).
Local Abbreviation stubbed := (cached.stubbed os BytesFileInfo ModeRemote).

Lemma writeStubFile_keeps (p : string) (fi : FileInfo) (s s' : FS os)
    (e : option error) (q : string) (k : kind) :
  writeStubFile p fi s = (s', e) ->
  kind_at os s q = Some k -> kind_at os s' q = Some k.
Proof.
  unfold cached.writeStubFile. destruct (IsDir fi).
  - apply (Mkdir_keeps os laws).
  - apply (Symlink_keeps os laws).
Qed.

Lemma writeStubFile_no_file (p : string) (fi : FileInfo) (s s' : FS os)
    (e : option error) (q : string) :
  writeStubFile p fi s = (s', e) ->
  kind_at os s' q = Some KFile -> kind_at os s q = Some KFile.
Proof.
  unfold cached.writeStubFile. destruct (IsDir fi).
  - apply (Mkdir_no_file os laws).
  - apply (Symlink_no_file os laws).
Qed.

Lemma writeStubFile_ok (p : string) (fi : FileInfo) (s s' : FS os) :
  writeStubFile p fi s = (s', None) ->
  kind_at os s' p =
  Some (if IsDir fi then KDir else KLink (stubTarget BytesFileInfo ModeRemote fi)).
Proof.
  unfold cached.writeStubFile. destruct (IsDir fi).
  - apply (Mkdir_ok os laws).
  - apply (Symlink_ok os laws).
Qed.

Lemma afterStubs_keeps (base : string) (fis : list FileInfo) (q : string) (k : kind) :
  forall s : FS os,
    kind_at os s q = Some k -> kind_at os (afterStubs base fis s) q = Some k.
Proof.
  induction fis as [|fi fis IH]; intros s Hq; simpl; [exact Hq|].
  apply IH.
  destruct (writeStubFile (base ++ "/" ++ Name fi)%string fi s) as [s' e] eqn:Hw.
  simpl. eapply writeStubFile_keeps; eauto.
Qed.

Lemma afterStubs_no_file (base : string) (fis : list FileInfo) (q : string) :
  forall s : FS os,
    kind_at os (afterStubs base fis s) q = Some KFile -> kind_at os s q = Some KFile.
Proof.
  induction fis as [|fi fis IH]; intros s Hq; simpl in *; [exact Hq|].
  apply IH in Hq.
  destruct (writeStubFile (base ++ "/" ++ Name fi)%string fi s) as [s' e] eqn:Hw.
  simpl in Hq. eapply writeStubFile_no_file; eauto.
Qed.

Lemma failures_nonneg (results : list (option error)) : 0 <= failures results.
Proof. induction results as [|[e|] results IH]; simpl; lia. Qed.

Lemma writeStubs_count (base : string) (fis : list FileInfo) :
  forall (nError : Z) (s : FS os),
    writeStubs base fis nError s =
    (nError + failures (stubResults base fis s), afterStubs base fis s).
Proof.
  induction fis as [|fi fis IH]; intros nError s; simpl.
  - f_equal. lia.
  - destruct (cached.writeStubFile os BytesFileInfo ModeRemote
                (base ++ "/" ++ Name fi)%string fi s) as [s' [e|]];
      simpl; rewrite IH; f_equal; lia.
Qed.

Lemma no_failure_forallb (results : list (option error)) :
  (0 + failures results =? 0) = forallb isNil results.
Proof.
  induction results as [|[e|] results IH]; simpl.
  - reflexivity.
  - pose proof (failures_nonneg results). apply Z.eqb_neq. lia.
  - exact IH.
Qed.

Lemma all_nil_stubbed (base : string) (fis : list FileInfo) :
  forall s : FS os,
    forallb isNil (stubResults base fis s) = true ->
    Forall (stubbed base (afterStubs base fis s)) fis.
Proof.
  induction fis as [|fi fis IH]; intros s Hall; simpl in *; [constructor|].
  destruct (writeStubFile (base ++ "/" ++ Name fi)%string fi s) as [s' e] eqn:Hw.
  simpl in *. apply andb_true_iff in Hall as [He Hrest].
  destruct e; [discriminate|].
  constructor; [|apply IH; exact Hrest].
  unfold cached.stubbed. apply afterStubs_keeps.
  eapply writeStubFile_ok. exact Hw.
Qed.

Lemma SyncOpen_stubs_touch (local name : string) (fis : list FileInfo) (s : FS os) :
  SyncOpen_stubs os BytesFileInfo ModeRemote local name fis s =
  if forallb isNil (stubResults (Join os local name) fis s)
  then (touchDirCached os (Join os local name)
          (afterStubs (Join os local name) fis s)).1
  else afterStubs (Join os local name) fis s.
Proof.
  unfold SyncOpen_stubs. rewrite writeStubs_count, no_failure_forallb. reflexivity.
Qed.

End Remote.

(** C3: in the stub-writing pass for the entries [fis] of a directory,
    [touchDirCached] writes the sentinel exactly when every child stub
    write returned success, and the sentinel file is there once that write
    succeeds (the code drops what the write returns).  If a child write
    fails, there is no sentinel write: the pass ends in the state the child
    writes left, and a sentinel file that was absent stays absent.  So a
    sentinel file the pass created (absent before, present after) means
    that every child write succeeded and every entry of the listing has its
    stub link or its directory under the base. *)
Theorem SyncOpen_stubs_sentinel (os : OS) (BytesFileInfo : FileInfo -> list byte)
    (ModeRemote : Z) (local name : string) (fis : list FileInfo) (s : FS os) :
  OSLaws os ->
  let base := Join os local name in
  let results := stubResults os BytesFileInfo ModeRemote base fis s in
  let s1 := afterStubs os BytesFileInfo ModeRemote base fis s in
  let s' := SyncOpen_stubs os BytesFileInfo ModeRemote local name fis s in
  (s' = if forallb isNil results then (touchDirCached os base s1).1 else s1)
  /\ (forallb isNil results = true ->
      (touchDirCached os base s1).2 = None ->
      (forall target,
          kind_at os s1 (Join os base dirListCacheFile) <> Some (KLink target)) ->
      hasSentinel os base s')
  /\ (forallb isNil results = false ->
      s' = s1 /\ (~ hasSentinel os base s -> ~ hasSentinel os base s'))
  /\ (~ hasSentinel os base s -> hasSentinel os base s' ->
      forallb isNil results = true
      /\ Forall (stubbed os BytesFileInfo ModeRemote base s') fis).
Proof.
  intros laws base results s1 s'.
  assert (Htouch : s' = if forallb isNil results
                       then (touchDirCached os base s1).1 else s1)
    by apply SyncOpen_stubs_touch.
  assert (Hnone : ~ hasSentinel os base s -> ~ hasSentinel os base s1).
  { intros Hs H1. apply Hs. unfold hasSentinel in *.
    eapply afterStubs_no_file; eauto. }
  split; [exact Htouch|]. split; [|split].
  - intros Hall Hnil Hlink. rewrite Hall in Htouch. rewrite Htouch.
    unfold hasSentinel, touchDirCached in *.
    destruct (WriteFile os (Join os base dirListCacheFile) [] 438 s1)
      as [s2 e] eqn:Hw.
    simpl in *. subst e.
    destruct (WriteFile_ok os laws _ _ _ _ _ Hw) as [Hfile|[target Ht]];
      [exact Hfile|].
    destruct (Hlink target Ht).
  - intros Hfail. rewrite Hfail in Htouch. split; [exact Htouch|].
    rewrite Htouch. exact Hnone.
  - intros Hs Hs'. destruct (forallb isNil results) eqn:Hall.
    + split; [reflexivity|].
      pose proof (all_nil_stubbed os laws BytesFileInfo ModeRemote base fis s Hall)
        as Hstubs.
      rewrite Htouch. eapply Forall_impl; [exact Hstubs|].
      simpl. intros fi Hfi. unfold stubbed, touchDirCached in *.
      eapply (WriteFile_keeps os laws); [apply surjective_pairing|exact Hfi].
    + exfalso. rewrite Htouch in Hs'. exact (Hnone Hs Hs').
Qed.

Lemma SyncOpen_stubs_sentinel_witness :
  hasSentinel memfs (Join memfs "root" "d")
    (SyncOpen_stubs memfs toyBytes remoteBits "root" "d" twoEntries rootTree)
  /\ Forall (stubbed memfs toyBytes remoteBits (Join memfs "root" "d")
               (SyncOpen_stubs memfs toyBytes remoteBits "root" "d" twoEntries rootTree))
       twoEntries.
Proof.
  pose proof (SyncOpen_stubs_sentinel memfs toyBytes remoteBits "root" "d" twoEntries
                rootTree memfs_laws) as (_ & Hmade & _ & Hstubs).
  assert (Hthere : hasSentinel memfs (Join memfs "root" "d")
                     (SyncOpen_stubs memfs toyBytes remoteBits "root" "d" twoEntries
                        rootTree)).
  { apply Hmade.
    - vm_compute. reflexivity.
    - vm_compute. reflexivity.
    - intros target. vm_compute. discriminate. }
  split; [exact Hthere|].
  apply Hstubs; [|exact Hthere].
  vm_compute. discriminate.
Defined.

(** The pass on the two entries, run: both stubs are written and the
    sentinel file is there; it was not there before. *)
Example SyncOpen_stubs_run :
  kind_at memfs rootTree "root/d/.bktls.cache" = None
  /\ (let s' := SyncOpen_stubs memfs toyBytes remoteBits "root" "d" twoEntries rootTree in
      kind_at memfs s' "root/d/.bktls.cache" = Some KFile
      /\ kind_at memfs s' "root/d/sub" = Some KDir
      /\ kind_at memfs s' "root/d/a" =
         Some (KLink "AAAAAAAAAABkYQ==")).
Proof. vm_compute. repeat split. Qed.

Lemma Readlink_link (os : OS) (p target : string) (s : FS os) :
  kind_at os s p = Some (KLink target) -> Readlink os p s = (target, None).
Proof.
  unfold kind_at, Readlink. destruct (node_at os s p) as [n|]; [|discriminate].
  simpl. intros [= ->]. reflexivity.
Qed.

Lemma Readlink_other (os : OS) (p : string) (s : FS os) :
  (forall target, kind_at os s p <> Some (KLink target)) ->
  exists e, Readlink os p s = (EmptyString, Some e).
Proof.
  unfold kind_at, Readlink. destruct (node_at os s p) as [n|]; [|eauto].
  simpl. destruct (nkind n) as [| |target]; eauto.
  intros H. destruct (H target). reflexivity.
Qed.

(** With its sentinel file a directory reads as cached. *)
Lemma hasSentinel_checkDirCached (os : OS) (dir : string) (s : FS os) :
  hasSentinel os dir s -> checkDirCached os dir s <> None.
Proof.
  unfold hasSentinel, checkDirCached, kind_at, localfs.Lstat.
  destruct (node_at os s (Join os dir dirListCacheFile)); [|discriminate].
  intros _. discriminate.
Qed.

(** C5: a stub written for a record that is no directory reads back, at
    the same path, as a record with the name, the size and the is-directory
    flag of the original (the codec of file infos giving them back for the
    record as [writeStubFile] hands it over); for a directory record
    [writeStubFile] makes a local directory, and what [os.Lstat] and the
    [Lstat] of the cached layer read back at the path is a directory. *)
Theorem readStubFile_writeStubFile (os : OS)
    (BytesFileInfo : FileInfo -> list byte)
    (FileInfoFrom : list byte -> option FileInfo) (ModeRemote : Z)
    (localFile : string) (fi fallback : FileInfo) (s s' : FS os) :
  OSLaws os ->
  writeStubFile os BytesFileInfo ModeRemote localFile fi s = (s', None) ->
  (IsDir fi = false ->
   codecRoundTrips BytesFileInfo FileInfoFrom (fileInfoRemote ModeRemote fi) ->
   let ret := readStubFile os FileInfoFrom localFile fallback s' in
   Name ret = Name fi /\ Size ret = Size fi /\ IsDir ret = IsDir fi)
  /\ (IsDir fi = true ->
      (exists info, localfs.Lstat os localFile s' = (Some info, None)
                    /\ IsDir info = true)
      /\ (exists info, cached.Lstat os FileInfoFrom ModeRemote localFile s'
                       = (Some info, None)
                       /\ IsDir info = true)).
Proof.
  intros laws Hw.
  pose proof (writeStubFile_ok os laws BytesFileInfo ModeRemote _ _ _ _ Hw) as Hk.
  split.
  - intros Hdir (ret & Hret & Hname & Hsize & Hisdir). rewrite Hdir in Hk.
    unfold readStubFile. rewrite (Readlink_link os _ _ _ Hk).
    unfold stubTarget. rewrite base64_facts.DecodeString_EncodeToString, Hret.
    simpl. auto.
  - intros Hdir. rewrite Hdir in Hk.
    unfold kind_at in Hk.
    destruct (node_at os s' localFile) as [n|] eqn:Hn; [|discriminate].
    simpl in Hk. injection Hk as Hk.
    assert (Hl : localfs.Lstat os localFile s' = (Some (infoOf localFile n), None)).
    { unfold localfs.Lstat. rewrite Hn. reflexivity. }
    assert (Hd : IsDir (infoOf localFile n) = true).
    { unfold infoOf. simpl. rewrite Hk. reflexivity. }
    split; [eauto|].
    unfold cached.Lstat. rewrite Hl, Hd.
    destruct (checkDirCached os localFile s'); eauto.
Qed.

Lemma toy_roundtrip :
  codecRoundTrips toyBytes toyFrom (fileInfoRemote remoteBits (xfs.NewFileInfo "a" 100)).
Proof. eexists. repeat split. Qed.

Lemma readStubFile_writeStubFile_witness :
  (IsDir (xfs.NewFileInfo "a" 100) = false ->
   codecRoundTrips toyBytes toyFrom (fileInfoRemote remoteBits (xfs.NewFileInfo "a" 100)) ->
   let ret := readStubFile memfs toyFrom "root/d/a" (xfs.NewFileInfo "none" 0)
                (writeStubFile memfs toyBytes remoteBits "root/d/a"
                   (xfs.NewFileInfo "a" 100) rootTree).1 in
   Name ret = "a"%string /\ Size ret = 100 /\ IsDir ret = false)
  /\ (IsDir (xfs.NewFileInfo "a" 100) = true ->
      (exists info,
          localfs.Lstat memfs "root/d/a"
            (writeStubFile memfs toyBytes remoteBits "root/d/a"
               (xfs.NewFileInfo "a" 100) rootTree).1 = (Some info, None)
          /\ IsDir info = true)
      /\ (exists info,
             cached.Lstat memfs toyFrom remoteBits "root/d/a"
               (writeStubFile memfs toyBytes remoteBits "root/d/a"
                  (xfs.NewFileInfo "a" 100) rootTree).1 = (Some info, None)
             /\ IsDir info = true)).
Proof.
  apply (readStubFile_writeStubFile memfs toyBytes toyFrom remoteBits "root/d/a"
           (xfs.NewFileInfo "a" 100) (xfs.NewFileInfo "none" 0) rootTree _ memfs_laws).
  vm_compute. reflexivity.
Defined.

(** C6: [readStubFile] returns the decoded record when the path is a
    symbolic link whose target is base64 of bytes the codec reads; it
    returns the fallback info as it is, and no error, when the path is no
    symbolic link (or does not exist), when the target is no valid
    URL-safe base64, and when the decoded bytes are no file-info record. *)
Theorem readStubFile_fallback (os : OS) (FileInfoFrom : list byte -> option FileInfo)
    (localFile : string) (fi : FileInfo) (s : FS os) :
  (forall dest b ret,
      kind_at os s localFile = Some (KLink dest) ->
      base64.DecodeString dest = Some b ->
      FileInfoFrom b = Some ret ->
      readStubFile os FileInfoFrom localFile fi s = ret)
  /\ ((forall dest, kind_at os s localFile <> Some (KLink dest)) ->
      readStubFile os FileInfoFrom localFile fi s = fi)
  /\ (forall dest,
        kind_at os s localFile = Some (KLink dest) ->
        base64.DecodeString dest = None ->
        readStubFile os FileInfoFrom localFile fi s = fi)
  /\ (forall dest b,
        kind_at os s localFile = Some (KLink dest) ->
        base64.DecodeString dest = Some b ->
        FileInfoFrom b = None ->
        readStubFile os FileInfoFrom localFile fi s = fi).
Proof.
  unfold readStubFile. repeat split.
  - intros dest b ret Hk Hd Hf.
    rewrite (Readlink_link os _ _ _ Hk), Hd, Hf. reflexivity.
  - intros Hk. destruct (Readlink_other os _ _ Hk) as [e ->]. reflexivity.
  - intros dest Hk Hd. rewrite (Readlink_link os _ _ _ Hk), Hd. reflexivity.
  - intros dest b Hk Hd Hf.
    rewrite (Readlink_link os _ _ _ Hk), Hd, Hf. reflexivity.
Qed.

Lemma readStubFile_fallback_witness :
  readStubFile memfs toyFrom "root/d" (xfs.NewFileInfo "none" 0) rootTree =
  xfs.NewFileInfo "none" 0.
Proof.
  apply (proj1 (proj2 (readStubFile_fallback memfs toyFrom "root/d"
                         (xfs.NewFileInfo "none" 0) rootTree))).
  intros dest. vm_compute. discriminate.
Defined.

End stub_spec.

Module parse_spec.
Import kodoutil.

Lemma cut_append (sep : string) :
  forall s before after : string,
    GoStrings.cut sep s = Some (before, after) ->
    s = (before ++ sep ++ after)%string.
Proof.
  induction s as [|c s IH]; intros before after; cbn [GoStrings.cut].
  - destruct (String.prefix sep EmptyString) eqn:Hp; [|discriminate].
    intros [= <- <-].
    apply readdir_spec.prefix_drop in Hp as [Heq _]. exact Heq.
  - destruct (String.prefix sep (String c s)) eqn:Hp.
    + intros [= <- <-].
      apply readdir_spec.prefix_drop in Hp as [Heq _]. exact Heq.
    + destruct (GoStrings.cut sep s) as [[b a]|] eqn:Hcut; [|discriminate].
      intros [= <- <-].
      change (String c s = String c (b ++ sep ++ a)%string).
      f_equal. apply IH. reflexivity.
Qed.

Lemma cut_None (sep : string) :
  forall s : string,
    GoStrings.cut sep s = None <-> GoStrings.Contains s sep = false.
Proof.
  induction s as [|c s IH]; cbn [GoStrings.cut GoStrings.Contains].
  - destruct (String.prefix sep EmptyString); simpl; split; congruence.
  - destruct (String.prefix sep (String c s)); simpl; [split; congruence|].
    rewrite <- IH. destruct (GoStrings.cut sep s) as [[b a]|]; split; congruence.
Qed.

(** C7 (as the code has it): for every mount URL, with [u] the URL
    without the scheme prefix: if [u] has no [?], [Parse] fails with the
    permission error; if the token after the first [?] does not decode,
    [Parse] fails with the error of the decoder, as it is; if the decoded
    token has no (or an empty) access key or secret key, [Parse] fails with
    the permission error; otherwise it succeeds and returns the bucket
    name, the text before the first [?], with both keys. *)
Theorem Parse_results (decode : Decoder) (url : string) :
  let u := GoStrings.TrimPrefix url (Scheme ++ ":") in
  (GoStrings.Contains u "?" = false ->
   Parse decode url = (EmptyString, EmptyString, EmptyString, Some ErrPermission))
  /\ (forall bucket token,
        GoStrings.cut "?" u = Some (bucket, token) ->
        u = (bucket ++ "?" ++ token)%string
        /\ match decode token with
           | inr e =>
               Parse decode url = (EmptyString, EmptyString, EmptyString, Some e)
           | inl params =>
               let ak := Values_Get params "ak" in
               let sk := Values_Get params "sk" in
               (ak = EmptyString \/ sk = EmptyString ->
                Parse decode url = (EmptyString, ak, sk, Some ErrPermission))
               /\ (ak <> EmptyString -> sk <> EmptyString ->
                   Parse decode url = (bucket, ak, sk, None))
           end)
  /\ (forall bucket ak sk,
        Parse decode url = (bucket, ak, sk, None) ->
        ak <> EmptyString /\ sk <> EmptyString
        /\ exists token params,
             u = (bucket ++ "?" ++ token)%string
             /\ decode token = inl params
             /\ ak = Values_Get params "ak" /\ sk = Values_Get params "sk").
Proof.
  intros u. unfold Parse, GoStrings.SplitN2. fold u. split; [|split].
  - intros Hno. apply cut_None in Hno. rewrite Hno. reflexivity.
  - intros bucket token Hcut. rewrite Hcut.
    split; [apply cut_append; exact Hcut|].
    destruct (decode token) as [params|e]; [|reflexivity].
    simpl. split.
    + intros [-> | ->]; simpl; [reflexivity|].
      rewrite orb_true_r. reflexivity.
    + intros Hak Hsk.
      apply String.eqb_neq in Hak. apply String.eqb_neq in Hsk.
      rewrite Hak, Hsk. reflexivity.
  - intros bucket ak sk.
    destruct (GoStrings.cut "?" u) as [[name token]|] eqn:Hcut; [|discriminate].
    destruct (decode token) as [params|e] eqn:Hdec; [|discriminate].
    destruct (String.eqb (Values_Get params "ak") EmptyString) eqn:Hak;
      [discriminate|].
    destruct (String.eqb (Values_Get params "sk") EmptyString) eqn:Hsk;
      [discriminate|].
    simpl. intros [= <- <- <-].
    apply String.eqb_neq in Hak. apply String.eqb_neq in Hsk.
    repeat split; auto.
    exists token, params. repeat split; auto.
    apply cut_append. exact Hcut.
Qed.

Lemma Parse_results_witness :
  Parse fixedKeys "kodo:bkt?token" = ("bkt", "AK", "SK", None)%string.
Proof.
  pose proof (Parse_results fixedKeys "kodo:bkt?token") as (_ & Hcut & _).
  destruct (Hcut "bkt"%string "token"%string) as [_ Hdec]; [reflexivity|].
  simpl in Hdec. apply Hdec; discriminate.
Defined.

(** C7 (as stated) fails: on a token the decoder rejects with an error of
    its own, [Parse] returns that error, which is no permission error. *)
Lemma Parse_undecodable_token :
  Parse corruptInput "kodo:bkt?token" =
    (EmptyString, EmptyString, EmptyString,
     Some (ErrOther "illegal base64 data at input byte 0"))
  /\ Some (ErrOther "illegal base64 data at input byte 0") <> Some ErrPermission.
Proof. split; [reflexivity|discriminate]. Qed.

End parse_spec.

(** * Further properties of the code *)

Module strings_facts.

Lemma append_cons (c : ascii) (a b : string) :
  (String c a ++ b)%string = String c (a ++ b)%string.
Proof. reflexivity. Qed.

Lemma prefix_append (p : string) : forall s : string, String.prefix p (p ++ s) = true.
Proof.
  induction p as [|c p IH]; intros s.
  - destruct s; reflexivity.
  - rewrite append_cons. simpl. destruct (ascii_dec c c); [apply IH|congruence].
Qed.

Lemma drop_append (p : string) :
  forall s : string, GoStrings.drop (String.length p) (p ++ s) = s.
Proof.
  induction p as [|c p IH]; intros s; [reflexivity|].
  rewrite append_cons. simpl. apply IH.
Qed.

Lemma TrimPrefix_append (p s : string) : GoStrings.TrimPrefix (p ++ s) p = s.
Proof.
  unfold GoStrings.TrimPrefix, GoStrings.HasPrefix.
  rewrite prefix_append. apply drop_append.
Qed.

(** A string without the character [c] is cut at the first [c] after it. *)
Lemma cut_char (c : ascii) (a b : string) :
  GoStrings.Contains a (String c EmptyString) = false ->
  GoStrings.cut (String c EmptyString) (a ++ String c b) = Some (a, b).
Proof.
  induction a as [|x a IH]; intros Hno.
  - change (EmptyString ++ String c b)%string with (String c b).
    cbn [GoStrings.cut]. simpl.
    destruct (ascii_dec c c); [|congruence].
    destruct b; reflexivity.
  - rewrite append_cons. cbn [GoStrings.Contains] in Hno.
    apply orb_false_iff in Hno as [Hhead Hrest].
    cbn [GoStrings.cut].
    assert (Hp : String.prefix (String c EmptyString) (String x (a ++ String c b)) = false).
    { simpl in *. destruct (ascii_dec c x); [|reflexivity].
      destruct a; discriminate. }
    rewrite Hp, (IH Hrest). reflexivity.
Qed.

End strings_facts.

Module mount_spec.
Import kodoutil kodofs mount registry.

Lemma foldl_store_absent (ps : list (string * string)) :
  forall (hosts : gmap string string) (b : string),
    b ∉ map fst ps -> foldl store hosts ps !! b = hosts !! b.
Proof.
  induction ps as [|[b' h'] ps IH]; intros hosts b Hb; simpl; [reflexivity|].
  rewrite IH by (intros Hin; apply Hb; simpl; right; exact Hin).
  unfold store. simpl. apply lookup_insert_ne.
  intros ->. apply Hb. simpl. left.
Qed.

(** X1: after [Register], whether it returned or panicked on a last odd
    argument, a bucket maps to the host of the last complete pair that names
    it, and a bucket that no complete pair names maps to what it mapped to
    before. *)
Theorem Register_lookup (bucketHostPairs : list string)
    (hosts hosts' : gmap string string) (r : option panic) :
  Register bucketHostPairs hosts = Some (hosts', r) ->
  (forall before after b h,
      pairsOf bucketHostPairs = before ++ (b, h) :: after ->
      b ∉ map fst after ->
      hosts' !! b = Some h)
  /\ (forall b, b ∉ map fst (pairsOf bucketHostPairs) -> hosts' !! b = hosts !! b).
Proof.
  intros Hreg.
  assert (Hfold : hosts' = foldl store hosts (pairsOf bucketHostPairs)).
  { unfold Register in Hreg.
    rewrite registry_spec.Register_loop_pairs in Hreg by lia.
    rewrite drop_0 in Hreg. congruence. }
  subst hosts'. split.
  - intros before after b h Hsplit Hafter.
    rewrite Hsplit, foldl_app. simpl.
    rewrite foldl_store_absent by exact Hafter.
    unfold store. simpl. apply lookup_insert_eq.
  - intros b Hb. apply foldl_store_absent. exact Hb.
Qed.

Lemma Register_lookup_witness :
  exists hosts' r,
    Register ["a"; "h1"; "b"; "h2"; "a"; "h3"]%string ∅ = Some (hosts', r)
    /\ hosts' !! "a"%string = Some "h3"%string.
Proof.
  destruct (Register ["a"; "h1"; "b"; "h2"; "a"; "h3"]%string ∅)
    as [[hosts' r]|] eqn:Hreg.
  - exists hosts', r. split; [reflexivity|].
    apply (proj1 (Register_lookup _ _ _ _ Hreg)
             [("a", "h1"); ("b", "h2")]%string [] "a"%string "h3"%string).
    + reflexivity.
    + simpl. apply not_elem_of_nil.
  - vm_compute in Hreg. discriminate Hreg.
Defined.

Lemma Parse_printed_url (decode : Decoder) (bucket query : string)
    (params : gmap string (list string)) :
  GoStrings.Contains bucket "?" = false ->
  decode query = inl params ->
  Values_Get params "ak" <> EmptyString ->
  Values_Get params "sk" <> EmptyString ->
  Parse decode (kodourl bucket query) =
  (bucket, Values_Get params "ak", Values_Get params "sk", None).
Proof.
  intros Hno Hdec Hak Hsk. unfold Parse, kodourl, Scheme.
  change ("kodo" ++ ":")%string with "kodo:"%string.
  rewrite strings_facts.TrimPrefix_append. unfold GoStrings.SplitN2.
  change ("?" ++ query)%string with (String "?" query).
  rewrite (strings_facts.cut_char "?" bucket query Hno), Hdec.
  apply String.eqb_neq in Hak. apply String.eqb_neq in Hsk.
  cbv zeta. rewrite Hak, Hsk. reflexivity.
Qed.

(** X2: the URL the helper prints round-trips through [Parse]: for a bucket
    name without [?] and a token that decodes to a non-empty access key and
    secret key, [Parse] gives back the bucket name and both keys. *)
Theorem Parse_kodourl (decode : Decoder) (bucket query : string)
    (params : gmap string (list string)) :
  GoStrings.Contains bucket "?" = false ->
  decode query = inl params ->
  Values_Get params "ak" <> EmptyString ->
  Values_Get params "sk" <> EmptyString ->
  Parse decode (kodourl bucket query) =
  (bucket, Values_Get params "ak", Values_Get params "sk", None).
Proof. apply Parse_printed_url. Qed.

Lemma Parse_kodourl_witness :
  Parse fixedKeys (kodourl "bkt" "token") =
  ("bkt"%string,
   Values_Get {[ "ak"%string := ["AK"%string]; "sk"%string := ["SK"%string] ]} "ak",
   Values_Get {[ "ak"%string := ["AK"%string]; "sk"%string := ["SK"%string] ]} "sk",
   None).
Proof.
  apply (Parse_kodourl fixedKeys "bkt" "token"
           {[ "ak"%string := ["AK"%string]; "sk"%string := ["SK"%string] ]}).
  - reflexivity.
  - reflexivity.
  - vm_compute. discriminate.
  - vm_compute. discriminate.
Defined.

Section Mount.
Context {F : Type}.
Context (manager : string -> string -> kodo.Lister).
Context (simplePrepareOpen : string -> @Opener F).

(** X3: [Open] by URL succeeds only for a URL that [Parse] accepts and a
    bucket that is in the registry; the file system it returns is the bucket
    of that name, with the keys of the token, at the registered host less
    one trailing slash. *)
Theorem Open_registered (decode : Decoder) (hosts : gmap string string)
    (url : string) (b : @Bucket F) :
  mount.Open manager simplePrepareOpen decode hosts url = (Some b, None) ->
  exists ak sk host,
    Parse decode url = (bktName b, ak, sk, None)
    /\ hosts !! bktName b = Some host
    /\ kodofs.host b = GoStrings.TrimSuffix host "/"
    /\ bkt b = manager ak sk.
Proof.
  unfold mount.Open.
  destruct (Parse decode url) as [[[bucket ak] sk] [e|]]; [discriminate|].
  destruct (hosts !! bucket) as [host|] eqn:Hhost; [|discriminate].
  intros [= <-]. exists ak, sk, host. simpl. auto.
Qed.

(** X4: a bucket that was never registered cannot be mounted: [Open] fails
    with the error that names the bucket, however good the token is. *)
Theorem Open_unregistered (decode : Decoder) (hosts : gmap string string)
    (url bucket ak sk : string) :
  Parse decode url = (bucket, ak, sk, None) ->
  hosts !! bucket = None ->
  mount.Open manager simplePrepareOpen decode hosts url =
  (None, Some (hostNotFound bucket)).
Proof.
  intros Hparse Hhost. unfold mount.Open. rewrite Hparse, Hhost. reflexivity.
Qed.

(** X5: registering a bucket and then mounting its URL works: after
    [Register(bucket, host)] on any registry, [Open] of the URL the helper
    prints for the bucket returns the bucket at that host. *)
Theorem Open_after_Register (decode : Decoder) (hosts : gmap string string)
    (bucket host query : string) (params : gmap string (list string)) :
  GoStrings.Contains bucket "?" = false ->
  decode query = inl params ->
  Values_Get params "ak" <> EmptyString ->
  Values_Get params "sk" <> EmptyString ->
  exists hosts',
    Register [bucket; host] hosts = Some (hosts', None)
    /\ mount.Open manager simplePrepareOpen decode hosts' (kodourl bucket query) =
       (Some (New manager simplePrepareOpen (Values_Get params "ak")
                (Values_Get params "sk") bucket host None), None).
Proof.
  intros Hno Hdec Hak Hsk.
  exists (<[bucket := host]> hosts). split; [reflexivity|].
  unfold mount.Open.
  rewrite (Parse_printed_url decode bucket query params Hno Hdec Hak Hsk).
  rewrite lookup_insert_eq. reflexivity.
Qed.

End Mount.

Lemma Open_registered_witness :
  exists ak sk host,
    Parse fixedKeys (kodourl "bkt" "token") = ("bkt"%string, ak, sk, None)
    /\ ({[ "bkt"%string := "http://h/"%string ]} : gmap string string) !! "bkt"%string
       = Some host
    /\ GoStrings.TrimSuffix "http://h/" "/" = GoStrings.TrimSuffix host "/"
    /\ walkspec.oneDir = walkspec.oneDir.
Proof.
  exact (Open_registered (fun _ _ => walkspec.oneDir) noObject fixedKeys
           {[ "bkt"%string := "http://h/"%string ]} (kodourl "bkt" "token")
           (New (fun _ _ => walkspec.oneDir) noObject "AK" "SK" "bkt" "http://h/" None)
           eq_refl).
Defined.

Lemma Open_unregistered_witness :
  mount.Open (fun _ _ => walkspec.oneDir) noObject fixedKeys ∅ (kodourl "bkt" "token") =
  (None, Some (hostNotFound "bkt")).
Proof.
  apply (Open_unregistered (fun _ _ => walkspec.oneDir) noObject fixedKeys ∅
           (kodourl "bkt" "token") "bkt" "AK" "SK").
  - reflexivity.
  - reflexivity.
Defined.

Lemma Open_after_Register_witness :
  exists hosts',
    Register ["bkt"; "http://h/"]%string ∅ = Some (hosts', None)
    /\ mount.Open (fun _ _ => walkspec.oneDir) noObject fixedKeys hosts'
         (kodourl "bkt" "token") =
       (Some (New (fun _ _ => walkspec.oneDir) noObject
                (Values_Get {[ "ak"%string := ["AK"%string];
                               "sk"%string := ["SK"%string] ]} "ak")
                (Values_Get {[ "ak"%string := ["AK"%string];
                               "sk"%string := ["SK"%string] ]} "sk")
                "bkt" "http://h/" None), None).
Proof.
  apply (Open_after_Register (fun _ _ => walkspec.oneDir) noObject fixedKeys ∅
           "bkt" "http://h/" "token"
           {[ "ak"%string := ["AK"%string]; "sk"%string := ["SK"%string] ]}).
  - reflexivity.
  - reflexivity.
  - vm_compute. discriminate.
  - vm_compute. discriminate.
Defined.

End mount_spec.

Module bucket_spec.
Import fs kodo kodofs walkspec.

Lemma length_append (a : string) :
  forall b : string,
    String.length (a ++ b) = (String.length a + String.length b)%nat.
Proof.
  induction a as [|c a IH]; intros b; [reflexivity|].
  rewrite strings_facts.append_cons. simpl. rewrite IH. reflexivity.
Qed.

Lemma take_append (a : string) :
  forall b : string, GoStrings.take (String.length a) (a ++ b) = a.
Proof.
  induction a as [|c a IH]; intros b.
  - destruct b; reflexivity.
  - rewrite strings_facts.append_cons. simpl. rewrite IH. reflexivity.
Qed.

Lemma HasSuffix_append (a suffix : string) :
  GoStrings.HasSuffix (a ++ suffix) suffix = true.
Proof.
  unfold GoStrings.HasSuffix, GoStrings.len. rewrite length_append.
  apply andb_true_iff. split; [apply Z.leb_le; lia|].
  replace (Z.to_nat (Z.of_nat (String.length a + String.length suffix)
                     - Z.of_nat (String.length suffix)))
    with (String.length a) by lia.
  rewrite strings_facts.drop_append. apply String.eqb_refl.
Qed.

Lemma TrimSuffix_append (a suffix : string) :
  GoStrings.TrimSuffix (a ++ suffix) suffix = a.
Proof.
  unfold GoStrings.TrimSuffix. rewrite HasSuffix_append.
  unfold GoStrings.len. rewrite length_append.
  replace (Z.to_nat (Z.of_nat (String.length a + String.length suffix)
                     - Z.of_nat (String.length suffix)))
    with (String.length a) by lia.
  apply take_append.
Qed.

(** X9: the prefix [WalkContext] and [ReaddirContext] list for a directory
    name is empty, the whole bucket, for the name [/] only; for every other
    name, the empty name too, it ends in [/]. *)
Theorem normDir_shape (dir : string) :
  (normDir dir = EmptyString <-> dir = "/"%string)
  /\ (dir <> "/"%string -> GoStrings.HasSuffix (normDir dir) "/" = true).
Proof.
  unfold normDir. destruct (String.eqb dir "/") eqn:Hroot.
  - apply String.eqb_eq in Hroot. split; [tauto|congruence].
  - apply String.eqb_neq in Hroot.
    assert (Hend : GoStrings.HasSuffix
                     (if negb (GoStrings.HasSuffix (GoStrings.TrimPrefix dir "/") "/")
                      then (GoStrings.TrimPrefix dir "/" ++ "/")%string
                      else GoStrings.TrimPrefix dir "/") "/" = true).
    { destruct (GoStrings.HasSuffix (GoStrings.TrimPrefix dir "/") "/") eqn:Hs;
        simpl; [exact Hs|apply HasSuffix_append]. }
    split; [|intros _; exact Hend].
    split; [|congruence].
    intros Hempty. rewrite Hempty in Hend. discriminate.
Qed.

Lemma normDir_shape_witness :
  GoStrings.HasSuffix (normDir EmptyString) "/" = true.
Proof.
  apply (proj2 (normDir_shape EmptyString)). discriminate.
Defined.

(** X10: one trailing slash of the host makes no difference to the bucket:
    [NewBucket] takes one trailing slash off the host, and leaves a host
    without one as it is. *)
Theorem NewBucket_host {F : Type} (m : Lister) (bucket host : string)
    (prepare : string -> @Opener F) :
  kodofs.host (NewBucket m bucket (host ++ "/") prepare) = host
  /\ (GoStrings.HasSuffix host "/" = false ->
      NewBucket m bucket (host ++ "/") prepare = NewBucket m bucket host prepare).
Proof.
  unfold NewBucket. simpl. rewrite TrimSuffix_append. split; [reflexivity|].
  intros Hno. unfold GoStrings.TrimSuffix. rewrite Hno. reflexivity.
Qed.

Lemma NewBucket_host_witness :
  NewBucket oneDir "bkt" ("http://h" ++ "/") (@noObject)
  = NewBucket oneDir "bkt" "http://h" noObject.
Proof.
  apply (proj2 (NewBucket_host oneDir "bkt" "http://h" noObject)). reflexivity.
Defined.

Lemma entriesOf_length (dir : string) (pages : list ListFilesRet) :
  length (entriesOf dir pages) =
  (length (allItems pages) + length (allPrefixes pages))%nat.
Proof.
  unfold entriesOf, allItems, allPrefixes, pageEntries.
  induction pages as [|ret pages IH]; simpl; [reflexivity|].
  rewrite !length_app, !length_map, IH. lia.
Qed.

(** X11: a name is a directory exactly when something is listed under its
    prefix.  When [Open] reads the name as a directory and the listing of
    its prefix succeeds (keys with the prefix, common prefixes longer than
    it): if no page has an item or a common prefix, [Open] returns the
    does-not-exist error; otherwise it returns the directory with one entry
    per item and per common prefix, in listing order. *)
Theorem Open_lists_directory {F : Type} (fuel : nat) (b : @Bucket F) (name : string)
    (pages : list ListFilesRet) :
  fallsThrough b name = true ->
  listing (bkt b) (bktName b) (readdirInput (normDir name)) EmptyString pages None ->
  Forall (fun item => GoStrings.HasPrefix (Key item) (normDir name) = true)
    (allItems pages) ->
  Forall (fun key => (String.length (normDir name) < String.length key)%nat)
    (allPrefixes pages) ->
  (length pages < fuel)%nat ->
  (allItems pages = [] /\ allPrefixes pages = [] ->
   Open fuel b name = Some (Returned (None, Some ErrNotExist)))
  /\ (allItems pages <> [] \/ allPrefixes pages <> [] ->
      Open fuel b name =
      Some (Returned (Some (xfs.Dir (xfs.NewDirInfo (path.Base name))
                              (entriesOf (normDir name) pages)), None))).
Proof.
  intros Hfall Hlist Hitems Hprefixes Hfuel.
  assert (Hread : ReaddirContext fuel (bkt b) (bktName b) name =
                  Some (Returned (entriesOf (normDir name) pages, None))).
  { unfold ReaddirContext.
    rewrite (readdir_spec.ReaddirContext_loop_listing _ _ _ _ _ _ Hlist Hitems
               Hprefixes fuel [] Hfuel). reflexivity. }
  assert (Hdir : Open fuel b name = openDir fuel b name None).
  { unfold Open, fallsThrough in *.
    destruct (fetch b name) as [[f err]|]; [|reflexivity].
    destruct (returnsFetch name err); [discriminate|].
    unfold openDir. rewrite Hread. reflexivity. }
  rewrite Hdir. unfold openDir. rewrite Hread.
  pose proof (entriesOf_length (normDir name) pages) as Hlen.
  split.
  - intros [Hi Hp]. rewrite Hi, Hp in Hlen. simpl in Hlen.
    rewrite Hlen. reflexivity.
  - intros Hsome.
    destruct (Z.of_nat (length (entriesOf (normDir name) pages)) =? 0) eqn:Hz;
      [|reflexivity].
    apply Z.eqb_eq in Hz. exfalso.
    destruct Hsome as [Hne|Hne];
      [destruct (allItems pages)|destruct (allPrefixes pages)];
      try congruence; simpl in Hlen; lia.
Qed.

Lemma Open_lists_directory_witness :
  Open 2 emptyBucket "/d" =
  Some (Returned (Some (xfs.Dir (xfs.NewDirInfo (path.Base "/d"))
                          (entriesOf (normDir "/d") [onePage])), None)).
Proof.
  apply (proj2 (Open_lists_directory 2 emptyBucket "/d" [onePage]
                  eq_refl (listing_last _ _ _ _ _ eq_refl)
                  ltac:(repeat constructor) ltac:(repeat constructor)
                  ltac:(simpl; lia))).
  left. discriminate.
Defined.

End bucket_spec.

Module iterate_spec.
Import fs kodo walkspec iterate.

Lemma take_slice (key : string) :
  (0 < String.length key)%nat ->
  GoStrings.slice key 0 (GoStrings.len key - 1) =
  Some (GoStrings.take (String.length key - 1) key).
Proof.
  intros Hlen. unfold GoStrings.slice, GoStrings.len.
  replace (0 <=? 0) with true by reflexivity.
  replace (0 <=? Z.of_nat (String.length key) - 1) with true
    by (symmetry; apply Z.leb_le; lia).
  replace (Z.of_nat (String.length key) - 1 <=? Z.of_nat (String.length key))
    with true by (symmetry; apply Z.leb_le; lia).
  simpl. f_equal. f_equal. lia.
Qed.

Lemma HasSuffix_nonempty (key : string) :
  GoStrings.HasSuffix key "/" = true -> (0 < String.length key)%nat.
Proof.
  unfold GoStrings.HasSuffix, GoStrings.len. intros H.
  apply andb_true_iff in H as [H _]. apply Z.leb_le in H. simpl in H. lia.
Qed.

Lemma length_take (n : nat) :
  forall s : string,
    (n <= String.length s)%nat -> String.length (GoStrings.take n s) = n.
Proof.
  induction n as [|n IH]; intros [|a s] Hn; simpl in *; try lia; auto.
  f_equal. apply IH. lia.
Qed.

(** A key that ends in [/] is the key without its last character, and
    [/]. *)
Lemma HasSuffix_slash (key : string) :
  GoStrings.HasSuffix key "/" = true ->
  key = (GoStrings.take (String.length key - 1) key ++ "/")%string.
Proof.
  intros Hdir. pose proof (HasSuffix_nonempty _ Hdir) as Hlen.
  destruct (readdir_spec.take_init_last key Hlen) as [c Hc].
  pose proof (strings_facts.drop_append
                (GoStrings.take (String.length key - 1) key) (String c EmptyString))
    as Hdrop.
  rewrite <- Hc in Hdrop. rewrite length_take in Hdrop by lia.
  unfold GoStrings.HasSuffix, GoStrings.len in Hdir.
  apply andb_true_iff in Hdir as [_ Hsuf]. apply String.eqb_eq in Hsuf.
  change (Z.of_nat (String.length "/")) with 1 in Hsuf.
  replace (Z.to_nat (Z.of_nat (String.length key) - 1))
    with (String.length key - 1)%nat in Hsuf by lia.
  rewrite Hdrop in Hsuf. injection Hsuf as ->. exact Hc.
Qed.

Lemma toListObject_objectOf (obj : ListItem) :
  toListObject obj = Returned (objectOf obj).
Proof.
  unfold toListObject, objectOf.
  destruct (GoStrings.HasSuffix (Key obj) "/") eqn:Hdir; [|reflexivity].
  destruct (String.eqb (Key obj) "/"); [reflexivity|]. simpl.
  rewrite (take_slice _ (HasSuffix_nonempty _ Hdir)). reflexivity.
Qed.

(** X6: [Next] never panics on the slice it takes of a key, whatever the
    key: the object's directory flag says whether the key ends in [/], a
    directory key other than [/] is returned without that one slash (the
    key is the returned key and [/]), and every other key is returned as it
    is. *)
Theorem toListObject_key (obj : ListItem) :
  exists o,
    toListObject obj = Returned o
    /\ objIsDir o = GoStrings.HasSuffix (Key obj) "/"
    /\ objSize o = Fsize obj
    /\ (if objIsDir o && negb (String.eqb (Key obj) "/")
        then Key obj = (objKey o ++ "/")%string
        else objKey o = Key obj).
Proof.
  exists (objectOf obj). split; [apply toListObject_objectOf|].
  unfold objectOf. simpl. repeat split.
  destruct (GoStrings.HasSuffix (Key obj) "/") eqn:Hdir; [|reflexivity].
  destruct (String.eqb (Key obj) "/"); [reflexivity|]. simpl.
  apply HasSuffix_slash. exact Hdir.
Qed.

Lemma Next_more_fuel (m : Lister) (bucket : string) (fuel : nat) :
  forall (i : ListIterator) r,
    Next fuel m bucket i = Some r -> Next (S fuel) m bucket i = Some r.
Proof.
  induction fuel as [|fuel IH]; intros i r; [discriminate|].
  intros H. change (NextStep (Next (S fuel) m bucket) m bucket i = Some r).
  change (NextStep (Next fuel m bucket) m bucket i = Some r) in H.
  unfold NextStep in *.
  destruct (page i) as [pg|].
  - destruct (nextIdx i <? Z.of_nat (length (Objects pg))); [exact H|].
    destruct (isLastPage i); [exact H|].
    destruct (listPaged m bucket _) as [[p isLast]|e]; [|exact H].
    apply IH. exact H.
  - destruct (listPaged m bucket _) as [[p isLast]|e]; [|exact H].
    apply IH. exact H.
Qed.

(** X7: an iterator made by [List] and only advanced by [Next] never
    panics: [List] gives an iterator whose index is within its page, and
    from such an iterator [Next] returns without a panic and leaves such an
    iterator. *)
Theorem Next_keeps_wf :
  (forall prefix delimiter, wf (List prefix delimiter))
  /\ (forall fuel m bucket i res i',
        wf i ->
        Next fuel m bucket i = Some (res, i') ->
        wf i' /\ forall p, res <> Panicked p).
Proof.
  split; [intros; exact I|].
  induction fuel as [|fuel IH]; intros m bucket i res i' Hwf; [discriminate|].
  simpl. unfold NextStep, wf in *.
  destruct (page i) as [pg|] eqn:Hpg.
  - destruct (nextIdx i <? Z.of_nat (length (Objects pg))) eqn:Hidx.
    + apply Z.ltb_lt in Hidx.
      replace (nextIdx i <? 0) with false by (symmetry; apply Z.ltb_ge; lia).
      destruct (lookup_lt_is_Some_2 (Objects pg) (Z.to_nat (nextIdx i))) as [obj Hobj];
        [lia|].
      rewrite Hobj, toListObject_objectOf.
      intros [= <- <-]. simpl. try rewrite Hpg. split; [lia|discriminate].
    + destruct (isLastPage i).
      * intros [= <- <-]. try rewrite Hpg. split; [exact Hwf|discriminate].
      * destruct (listPaged m bucket _) as [[p isLast]|e].
        -- apply IH. simpl. lia.
        -- intros [= <- <-]. simpl. try rewrite Hpg. split; [exact Hwf|discriminate].
  - destruct (listPaged m bucket _) as [[p isLast]|e].
    + apply IH. simpl. lia.
    + intros [= <- <-]. try rewrite Hpg. split; [exact I|discriminate].
Qed.

Lemma Next_keeps_wf_witness :
  exists res i',
    Next 2 twoPages "bkt" (List "d/" EmptyString) = Some (res, i')
    /\ wf i' /\ forall p, res <> Panicked p.
Proof.
  destruct (Next 2 twoPages "bkt" (List "d/" EmptyString)) as [[res i']|] eqn:Hnext.
  - exists res, i'. split; [reflexivity|].
    apply (proj2 Next_keeps_wf 2%nat twoPages "bkt"%string (List "d/" EmptyString)
             res i' (proj1 Next_keeps_wf "d/"%string EmptyString) Hnext).
  - vm_compute in Hnext. discriminate Hnext.
Defined.

Lemma collect_more_fuel (m : Lister) (bucket : string) (fuel : nat) (calls : nat) :
  forall i R,
    collect calls fuel m bucket i = Some R ->
    collect calls (S fuel) m bucket i = Some R.
Proof.
  induction calls as [|calls IH]; intros i R; [auto|].
  cbn [collect].
  destruct (Next fuel m bucket i) as [[res i']|] eqn:Hn; [|discriminate].
  rewrite (Next_more_fuel _ _ _ _ _ Hn).
  destruct res as [[[o|] [e|]]|p]; auto.
  destruct (collect calls fuel m bucket i') as [R'|] eqn:Hc; [|discriminate].
  rewrite (IH _ _ Hc). auto.
Qed.

(** If the call on [i] continues as the call on [j], the loop over [i] gets
    what the loop over [j] gets. *)
Lemma collect_shift (m : Lister) (bucket : string) (fuel calls : nat)
    (i j : ListIterator) R :
  Next (S fuel) m bucket i = Next fuel m bucket j ->
  collect (S calls) fuel m bucket j = Some R ->
  collect (S calls) (S fuel) m bucket i = Some R.
Proof.
  intros Hij Hj. pose proof (collect_more_fuel _ _ _ _ _ _ Hj) as Hj'.
  cbn [collect] in *. rewrite Hij.
  destruct (Next fuel m bucket j) as [[res j']|] eqn:Hn; [|discriminate Hj].
  rewrite (Next_more_fuel _ _ _ _ _ Hn) in Hj'. exact Hj'.
Qed.

Lemma Next_in_page (m : Lister) (bucket : string) (o : listPagedOptions)
    (ret : ListFilesRet) (hasNext : bool) (k fuel : nat) (item : ListItem) :
  Items ret !! k = Some item ->
  Next (S fuel) m bucket (atPage o ret hasNext k) =
  Some (Returned (Some (objectOf item), None), atPage o ret hasNext (S k)).
Proof.
  intros Hitem. pose proof (lookup_lt_Some _ _ _ Hitem) as Hlt.
  cbn [Next]. unfold NextStep, atPage. cbn [page nextIdx Objects opts isLastPage].
  replace (Z.of_nat k <? Z.of_nat (length (Items ret))) with true
    by (symmetry; apply Z.ltb_lt; lia).
  replace (Z.of_nat k <? 0) with false by (symmetry; apply Z.ltb_ge; lia).
  rewrite Nat2Z.id, Hitem, toListObject_objectOf.
  cbv zeta. repeat f_equal. lia.
Qed.

Lemma Next_at_end (m : Lister) (bucket : string) (i : ListIterator) (fuel : nat) :
  ended i -> Next (S fuel) m bucket i = Some (Returned (None, Some EOF), i).
Proof.
  unfold ended. cbn [Next]. unfold NextStep.
  destruct (page i) as [pg|]; [|intros []].
  intros [-> ->]. rewrite Z.ltb_irrefl. reflexivity.
Qed.

Lemma collect_page (m : Lister) (bucket : string) (o : listPagedOptions)
    (ret : ListFilesRet) (hasNext : bool) (fuel calls : nat) :
  forall n k,
    (k + n = length (Items ret))%nat ->
    collect (n + calls) (S fuel) m bucket (atPage o ret hasNext k) =
    match collect calls (S fuel) m bucket (atPage o ret hasNext (length (Items ret))) with
    | Some (os, e, i') => Some (map objectOf (drop k (Items ret)) ++ os, e, i')
    | None => None
    end.
Proof.
  induction n as [|n IH]; intros k Hk.
  - replace k with (length (Items ret)) by lia.
    rewrite drop_all. simpl.
    destruct (collect calls (S fuel) m bucket _) as [[[os e] i']|]; reflexivity.
  - destruct (lookup_lt_is_Some_2 (Items ret) k) as [item Hitem]; [lia|].
    change (S n + calls)%nat with (S (n + calls)).
    cbn [collect]. rewrite (Next_in_page _ _ _ _ _ _ _ _ Hitem).
    rewrite (IH (S k)) by lia.
    rewrite (drop_S _ _ _ Hitem).
    destruct (collect calls (S fuel) m bucket _) as [[[os e] i']|]; reflexivity.
Qed.

Lemma collect_loading (prefix delimiter : string) (m : Lister) (bucket : string)
    (marker : string) (pages : list ListFilesRet) (r : option error) :
  listing m bucket (pagedInput prefix delimiter) marker pages r ->
  forall i j,
    loading m bucket i j ->
    opts j = {| Prefix := prefix; Delimiter := delimiter;
                PageSize := 1000; PageToken := marker |} ->
    forall fuel calls,
      (length pages < fuel)%nat ->
      (length (allItems pages) < calls)%nat ->
      exists i',
        collect calls fuel m bucket i =
          Some (map objectOf (allItems pages), Some (endOf r), i')
        /\ (r = None -> ended i').
Proof.
  unfold pagedInput.
  induction 1 as [marker e Hm|marker ret Hm|marker ret pages r Hm _ IH];
    intros i j Hload Hopts fuel calls Hfuel Hcalls;
    (destruct fuel as [|fuel]; [simpl in Hfuel; lia|]);
    (destruct calls as [|calls]; [simpl in Hcalls; lia|]);
    assert (Hnext : forall recur,
               NextStep recur m bucket i = loadFrom recur m bucket j) by exact Hload;
    unfold loadFrom, listPaged in Hnext; rewrite Hopts in Hnext;
    cbn [Prefix Delimiter PageSize PageToken] in Hnext; rewrite Hm in Hnext.
  - exists j. split; [|discriminate].
    cbn [collect Next]. rewrite Hnext. reflexivity.
  - destruct fuel as [|fuel]; [simpl in Hfuel; lia|].
    exists (atPage (opts j) ret false (length (Items ret))).
    split; [|intros _; unfold ended, atPage; simpl; auto].
    eapply (collect_shift m bucket (S fuel) calls i (atPage (opts j) ret false 0)).
    + cbn [Next]. rewrite Hnext, Hopts. reflexivity.
    + change (allItems [ret]) with (Items ret ++ []) in *. rewrite app_nil_r in *.
      replace (S calls) with (length (Items ret) + (S calls - length (Items ret)))%nat
        by lia.
      rewrite (collect_page m bucket (opts j) ret false fuel _ (length (Items ret)) 0)
        by lia.
      replace (S calls - length (Items ret))%nat
        with (S (calls - length (Items ret))) by lia.
      cbn [collect]. rewrite Next_at_end by (unfold ended, atPage; simpl; auto).
      rewrite drop_0, app_nil_r. reflexivity.
  - destruct fuel as [|fuel]; [simpl in Hfuel; lia|].
    change (allItems (ret :: pages)) with (Items ret ++ allItems pages) in *.
    rewrite length_app in Hcalls. cbn [length] in Hfuel.
    destruct (IH (atPage (opts j) ret true (length (Items ret)))
                (withPageToken (atPage (opts j) ret true (length (Items ret)))
                   (Marker ret)))
      with (fuel := S fuel) (calls := (S calls - length (Items ret))%nat)
      as (i' & Hrest & Hend).
    + intros recur. unfold NextStep, loadFrom, atPage.
      cbn [page nextIdx Objects isLastPage NextPageToken].
      rewrite Z.ltb_irrefl. reflexivity.
    + unfold withPageToken, atPage. simpl. rewrite Hopts. reflexivity.
    + lia.
    + lia.
    + exists i'. split; [|exact Hend].
      eapply (collect_shift m bucket (S fuel) calls i (atPage (opts j) ret true 0)).
      * cbn [Next]. rewrite Hnext, Hopts. reflexivity.
      * replace (S calls) with (length (Items ret) + (S calls - length (Items ret)))%nat
          by lia.
        rewrite (collect_page m bucket (opts j) ret true fuel _ (length (Items ret)) 0)
          by lia.
        rewrite Hrest, drop_0, map_app. reflexivity.
Qed.

(** X8: a caller that drains the iterator of [List(prefix, delimiter)] gets
    every object of every page of the listing, once and in listing order
    (empty pages in between are passed over), and then the end: [io.EOF]
    after the last page, or the error of the fetch that failed; after
    [io.EOF] the iterator stays at its end: every further [Next], against
    any remote side, returns [io.EOF] and leaves the iterator as it is. *)
Theorem List_drained (prefix delimiter : string) (m : Lister) (bucket : string)
    (pages : list ListFilesRet) (r : option error) (fuel calls : nat) :
  listing m bucket (pagedInput prefix delimiter) EmptyString pages r ->
  (length pages < fuel)%nat ->
  (length (allItems pages) < calls)%nat ->
  exists i',
    collect calls fuel m bucket (List prefix delimiter) =
      Some (map objectOf (allItems pages), Some (endOf r), i')
    /\ (r = None ->
        forall m' fuel',
          Next (S fuel') m' bucket i' = Some (Returned (None, Some EOF), i')).
Proof.
  intros Hlist Hfuel Hcalls.
  destruct (collect_loading prefix delimiter m bucket EmptyString pages r Hlist
              (List prefix delimiter) (List prefix delimiter))
    with (fuel := fuel) (calls := calls) as (i' & Hc & Hend); auto.
  - intros recur. reflexivity.
  - exists i'. split; [exact Hc|].
    intros Hr m' fuel'. apply Next_at_end. exact (Hend Hr).
Qed.

Lemma List_drained_witness :
  exists i',
    collect 4 3 twoPages "bkt" (List "d/" EmptyString) =
      Some (map objectOf
              [mkListItem "d/a" 1 0; mkListItem "d/b" 2 0; mkListItem "d/c" 3 0],
            Some EOF, i')
    /\ (@None error = None ->
        forall m' fuel',
          Next (S fuel') m' "bkt" i' = Some (Returned (None, Some EOF), i')).
Proof.
  apply (List_drained "d/" EmptyString twoPages "bkt"
           [ {| Marker := "m1"; Items := [mkListItem "d/a" 1 0; mkListItem "d/b" 2 0];
                CommonPrefixes := [] |};
             {| Marker := EmptyString; Items := [mkListItem "d/c" 3 0];
                CommonPrefixes := [] |} ] None 3 4).
  - eapply listing_more; [reflexivity|]. eapply listing_last. reflexivity.
  - simpl. lia.
  - simpl. lia.
Defined.

End iterate_spec.

Module cachedfs_spec.
Import fs localfs cached cachedfs.

Section Remote.
Context (os : OS).
Context (FileInfoFrom : list byte -> option FileInfo).

Local Abbreviation loop := (ReaddirAll_loop os FileInfoFrom).
Local Abbreviation listed := (cachedfs.listed os FileInfoFrom).

(** The loop keeps, at the front of the array, what it lists of the entries
    it has read; the entries it has yet to read are as they were. *)
Lemma ReaddirAll_loop_listed (localDir : string) (offline : bool) (s : FS os)
    (fis : list FileInfo) :
  forall (todo k n : nat) (arr : list FileInfo),
    (k + todo = length fis)%nat ->
    (n <= k)%nat ->
    length arr = length fis ->
    drop k arr = drop k fis ->
    take (loop localDir offline s todo k n arr).2 (loop localDir offline s todo k n arr).1
    = take n arr ++ omap (listed localDir offline s) (drop k fis).
Proof.
  induction todo as [|todo IH]; intros k n arr Hk Hn Hlen Hdrop.
  - simpl. rewrite drop_ge by lia. simpl. rewrite app_nil_r. reflexivity.
  - destruct (lookup_lt_is_Some_2 fis k) as [fi Hfi]; [lia|].
    assert (Harr : arr !! k = Some fi).
    { rewrite <- (Nat.add_0_r k), <- lookup_drop, Hdrop, lookup_drop, Nat.add_0_r.
      exact Hfi. }
    assert (Hnext : drop (S k) arr = drop (S k) fis).
    { replace (S k) with (k + 1)%nat by lia.
      rewrite <- !drop_drop, Hdrop. reflexivity. }
    rewrite (drop_S fis fi k Hfi). cbn [omap list_omap].
    cbn [ReaddirAll_loop]. rewrite Harr. cbv zeta.
    unfold cachedfs.listed at 1.
    destruct (String.eqb (Name fi) dirListCacheFile).
    + rewrite IH by (auto; lia). reflexivity.
    + destruct (isRemote fi); [destruct offline|].
      * rewrite IH by (auto; lia). reflexivity.
      * rewrite IH; [|lia|lia|rewrite length_insert; exact Hlen
                     |rewrite drop_insert_lt by lia; exact Hnext].
        rewrite (take_S_r _ _ (readStubFile os FileInfoFrom
                                 (Join os localDir (Name fi)) fi s))
          by (apply list_lookup_insert_eq; lia).
        rewrite take_insert_ge by lia. rewrite <- app_assoc. reflexivity.
      * rewrite IH; [|lia|lia|rewrite length_insert; exact Hlen
                     |rewrite drop_insert_lt by lia; exact Hnext].
        rewrite (take_S_r _ _ fi) by (apply list_lookup_insert_eq; lia).
        rewrite take_insert_ge by lia. rewrite <- app_assoc. reflexivity.
Qed.

Lemma ReaddirAll_omap (localDir : string) (fis : list FileInfo) (offline : bool)
    (s : FS os) :
  ReaddirAll os FileInfoFrom localDir (fis, None) offline s =
  (omap (listed localDir offline s) fis, None).
Proof.
  unfold ReaddirAll.
  pose proof (ReaddirAll_loop_listed localDir offline s fis (length fis) 0 0 fis
                eq_refl (le_n 0) eq_refl eq_refl) as H.
  destruct (loop localDir offline s (length fis) 0 0 fis) as [arr n].
  simpl in H. rewrite H. reflexivity.
Qed.

End Remote.

(** X12: [ReaddirAll] returns, in the order of the directory, one entry for
    every local entry but the marker file and, when offline, but the stubs;
    a stub is returned as [readStubFile] reads it, every other entry as it
    is.  Writing the entries it keeps over the front of the array it reads
    loses none of them.  An error of [Readdir] is returned with what
    [Readdir] gave. *)
Theorem ReaddirAll_entries (os : OS) (FileInfoFrom : list byte -> option FileInfo)
    (localDir : string) (fis : list FileInfo) (offline : bool) (s : FS os) :
  ReaddirAll os FileInfoFrom localDir (fis, None) offline s =
    (omap (listed os FileInfoFrom localDir offline s) fis, None)
  /\ forall e,
       ReaddirAll os FileInfoFrom localDir (fis, Some e) offline s = (fis, Some e).
Proof.
  split; [apply ReaddirAll_omap|]. intros e. reflexivity.
Qed.

(** X13: offline, [ReaddirAll] reads no stub and does not depend on the
    file system or on the codec: it returns exactly the local entries that
    are neither the marker file nor a stub, as they are. *)
Theorem ReaddirAll_offline (os : OS) (FileInfoFrom FileInfoFrom' : list byte -> option FileInfo)
    (localDir : string) (fis : list FileInfo) (s s' : FS os) :
  ReaddirAll os FileInfoFrom localDir (fis, None) true s =
    ReaddirAll os FileInfoFrom' localDir (fis, None) true s'
  /\ forall fi,
       fi ∈ (ReaddirAll os FileInfoFrom localDir (fis, None) true s).1 <->
       fi ∈ fis /\ Name fi <> dirListCacheFile /\ isRemote fi = false.
Proof.
  rewrite !ReaddirAll_omap.
  assert (Hsame : forall fi,
             listed os FileInfoFrom localDir true s fi =
             if String.eqb (Name fi) dirListCacheFile then None
             else if isRemote fi then None else Some fi).
  { intros fi. reflexivity. }
  split.
  - f_equal.
  - intros fi. simpl. rewrite list_elem_of_omap. split.
    + intros (x & Hin & Hx). rewrite Hsame in Hx.
      destruct (String.eqb (Name x) dirListCacheFile) eqn:Hname; [discriminate|].
      destruct (isRemote x) eqn:Hrem; [discriminate|].
      injection Hx as <-. apply String.eqb_neq in Hname. auto.
    + intros (Hin & Hname & Hrem). exists fi. split; [exact Hin|].
      rewrite Hsame. apply String.eqb_neq in Hname. rewrite Hname, Hrem. reflexivity.
Qed.

Lemma isRemote_link (p : string) (n : node) (target : string) :
  nkind n = KLink target -> isRemote (infoOf p n) = true.
Proof.
  intros Hk. unfold isRemote, infoOf, modeOf. simpl. rewrite Hk.
  apply negb_true_iff, Z.eqb_neq. intros H0.
  assert (Hbit : Z.testbit (Z.land (Z.lor ModeSymlink (nperm n)) ModeSymlink) 27 = true).
  { rewrite Z.land_spec, Z.lor_spec. reflexivity. }
  rewrite H0 in Hbit. discriminate.
Qed.

Lemma kind_at_node (os : OS) (s : FS os) (p : string) (k : kind) :
  kind_at os s p = Some k -> exists n, node_at os s p = Some n /\ nkind n = k.
Proof.
  unfold kind_at. destruct (node_at os s p) as [n|]; [|discriminate].
  simpl. intros [= <-]. eauto.
Qed.

(** X14: [Lstat] of the cached layer reads a stub back: after
    [writeStubFile] has written the stub of a record that is no directory,
    [Lstat] at the path returns a record with the name and the size of the
    original, no directory (the codec giving them back for the record as
    [writeStubFile] hands it over). *)
Theorem Lstat_reads_stub (os : OS) (BytesFileInfo : FileInfo -> list byte)
    (FileInfoFrom : list byte -> option FileInfo) (ModeRemote : Z)
    (localFile : string) (fi : FileInfo) (s s' : FS os) :
  OSLaws os ->
  IsDir fi = false ->
  writeStubFile os BytesFileInfo ModeRemote localFile fi s = (s', None) ->
  codecRoundTrips BytesFileInfo FileInfoFrom (fileInfoRemote ModeRemote fi) ->
  exists ret,
    cached.Lstat os FileInfoFrom ModeRemote localFile s' = (Some ret, None)
    /\ Name ret = Name fi /\ Size ret = Size fi /\ IsDir ret = false.
Proof.
  intros laws Hdir Hw (ret & Hret & Hname & Hsize & Hisdir).
  pose proof (stub_spec.writeStubFile_ok os laws BytesFileInfo ModeRemote _ _ _ _ Hw)
    as Hk.
  rewrite Hdir in Hk.
  destruct (kind_at_node _ _ _ _ Hk) as (n & Hn & Hkind).
  exists ret. simpl in *. rewrite Hdir in Hisdir. repeat split; auto.
  unfold cached.Lstat, localfs.Lstat. rewrite Hn.
  assert (Hnodir : IsDir (infoOf localFile n) = false).
  { unfold infoOf. simpl. rewrite Hkind. reflexivity. }
  rewrite Hnodir, (isRemote_link _ _ _ Hkind).
  unfold readStubFile. rewrite (stub_spec.Readlink_link os _ _ _ Hk).
  unfold stubTarget. rewrite base64_facts.DecodeString_EncodeToString, Hret.
  reflexivity.
Qed.

Lemma Lstat_reads_stub_witness :
  exists ret,
    cached.Lstat memfs toyFrom remoteBits "root/d/a"
      (writeStubFile memfs toyBytes remoteBits "root/d/a"
         (xfs.NewFileInfo "a" 100) rootTree).1 = (Some ret, None)
    /\ Name ret = "a"%string /\ Size ret = 100 /\ IsDir ret = false.
Proof.
  apply (Lstat_reads_stub memfs toyBytes toyFrom remoteBits "root/d/a"
           (xfs.NewFileInfo "a" 100) rootTree _ stub_spec.memfs_laws eq_refl).
  - vm_compute. reflexivity.
  - exact stub_spec.toy_roundtrip.
Defined.

(** X15: a local directory reads as remote until its marker is written:
    while the directory has no marker, [Lstat] returns its info with the
    bits of [ModeRemote] set; once [touchDirCached] has succeeded (the
    marker path being no link), [Lstat] returns the local info of the
    directory as it is. *)
Theorem Lstat_directory (os : OS) (FileInfoFrom : list byte -> option FileInfo)
    (ModeRemote : Z) (dir : string) (s : FS os) (n : node) :
  OSLaws os ->
  node_at os s dir = Some n ->
  nkind n = KDir ->
  (checkDirCached os dir s = None ->
   cached.Lstat os FileInfoFrom ModeRemote dir s =
   (Some (fileInfoRemote ModeRemote (infoOf dir n)), None))
  /\ (forall s',
        touchDirCached os dir s = (s', None) ->
        (forall target,
            kind_at os s (Join os dir dirListCacheFile) <> Some (KLink target)) ->
        exists n',
          node_at os s' dir = Some n' /\ nkind n' = KDir
          /\ cached.Lstat os FileInfoFrom ModeRemote dir s' = (Some (infoOf dir n'), None)).
Proof.
  intros laws Hn Hkind. split.
  - intros Hnone. unfold cached.Lstat, localfs.Lstat. rewrite Hn.
    unfold infoOf at 1. simpl. rewrite Hkind, Hnone. reflexivity.
  - intros s' Htouch Hlink. unfold touchDirCached in Htouch.
    assert (Hdir' : kind_at os s' dir = Some KDir).
    { eapply (WriteFile_keeps os laws); [exact Htouch|].
      unfold kind_at. rewrite Hn. simpl. rewrite Hkind. reflexivity. }
    destruct (kind_at_node _ _ _ _ Hdir') as (n' & Hn' & Hkind').
    exists n'. repeat split; auto.
    assert (Hmark : hasSentinel os dir s').
    { destruct (WriteFile_ok os laws _ _ _ _ _ Htouch) as [Hfile|[target Ht]];
        [exact Hfile|destruct (Hlink target Ht)]. }
    apply stub_spec.hasSentinel_checkDirCached in Hmark.
    unfold cached.Lstat, localfs.Lstat. rewrite Hn'.
    unfold infoOf at 1. simpl. rewrite Hkind'.
    destruct (checkDirCached os dir s'); [reflexivity|congruence].
Qed.

Lemma Lstat_directory_witness :
  cached.Lstat memfs toyFrom remoteBits "root/d" rootTree =
  (Some (fileInfoRemote remoteBits (infoOf "root/d" (mkNode KDir 0 493 TimeZero))), None).
Proof.
  apply (proj1 (Lstat_directory memfs toyFrom remoteBits "root/d" rootTree
                  (mkNode KDir 0 493 TimeZero) stub_spec.memfs_laws eq_refl eq_refl)).
  vm_compute. reflexivity.
Defined.

Lemma SyncOpen_stubs_keeps_kind (os : OS) (BytesFileInfo : FileInfo -> list byte)
    (ModeRemote : Z) (local name : string) (fis : list FileInfo) (s : FS os)
    (q : string) (k : kind) :
  OSLaws os ->
  kind_at os s q = Some k ->
  kind_at os (SyncOpen_stubs os BytesFileInfo ModeRemote local name fis s) q = Some k.
Proof.
  intros laws Hq. rewrite stub_spec.SyncOpen_stubs_touch.
  pose proof (stub_spec.afterStubs_keeps os laws BytesFileInfo ModeRemote
                (Join os local name) fis q k s Hq) as H1.
  destruct (forallb isNil _); [|exact H1].
  unfold touchDirCached.
  eapply (WriteFile_keeps os laws); [apply surjective_pairing|exact H1].
Qed.

(** X16: the stub-writing pass replaces nothing: whatever exists in the
    local tree before the pass, a materialized file, a directory or a link,
    exists after it and is of the same kind. *)
Theorem SyncOpen_stubs_replaces_nothing (os : OS)
    (BytesFileInfo : FileInfo -> list byte) (ModeRemote : Z)
    (local name : string) (fis : list FileInfo) (s : FS os) :
  OSLaws os ->
  forall q k,
    kind_at os s q = Some k ->
    kind_at os (SyncOpen_stubs os BytesFileInfo ModeRemote local name fis s) q = Some k.
Proof.
  intros laws q k. apply SyncOpen_stubs_keeps_kind. exact laws.
Qed.

Lemma SyncOpen_stubs_replaces_nothing_witness :
  kind_at memfs
    (SyncOpen_stubs memfs toyBytes remoteBits "root" "d" twoEntries treeWithFile)
    "root/d/a" = Some KFile.
Proof.
  apply (SyncOpen_stubs_replaces_nothing memfs toyBytes remoteBits "root" "d"
           twoEntries treeWithFile stub_spec.memfs_laws "root/d/a" KFile).
  reflexivity.
Defined.

Lemma memfs_exclusive : OSExclusive memfs.
Proof.
  constructor; unfold kind_at; simpl.
  - intros p perm s k Hk. unfold create.
    destruct (s !! p); [simpl; discriminate|discriminate Hk].
  - intros target p s k Hk. unfold create.
    destruct (s !! p); [simpl; discriminate|discriminate Hk].
Qed.

Lemma existing_entry_fails (os : OS) (BytesFileInfo : FileInfo -> list byte)
    (ModeRemote : Z) (base : string) (fis : list FileInfo) :
  OSLaws os -> OSExclusive os ->
  forall (s : FS os) (fi : FileInfo) (k : kind),
    fi ∈ fis ->
    kind_at os s (base ++ "/" ++ Name fi)%string = Some k ->
    forallb isNil (stubResults os BytesFileInfo ModeRemote base fis s) = false.
Proof.
  intros laws excl.
  induction fis as [|x fis IH]; intros s fi k Hin Hk; [inversion Hin|].
  cbn [stubResults].
  destruct (writeStubFile os BytesFileInfo ModeRemote (base ++ "/" ++ Name x)%string x s)
    as [s1 e] eqn:Hw.
  cbn [forallb]. apply elem_of_cons in Hin as [->|Hin].
  - assert (He : e <> None).
    { replace e with (writeStubFile os BytesFileInfo ModeRemote
                        (base ++ "/" ++ Name x)%string x s).2 by (rewrite Hw; reflexivity).
      unfold writeStubFile. destruct (IsDir x).
      - eapply (Mkdir_exists os excl); eauto.
      - eapply (Symlink_exists os excl); eauto. }
    destruct e; [reflexivity|congruence].
  - rewrite (IH s1 fi k Hin); [apply andb_false_r|].
    eapply stub_spec.writeStubFile_keeps; eauto.
Qed.

(** X17: an entry that is already there blocks the marker: if the local
    path of some entry of the listing exists before the pass (a stub of an
    earlier pass, a downloaded file), the stub write for it fails, the pass
    makes no marker write, and a directory without its marker file is
    without it after the pass. *)
Theorem SyncOpen_stubs_existing_entry (os : OS)
    (BytesFileInfo : FileInfo -> list byte) (ModeRemote : Z)
    (local name : string) (fis : list FileInfo) (s : FS os)
    (fi : FileInfo) (k : kind) :
  OSLaws os -> OSExclusive os ->
  fi ∈ fis ->
  kind_at os s (Join os local name ++ "/" ++ Name fi)%string = Some k ->
  SyncOpen_stubs os BytesFileInfo ModeRemote local name fis s =
    afterStubs os BytesFileInfo ModeRemote (Join os local name) fis s
  /\ (~ hasSentinel os (Join os local name) s ->
      ~ hasSentinel os (Join os local name)
          (SyncOpen_stubs os BytesFileInfo ModeRemote local name fis s)).
Proof.
  intros laws excl Hin Hk.
  rewrite stub_spec.SyncOpen_stubs_touch.
  rewrite (existing_entry_fails os BytesFileInfo ModeRemote _ fis laws excl s fi k Hin Hk).
  split; [reflexivity|].
  intros Hs H1. apply Hs. unfold hasSentinel in *.
  eapply stub_spec.afterStubs_no_file; eauto.
Qed.

Lemma SyncOpen_stubs_existing_entry_witness :
  (~ hasSentinel memfs (Join memfs "root" "d") treeWithFile)
  /\ (~ hasSentinel memfs (Join memfs "root" "d")
        (SyncOpen_stubs memfs toyBytes remoteBits "root" "d" twoEntries treeWithFile)).
Proof.
  assert (Hbefore : ~ hasSentinel memfs (Join memfs "root" "d") treeWithFile).
  { unfold hasSentinel. vm_compute. discriminate. }
  split; [exact Hbefore|].
  apply (proj2 (SyncOpen_stubs_existing_entry memfs toyBytes remoteBits "root" "d"
                  twoEntries treeWithFile (xfs.NewFileInfo "a" 100) KFile
                  stub_spec.memfs_laws memfs_exclusive
                  ltac:(apply elem_of_cons; left; reflexivity) eq_refl)).
  exact Hbefore.
Defined.

End cachedfs_spec.

Module uphost_spec.
Import GoStrings uphost strings_facts.
Local Open Scope string_scope.

Lemma Contains_prefix (sub s : string) :
  String.prefix sub s = true -> Contains s sub = true.
Proof. intros H. destruct s; cbn [Contains]; rewrite H; reflexivity. Qed.

Lemma Contains_append_r (sub b : string) :
  forall a : string, Contains b sub = true -> Contains (a ++ b) sub = true.
Proof.
  induction a as [|c a IH]; intros H; [exact H|].
  rewrite append_cons. cbn [Contains]. rewrite (IH H). apply orb_true_r.
Qed.

Lemma append_assoc (a : string) :
  forall b c : string, ((a ++ b) ++ c = a ++ (b ++ c))%string.
Proof.
  induction a as [|x a IH]; intros b c; [reflexivity|].
  rewrite !append_cons, IH. reflexivity.
Qed.

Lemma HasPrefix_scheme (s p : string) :
  HasPrefix s (p ++ "://") = true -> Contains s "://" = true.
Proof.
  unfold HasPrefix. intros H.
  destruct (readdir_spec.prefix_drop _ _ H) as [Heq _].
  rewrite Heq, append_assoc.
  apply Contains_append_r, Contains_prefix, prefix_append.
Qed.

Lemma endpoint_shape (TrimSpace : string -> string) (useHttps : bool) (host : string) :
  endpoint TrimSpace useHttps host = ""
  \/ Contains (endpoint TrimSpace useHttps host) "://" = true.
Proof.
  unfold endpoint.
  destruct (String.eqb (TrimSpace host) ""); [left; reflexivity|right].
  destruct (HasPrefix (TrimSpace host) "http://") eqn:Hhttp.
  - apply (HasPrefix_scheme _ "http"), Hhttp.
  - destruct (HasPrefix (TrimSpace host) "https://") eqn:Hhttps.
    + apply (HasPrefix_scheme _ "https"), Hhttps.
    + cbn [orb].
      destruct useHttps.
      * apply (Contains_append_r "://" ("://" ++ TrimSpace host) "https").
        apply Contains_prefix, prefix_append.
      * apply (Contains_append_r "://" ("://" ++ TrimSpace host) "http").
        apply Contains_prefix, prefix_append.
Qed.

(** X18: what [hostAddSchemeIfNeeded] returns is empty or has a scheme
    separator in it, so that giving it a second time to the function, with
    either scheme choice, changes nothing. *)
Theorem hostAddSchemeIfNeeded_idempotent (TrimSpace : string -> string)
    (useHttps useHttps' : bool) (host : string) :
  let r := hostAddSchemeIfNeeded TrimSpace useHttps host in
  (r = "" \/ Contains r "://" = true)
  /\ hostAddSchemeIfNeeded TrimSpace useHttps' r = r.
Proof.
  intros r.
  assert (Hshape : r = "" \/ Contains r "://" = true).
  { subst r. unfold hostAddSchemeIfNeeded.
    destruct (String.eqb host ""); [left; reflexivity|].
    destruct (Contains host "://") eqn:Hc; [right; exact Hc|].
    apply endpoint_shape. }
  split; [exact Hshape|].
  unfold hostAddSchemeIfNeeded at 1.
  destruct Hshape as [-> | Hc]; [reflexivity|].
  rewrite Hc. destruct (String.eqb r "") eqn:He; [|reflexivity].
  apply String.eqb_eq in He. symmetry. exact He.
Qed.

Lemma HasPrefix_false_scheme (s p : string) :
  Contains s "://" = false -> HasPrefix s (p ++ "://") = false.
Proof.
  intros Hno. destruct (HasPrefix s (p ++ "://")) eqn:H; [|reflexivity].
  apply HasPrefix_scheme in H. congruence.
Qed.

(** X19: a host given without a scheme comes back from [endpoint] with one,
    and [removeHostScheme] takes exactly that scheme off again: the result is
    the host with the surrounding white space trimmed. *)
Theorem removeHostScheme_endpoint (TrimSpace : string -> string)
    (useHttps : bool) (host : string) :
  TrimSpace host <> "" ->
  Contains (TrimSpace host) "://" = false ->
  endpoint TrimSpace useHttps host
    = (if useHttps then "https://" else "http://") ++ TrimSpace host
  /\ removeHostScheme (endpoint TrimSpace useHttps host) = TrimSpace host.
Proof.
  intros Hne Hno.
  assert (Hhttp : HasPrefix (TrimSpace host) "http://" = false)
    by exact (HasPrefix_false_scheme _ "http" Hno).
  assert (Hhttps : HasPrefix (TrimSpace host) "https://" = false)
    by exact (HasPrefix_false_scheme _ "https" Hno).
  assert (He : endpoint TrimSpace useHttps host
               = (if useHttps then "https://" else "http://") ++ TrimSpace host).
  { unfold endpoint.
    destruct (String.eqb (TrimSpace host) "") eqn:E;
      [apply String.eqb_eq in E; contradiction|].
    rewrite Hhttp, Hhttps. reflexivity. }
  split; [exact He|].
  rewrite He. unfold removeHostScheme.
  destruct useHttps.
  - assert (H1 : TrimPrefix ("https://" ++ TrimSpace host) "http://"
                 = "https://" ++ TrimSpace host).
    { unfold TrimPrefix, HasPrefix. rewrite !append_cons. reflexivity. }
    rewrite H1. apply TrimPrefix_append.
  - rewrite TrimPrefix_append.
    unfold TrimPrefix. rewrite Hhttps. reflexivity.
Qed.

Lemma removeHostScheme_endpoint_witness :
  endpoint asciiTrimSpace true " up.qiniup.com " = "https://up.qiniup.com"
  /\ removeHostScheme (endpoint asciiTrimSpace true " up.qiniup.com ")
     = "up.qiniup.com".
Proof.
  apply (removeHostScheme_endpoint asciiTrimSpace true " up.qiniup.com ").
  - vm_compute. discriminate.
  - vm_compute. reflexivity.
Defined.

Lemma removeRepeat_loop_spec (slc : list string) :
  forall (m : gmap string Z) (result : list string),
    exists r',
      removeRepeat_loop slc m result = (result ++ r')%list
      /\ NoDup r'
      /\ (forall x, x ∈ r' <-> x ∈ slc /\ m !! x = None)
      /\ sublist r' slc.
Proof.
  induction slc as [|e rest IH]; intros m result.
  - exists []. cbn [removeRepeat_loop]. rewrite app_nil_r.
    split; [reflexivity|]. split; [constructor|]. split; [|constructor].
    intros x. split; [intros H; inversion H|intros [H _]; inversion H].
  - cbn [removeRepeat_loop]. destruct (m !! e) as [v|] eqn:Hm.
    + rewrite map_size_insert_Some by (rewrite Hm; eauto).
      rewrite Nat.eqb_refl. cbn [negb].
      destruct (IH (<[ e := 0%Z ]> m) result) as (r' & Heq & Hnd & Hel & Hsub).
      exists r'. split; [exact Heq|]. split; [exact Hnd|].
      split; [|apply sublist_cons, Hsub].
      intros x. split.
      * intros Hx. apply Hel in Hx as [Hin Hlk].
        apply lookup_insert_None in Hlk as [Hlk _].
        split; [apply elem_of_cons; right; exact Hin|exact Hlk].
      * intros [Hin Hlk]. apply Hel.
        apply elem_of_cons in Hin as [-> | Hin]; [congruence|].
        split; [exact Hin|].
        apply lookup_insert_None. split; [exact Hlk|]. intros ->. congruence.
    + rewrite map_size_insert_None by exact Hm.
      replace (S (size m) =? size m)%nat with false
        by (symmetry; apply Nat.eqb_neq; lia).
      cbn [negb].
      destruct (IH (<[ e := 0%Z ]> m) (result ++ [e])%list) as (r' & Heq & Hnd & Hel & Hsub).
      exists (e :: r'). split; [rewrite Heq, <- app_assoc; reflexivity|].
      split.
      { apply NoDup_cons. split; [|exact Hnd].
        intros Hin. apply Hel in Hin as [_ Hlk].
        apply lookup_insert_None in Hlk as [_ Hne]. congruence. }
      split; [|apply sublist_skip, Hsub].
      intros x. split.
      * intros Hx. apply elem_of_cons in Hx as [-> | Hx].
        -- split; [apply elem_of_cons; left; reflexivity|exact Hm].
        -- apply Hel in Hx as [Hin Hlk].
           apply lookup_insert_None in Hlk as [Hlk _].
           split; [apply elem_of_cons; right; exact Hin|exact Hlk].
      * intros [Hin Hlk]. apply elem_of_cons.
        apply elem_of_cons in Hin as [-> | Hin]; [left; reflexivity|].
        destruct (decide (x = e)) as [-> | Hne]; [left; reflexivity|right].
        apply Hel. split; [exact Hin|].
        apply lookup_insert_None. split; [exact Hlk|congruence].
Qed.

(** X20: [removeRepeatStringItem] returns every string of its argument once:
    the result has no repetition, holds the same strings, and keeps them in
    the order the argument has them. *)
Theorem removeRepeatStringItem_dedup (slc : list string) :
  NoDup (removeRepeatStringItem slc)
  /\ (forall x, x ∈ removeRepeatStringItem slc <-> x ∈ slc)
  /\ sublist (removeRepeatStringItem slc) slc.
Proof.
  unfold removeRepeatStringItem.
  destruct (removeRepeat_loop_spec slc ∅ []) as (r' & Heq & Hnd & Hel & Hsub).
  rewrite Heq. cbn [app]. split; [exact Hnd|]. split; [|exact Hsub].
  intros x. split.
  - intros Hx. apply Hel in Hx as [Hin _]. exact Hin.
  - intros Hin. apply Hel. split; [exact Hin|apply lookup_empty].
Qed.

Lemma removeRepeat_loop_fresh (slc : list string) :
  forall (m : gmap string Z) (result : list string),
    NoDup slc ->
    (forall x, x ∈ slc -> m !! x = None) ->
    removeRepeat_loop slc m result = (result ++ slc)%list.
Proof.
  induction slc as [|e rest IH]; intros m result Hnd Hfresh.
  - cbn [removeRepeat_loop]. rewrite app_nil_r. reflexivity.
  - apply NoDup_cons in Hnd as [Hnotin Hnd].
    cbn [removeRepeat_loop].
    rewrite map_size_insert_None
      by (apply Hfresh, elem_of_cons; left; reflexivity).
    replace (S (size m) =? size m)%nat with false
      by (symmetry; apply Nat.eqb_neq; lia).
    cbn [negb]. rewrite IH; [rewrite <- app_assoc; reflexivity|exact Hnd|].
    intros x Hx. apply lookup_insert_None. split.
    + apply Hfresh, elem_of_cons. right. exact Hx.
    + intros ->. contradiction.
Qed.

(** X21: a list without repetition goes through [removeRepeatStringItem]
    unchanged. *)
Theorem removeRepeatStringItem_NoDup (slc : list string) :
  NoDup slc -> removeRepeatStringItem slc = slc.
Proof.
  intros Hnd. unfold removeRepeatStringItem.
  rewrite removeRepeat_loop_fresh; [reflexivity|exact Hnd|].
  intros x _. apply lookup_empty.
Qed.

Lemma removeRepeatStringItem_NoDup_witness :
  removeRepeatStringItem ["uc.qbox.me"; "kodo-config.qiniuapi.com"]
  = ["uc.qbox.me"; "kodo-config.qiniuapi.com"].
Proof.
  apply (removeRepeatStringItem_NoDup ["uc.qbox.me"; "kodo-config.qiniuapi.com"]).
  apply NoDup_cons. split.
  - intros H. apply elem_of_cons in H as [H | H]; [discriminate H|inversion H].
  - apply NoDup_cons. split; [intros H; inversion H|constructor].
Defined.

End uphost_spec.

Module auth_spec.
Import auth.

Lemma ascii_compare_refl (x : ascii) : Ascii.compare x x = Eq.
Proof. unfold Ascii.compare. apply N.compare_refl. Qed.

Lemma ascii_compare_lt_trans (x y z : ascii) :
  Ascii.compare x y = Lt -> Ascii.compare y z = Lt -> Ascii.compare x z = Lt.
Proof. unfold Ascii.compare. rewrite !N.compare_lt_iff. lia. Qed.

Lemma compare_refl (a : string) : String.compare a a = Eq.
Proof.
  induction a as [|x a IH]; [reflexivity|].
  cbn [String.compare]. rewrite ascii_compare_refl. exact IH.
Qed.

Lemma compare_lt_trans (a : string) :
  forall b c : string,
    String.compare a b = Lt -> String.compare b c = Lt -> String.compare a c = Lt.
Proof.
  induction a as [|x a IH]; intros [|y b] [|z c]; cbn [String.compare];
    try discriminate; try reflexivity.
  intros Hab Hbc.
  destruct (Ascii.compare x y) eqn:Hxy; try discriminate.
  - apply Ascii.compare_eq_iff in Hxy. subst y.
    destruct (Ascii.compare x z); try discriminate; [|reflexivity].
    exact (IH _ _ Hab Hbc).
  - destruct (Ascii.compare y z) eqn:Hyz; try discriminate.
    + apply Ascii.compare_eq_iff in Hyz. subst z. rewrite Hxy. reflexivity.
    + rewrite (ascii_compare_lt_trans _ _ _ Hxy Hyz). reflexivity.
Qed.

Lemma lt_compare (a b : string) : lt a b = true <-> String.compare a b = Lt.
Proof.
  unfold lt, String.ltb. destruct (String.compare a b); split; congruence.
Qed.

Lemma lt_irrefl (a : string) : lt a a = false.
Proof. unfold lt, String.ltb. rewrite compare_refl. reflexivity. Qed.

Lemma lt_trans (a b c : string) : lt a b = true -> lt b c = true -> lt a c = true.
Proof. rewrite !lt_compare. apply compare_lt_trans. Qed.

Lemma lt_connected (a b : string) : lt a b = false -> lt b a = false -> a = b.
Proof.
  unfold lt, String.ltb. rewrite (String.compare_antisym b a).
  destruct (String.compare a b) eqn:H; cbn [CompOpp]; try discriminate.
  intros _ _. apply String.compare_eq_iff, H.
Qed.

Lemma lessItem_spec (a b : xQiniuHeaderItem) :
  lessItem a b = true
  <-> lt (HeaderName a) (HeaderName b) = true
      \/ (HeaderName a = HeaderName b
          /\ lt (HeaderValue a) (HeaderValue b) = true).
Proof.
  unfold lessItem. split.
  - destruct (lt (HeaderName a) (HeaderName b)) eqn:Hab; [left; reflexivity|].
    destruct (lt (HeaderName b) (HeaderName a)) eqn:Hba; [discriminate|].
    intros Hv. right. split; [apply lt_connected; assumption|exact Hv].
  - intros [-> | [Hn Hv]]; [reflexivity|].
    rewrite Hn, lt_irrefl. exact Hv.
Qed.

Lemma lessItem_irrefl (a : xQiniuHeaderItem) : lessItem a a = false.
Proof. unfold lessItem. rewrite !lt_irrefl. reflexivity. Qed.

Lemma lessItem_trans (a b c : xQiniuHeaderItem) :
  lessItem a b = true -> lessItem b c = true -> lessItem a c = true.
Proof.
  rewrite !lessItem_spec.
  intros [Hab | [Hab Vab]] [Hbc | [Hbc Vbc]].
  - left. exact (lt_trans _ _ _ Hab Hbc).
  - left. rewrite <- Hbc. exact Hab.
  - left. rewrite Hab. exact Hbc.
  - right. split; [congruence|exact (lt_trans _ _ _ Vab Vbc)].
Qed.

Lemma lessItem_connected (a b : xQiniuHeaderItem) :
  lessItem a b = false -> lessItem b a = false -> a = b.
Proof.
  unfold lessItem. destruct a as [na va], b as [nb vb]. cbn.
  destruct (lt na nb) eqn:Hab; [discriminate|].
  destruct (lt nb na) eqn:Hba; [discriminate|].
  intros Hv Hv'. f_equal; apply lt_connected; assumption.
Qed.

Lemma Less_in_range (headers : list xQiniuHeaderItem) (i : Z) :
  (0 <= i < Z.of_nat (length headers))%Z ->
  exists a, headers !! Z.to_nat i = Some a
            /\ (if (0 <=? i)%Z then headers !! Z.to_nat i else None) = Some a.
Proof.
  intros Hi.
  destruct (lookup_lt_is_Some_2 headers (Z.to_nat i)) as [a Ha]; [lia|].
  exists a. split; [exact Ha|].
  destruct (0 <=? i)%Z eqn:E; [exact Ha|apply Z.leb_gt in E; lia].
Qed.

(** X22: on indices of the slice, [Less] is a strict total order of the
    items, by name and then by value: no item is less than itself, the
    relation is transitive, and two items of which neither is less than the
    other are the same item. *)
Theorem Less_strict_total_order (headers : list xQiniuHeaderItem) (i j k : Z) :
  (0 <= i < Z.of_nat (length headers))%Z ->
  (0 <= j < Z.of_nat (length headers))%Z ->
  (0 <= k < Z.of_nat (length headers))%Z ->
  Less headers i i = Returned false
  /\ (Less headers i j = Returned true -> Less headers j k = Returned true ->
      Less headers i k = Returned true)
  /\ (Less headers i j = Returned false -> Less headers j i = Returned false ->
      headers !! Z.to_nat i = headers !! Z.to_nat j).
Proof.
  intros Hi Hj Hk.
  destruct (Less_in_range _ _ Hi) as (a & Ha & Ea).
  destruct (Less_in_range _ _ Hj) as (b & Hb & Eb).
  destruct (Less_in_range _ _ Hk) as (c & Hc & Ec).
  unfold Less. rewrite Ea, Eb, Ec, Ha, Hb.
  split; [rewrite lessItem_irrefl; reflexivity|]. split.
  - intros [= Hab] [= Hbc].
    rewrite (lessItem_trans _ _ _ Hab Hbc). reflexivity.
  - intros [= Hab] [= Hba].
    f_equal. apply lessItem_connected; assumption.
Qed.

Lemma Less_strict_total_order_witness :
  let headers := [ mkHeaderItem "x-qiniu-b" "1"; mkHeaderItem "x-qiniu-a" "2";
                   mkHeaderItem "x-qiniu-b" "0" ]%string in
  Less headers 1 1 = Returned false
  /\ (Less headers 1 2 = Returned true -> Less headers 2 0 = Returned true ->
      Less headers 1 0 = Returned true)
  /\ (Less headers 1 2 = Returned false -> Less headers 2 1 = Returned false ->
      headers !! Z.to_nat 1 = headers !! Z.to_nat 2).
Proof.
  exact (Less_strict_total_order
           [ mkHeaderItem "x-qiniu-b" "1"; mkHeaderItem "x-qiniu-a" "2";
             mkHeaderItem "x-qiniu-b" "0" ]%string 1 2 0
           ltac:(simpl; lia) ltac:(simpl; lia) ltac:(simpl; lia)).
Defined.

End auth_spec.

Module uptoken_spec.
Import GoStrings auth uptoken strings_facts.
Local Open Scope string_scope.

Lemma cut_shorter (sep : string) :
  sep <> "" ->
  forall s before after : string,
    cut sep s = Some (before, after) ->
    (String.length after < String.length s)%nat.
Proof.
  intros Hsep. induction s as [|c s IH]; intros before after; cbn [cut].
  - destruct (String.prefix sep "") eqn:Hp; [|discriminate].
    destruct sep; [contradiction|discriminate Hp].
  - destruct (String.prefix sep (String c s)) eqn:Hp.
    + intros [= _ <-].
      destruct (readdir_spec.prefix_drop _ _ Hp) as [_ Hle].
      rewrite readdir_spec.length_drop.
      destruct sep; [contradiction|]. cbn [String.length] in *. lia.
    + destruct (cut sep s) as [[b a]|] eqn:Hc; [|discriminate].
      intros [= _ <-]. specialize (IH _ _ eq_refl). cbn [String.length]. lia.
Qed.

Lemma Split_loop_enough (sep : string) :
  sep <> "" ->
  forall (f1 f2 : nat) (s : string),
    (String.length s <= f1)%nat -> (String.length s <= f2)%nat ->
    Split_loop f1 s sep = Split_loop f2 s sep.
Proof.
  intros Hsep.
  assert (Hempty : forall f, Split_loop f "" sep = [""]).
  { intros [|f]; [reflexivity|]. cbn [Split_loop cut].
    destruct (String.prefix sep "") eqn:Hp; [|reflexivity].
    destruct sep; [contradiction|discriminate Hp]. }
  induction f1 as [|f1 IH]; intros f2 s H1 H2.
  - destruct s; [|cbn [String.length] in H1; lia]. rewrite !Hempty. reflexivity.
  - destruct f2 as [|f2].
    + destruct s; [|cbn [String.length] in H2; lia]. rewrite !Hempty. reflexivity.
    + cbn [Split_loop]. destruct (cut sep s) as [[b a]|] eqn:Hc; [|reflexivity].
      pose proof (cut_shorter sep Hsep _ _ _ Hc).
      f_equal. apply IH; lia.
Qed.

Lemma Split_char (c : ascii) (a b : string) :
  Contains a (String c "") = false ->
  Split (a ++ String c b) (String c "") = a :: Split b (String c "").
Proof.
  intros Hno. unfold Split.
  rewrite bucket_spec.length_append. cbn [String.length].
  rewrite Nat.add_succ_r. cbn [Split_loop].
  rewrite (cut_char c a b Hno). f_equal.
  apply Split_loop_enough; [discriminate|lia|lia].
Qed.

Lemma Split_none (sep s : string) :
  Contains s sep = false -> Split s sep = [s].
Proof.
  intros Hno. unfold Split.
  destruct (String.length s); [reflexivity|].
  cbn [Split_loop]. rewrite (proj2 (parse_spec.cut_None sep s) Hno). reflexivity.
Qed.

Lemma noColon_cons (x : ascii) (s : string) :
  Ascii.eqb x ":" = false ->
  Contains s ":" = false ->
  Contains (String x s) ":" = false.
Proof.
  intros Hx Hs. cbn [Contains]. rewrite Hs, orb_false_r.
  cbn [String.prefix].
  destruct (ascii_dec ":" x) as [E | _]; [|reflexivity].
  subst x. rewrite Ascii.eqb_refl in Hx. discriminate Hx.
Qed.

Lemma encodeChar_noColon_nat (k : nat) :
  (k < 64)%nat -> Ascii.eqb (base64.encodeChar (N.of_nat k)) ":" = false.
Proof.
  intros Hk. do 64 (destruct k as [|k]; [reflexivity|]). lia.
Qed.

Lemma encodeChar_noColon (n : N) :
  (n < 64)%N -> Ascii.eqb (base64.encodeChar n) ":" = false.
Proof.
  intros Hn. rewrite <- (N2Nat.id n). apply encodeChar_noColon_nat. lia.
Qed.

Lemma EncodeToString_noColon (src : list byte) :
  Contains (base64.EncodeToString src) ":" = false.
Proof.
  induction src as [|a|a b|a b c rest IH] using base64_facts.list_ind3.
  - reflexivity.
  - destruct (base64_facts.sextets a x00 x00) as (H0 & _ & _ & _ & H1 & _).
    cbn [base64.EncodeToString base64.quad].
    repeat (apply noColon_cons; [first [apply encodeChar_noColon; assumption|reflexivity]|]).
    reflexivity.
  - destruct (base64_facts.sextets a b x00) as (H0 & H1 & _ & _ & _ & H2 & _).
    cbn [base64.EncodeToString base64.quad].
    repeat (apply noColon_cons; [first [apply encodeChar_noColon; assumption|reflexivity]|]).
    reflexivity.
  - destruct (base64_facts.sextets a b c) as (H0 & H1 & H2 & H3 & _).
    cbn [base64.EncodeToString base64.quad]. fold base64.EncodeToString.
    do 4 (apply noColon_cons; [apply encodeChar_noColon; assumption|]).
    exact IH.
Qed.

Lemma Split_token (ak sign data : string) :
  Contains ak ":" = false -> Contains sign ":" = false ->
  Contains data ":" = false ->
  Split ((ak ++ ":" ++ sign) ++ ":" ++ data) ":" = [ak; sign; data].
Proof.
  intros Hak Hsign Hdata.
  rewrite uphost_spec.append_assoc.
  change ((":" ++ sign) ++ ":" ++ data) with (String ":" (sign ++ String ":" data)).
  rewrite (Split_char ":" ak _ Hak), (Split_char ":" sign _ Hsign),
    (Split_none ":" data Hdata).
  reflexivity.
Qed.

(** X23: the upload token [SignWithData] makes from the JSON of a policy is
    read back by [getAkBucketFromUploadToken]: for the scope [Upload] writes,
    and an access key and a bucket name without a colon, it returns that
    access key and that bucket, and no error. *)
Theorem getAkBucketFromUploadToken_SignWithData
    (hmacSha1 : list byte -> list byte -> list byte)
    (unmarshalScope : list byte -> option string)
    (ath : Credentials) (bucket name : string) (policy : list byte) :
  Contains (AccessKey ath) ":" = false ->
  Contains bucket ":" = false ->
  unmarshalScope policy = Some (uploadScope bucket name) ->
  getAkBucketFromUploadToken unmarshalScope (SignWithData hmacSha1 ath policy)
  = (AccessKey ath, bucket, None).
Proof.
  intros Hak Hbucket Hjson.
  unfold getAkBucketFromUploadToken, SignWithData, Sign.
  rewrite (Split_token _ _ _ Hak (EncodeToString_noColon _) (EncodeToString_noColon _)).
  cbn [length Nat.eqb andb negb nth].
  rewrite base64_facts.DecodeString_EncodeToString, Hjson.
  unfold uploadScope.
  change (bucket ++ ":" ++ TrimPrefix name "/")
    with (bucket ++ String ":" (TrimPrefix name "/")).
  rewrite (Split_char ":" bucket _ Hbucket). reflexivity.
Qed.

Lemma getAkBucketFromUploadToken_SignWithData_witness :
  getAkBucketFromUploadToken (fun b => Some (string_of_list_byte b))
    (SignWithData (fun key data => key ++ data)%list (New "ak" "sk")
       (list_byte_of_string "site:/index.html"))
  = ("ak", "site", None).
Proof.
  apply (getAkBucketFromUploadToken_SignWithData
           (fun key data => key ++ data)%list
           (fun b => Some (string_of_list_byte b))
           (New "ak" "sk") "site" "//index.html"
           (list_byte_of_string "site:/index.html")); reflexivity.
Defined.

(** X24: a token of three colon-separated fields whose third field is not
    base64 text is refused with the policy error, and the access key is
    returned all the same, with an empty bucket. *)
Theorem getAkBucketFromUploadToken_bad_policy
    (unmarshalScope : list byte -> option string) (ak sign data : string) :
  Contains ak ":" = false -> Contains sign ":" = false ->
  Contains data ":" = false ->
  base64.DecodeString data = None ->
  getAkBucketFromUploadToken unmarshalScope ((ak ++ ":" ++ sign) ++ ":" ++ data)
  = (ak, "", Some policyError).
Proof.
  intros Hak Hsign Hdata Hdec.
  unfold getAkBucketFromUploadToken.
  rewrite (Split_token _ _ _ Hak Hsign Hdata).
  cbn [length Nat.eqb andb negb nth]. rewrite Hdec. reflexivity.
Qed.

Lemma getAkBucketFromUploadToken_bad_policy_witness :
  getAkBucketFromUploadToken (fun b => Some (string_of_list_byte b)) "ak:sign:!"
  = ("ak", "", Some policyError).
Proof.
  apply (getAkBucketFromUploadToken_bad_policy
           (fun b => Some (string_of_list_byte b)) "ak" "sign" "!"); reflexivity.
Defined.

(** X25: a token that carries two more fields in front, the first of them
    empty, is read as the token that follows them. *)
Theorem getAkBucketFromUploadToken_prefixed
    (unmarshalScope : list byte -> option string) (p ak sign data : string) :
  Contains p ":" = false ->
  Contains ak ":" = false -> Contains sign ":" = false ->
  Contains data ":" = false ->
  getAkBucketFromUploadToken unmarshalScope
    (":" ++ p ++ ":" ++ (ak ++ ":" ++ sign) ++ ":" ++ data)
  = getAkBucketFromUploadToken unmarshalScope ((ak ++ ":" ++ sign) ++ ":" ++ data).
Proof.
  intros Hp Hak Hsign Hdata.
  unfold getAkBucketFromUploadToken.
  change (":" ++ p ++ ":" ++ (ak ++ ":" ++ sign) ++ ":" ++ data)
    with ("" ++ String ":" (p ++ String ":" ((ak ++ ":" ++ sign) ++ ":" ++ data))).
  rewrite (Split_char ":" "" _ eq_refl), (Split_char ":" p _ Hp),
    (Split_token _ _ _ Hak Hsign Hdata).
  reflexivity.
Qed.

Lemma getAkBucketFromUploadToken_prefixed_witness :
  getAkBucketFromUploadToken (fun b => Some (string_of_list_byte b))
    ":v2:ak:sign:c2l0ZTprZXk="
  = getAkBucketFromUploadToken (fun b => Some (string_of_list_byte b))
      "ak:sign:c2l0ZTprZXk=".
Proof.
  apply (getAkBucketFromUploadToken_prefixed
           (fun b => Some (string_of_list_byte b)) "v2" "ak" "sign"
           "c2l0ZTprZXk="); reflexivity.
Defined.

End uptoken_spec.

Module client_spec.
Import client.
Local Open Scope Z_scope.

Lemma status_2xx (s : Z) : (Z.quot s 100 =? 2) = true <-> 200 <= s <= 299.
Proof.
  rewrite Z.eqb_eq. split; intros H; Z.to_euclidean_division_equations; lia.
Qed.

Lemma parseError_keeps (Error : error -> string)
    (decodeJsonFromData : list byte -> option (string * string * Z))
    (e : ErrorInfo) (r : list byte * option error) :
  Code (parseError Error decodeJsonFromData e r) = Code e
  /\ Reqid (parseError Error decodeJsonFromData e r) = Reqid e.
Proof.
  unfold parseError. destruct r as [body [err1|]]; [split; reflexivity|].
  destruct (decodeJsonFromData body) as [[[err key] errno]|]; [|split; reflexivity].
  destruct (negb (String.eqb err "")); split; reflexivity.
Qed.

(** X26: [CallRet] returns no error exactly when the status is one of 200
    to 299 and there is nothing to decode (a nil [ret] or a content length
    of zero) or the body decodes. *)
Theorem CallRet_nil (Error : error -> string)
    (decodeJsonFromData : list byte -> option (string * string * Z))
    (ret : option (list byte * option error -> option error)) (resp : Response) :
  CallRet Error decodeJsonFromData ret resp = Returned None
  <-> 200 <= StatusCode resp <= 299
      /\ (ret = None \/ ContentLength resp = 0
          \/ exists decode, ret = Some decode /\ decode (Body resp) = None).
Proof.
  unfold CallRet.
  destruct (Z.quot (StatusCode resp) 100 =? 2) eqn:Hs.
  - apply status_2xx in Hs. split.
    + intros H. split; [exact Hs|].
      destruct ret as [decode|]; [|left; reflexivity].
      destruct (ContentLength resp =? 0) eqn:Hc;
        [right; left; apply Z.eqb_eq, Hc|].
      right. right. exists decode. split; [reflexivity|].
      cbn [negb] in H. destruct (decode (Body resp)); [discriminate H|reflexivity].
    + intros [_ [-> | [Hc | (decode & -> & Hd)]]]; [reflexivity| |].
      * destruct ret; [|reflexivity].
        rewrite (proj2 (Z.eqb_eq _ _) Hc). reflexivity.
      * rewrite Hd. destruct (negb (ContentLength resp =? 0)); reflexivity.
  - split.
    + destruct (ResponseError Error decodeJsonFromData resp); discriminate.
    + intros [Hr _]. apply status_2xx in Hr. congruence.
Qed.

(** X27: for a status outside 200 to 299, and unless the response has a
    [Content-Type] entry without any value, [CallRet] returns an [ErrorInfo]
    that carries the status code and the request id of the response; its
    message is empty when the status is below 200 or the content length is
    zero. *)
Theorem CallRet_error_info (Error : error -> string)
    (decodeJsonFromData : list byte -> option (string * string * Z))
    (ret : option (list byte * option error -> option error)) (resp : Response) :
  ~ (200 <= StatusCode resp <= 299) ->
  Header resp !! "Content-Type"%string <> Some [] ->
  exists e,
    CallRet Error decodeJsonFromData ret resp = Returned (Some (ResponseErr e))
    /\ Code e = StatusCode resp
    /\ Reqid e = Header_Get (Header resp) "X-Reqid"
    /\ (StatusCode resp < 200 \/ ContentLength resp = 0 -> Err e = EmptyString).
Proof.
  intros Hs Hct. unfold CallRet.
  destruct (Z.quot (StatusCode resp) 100 =? 2) eqn:Hq;
    [apply status_2xx in Hq; contradiction|].
  unfold ResponseError.
  destruct (StatusCode resp >? 299) eqn:Hgt.
  - apply Z.gtb_lt in Hgt.
    destruct (ContentLength resp =? 0) eqn:Hc; cbn [negb].
    + eexists. repeat split.
    + apply Z.eqb_neq in Hc.
      destruct (Header resp !! "Content-Type"%string) as [[|ct0 cts]|];
        [contradiction| |].
      * destruct (GoStrings.HasPrefix ct0 "application/json").
        -- eexists. split; [reflexivity|].
           split; [apply parseError_keeps|].
           split; [apply parseError_keeps|]. intros [H | H]; lia.
        -- eexists. split; [reflexivity|]. split; [reflexivity|].
           split; [reflexivity|]. intros [H | H]; lia.
      * eexists. split; [reflexivity|]. split; [reflexivity|].
        split; [reflexivity|]. intros [H | H]; lia.
  - eexists. repeat split.
Qed.

Lemma CallRet_error_info_witness :
  exists e,
    CallRet plainError noJson None notFound = Returned (Some (ResponseErr e))
    /\ Code e = 404
    /\ Reqid e = "req-1"%string
    /\ (404 < 200 \/ 9 = 0 -> Err e = EmptyString).
Proof.
  apply (CallRet_error_info plainError noJson None notFound).
  - cbn. lia.
  - vm_compute. discriminate.
Defined.

End client_spec.

Module upload_spec.
Import upload.
Local Open Scope Z_scope.

Lemma onProgress_all_spec (args : list (Z * Z)) :
  forall p : uploadProgress,
    let '(p', calls) := onProgress_all p args in
    lastUploadedBytes p <= lastUploadedBytes p'
    /\ Forall (fun c => lastUploadedBytes p < snd c <= lastUploadedBytes p') calls
    /\ StronglySorted Z.lt (map snd calls)
    /\ sublist calls args.
Proof.
  induction args as [|[total count] rest IH]; intros p; cbn [onProgress_all].
  - repeat split; [lia|constructor|constructor|constructor].
  - unfold onProgress.
    destruct (progress p) eqn:Hh; cbn [negb].
    + destruct (lastUploadedBytes p >=? count) eqn:Hge.
      * specialize (IH p). destruct (onProgress_all p rest) as [p' calls].
        destruct IH as (Hle & Hall & Hsorted & Hsub).
        cbn [app]. repeat split; try assumption; try lia.
        apply sublist_cons, Hsub.
      * rewrite Z.geb_leb in Hge. apply Z.leb_gt in Hge.
        specialize (IH (mkUploadProgress count true)).
        destruct (onProgress_all (mkUploadProgress count true) rest) as [p' calls].
        cbn [lastUploadedBytes] in IH.
        destruct IH as (Hle & Hall & Hsorted & Hsub).
        cbn [app map snd]. split; [lia|]. split; [|split].
        -- constructor; [cbn [snd]; lia|].
           eapply Forall_impl; [exact Hall|]. cbn beta. intros c Hc. lia.
        -- constructor; [exact Hsorted|].
           apply Forall_forall. intros u Hu.
           apply list_elem_of_fmap in Hu as (c & -> & Hc).
           rewrite Forall_forall in Hall. specialize (Hall c Hc). lia.
        -- apply sublist_skip, Hsub.
    + specialize (IH p). destruct (onProgress_all p rest) as [p' calls].
      destruct IH as (Hle & Hall & Hsorted & Hsub).
      cbn [app]. repeat split; try assumption; try lia.
      apply sublist_cons, Hsub.
Qed.

(** X28: whatever counts [onProgress] is called with, the handler is called
    with some of them, in the order given, and with strictly increasing
    counts that are all above the count recorded at the start: a count that
    is not above the last one reported is filtered out. *)
Theorem onProgress_increasing (p : uploadProgress) (args : list (Z * Z)) :
  let calls := snd (onProgress_all p args) in
  sublist calls args
  /\ StronglySorted Z.lt (map snd calls)
  /\ Forall (fun c => lastUploadedBytes p < snd c) calls.
Proof.
  pose proof (onProgress_all_spec args p) as H.
  destruct (onProgress_all p args) as [p' calls]. cbn [snd].
  destruct H as (_ & Hall & Hsorted & Hsub).
  split; [exact Hsub|]. split; [exact Hsorted|].
  eapply Forall_impl; [exact Hall|]. cbn beta. intros c Hc. lia.
Qed.

Lemma Read_all_spec (ns : list Z) :
  forall (r : readerWithProgress) (p : uploadProgress),
    0 < fsize r -> uploaded r <= fsize r ->
    let '(r', _, calls) := Read_all r ns p in
    fsize r' = fsize r
    /\ uploaded r' <= fsize r
    /\ Forall (fun c => fst c = fsize r /\ 0 < snd c <= fsize r) calls.
Proof.
  induction ns as [|n rest IH]; intros r p Hsize Hup; cbn [Read_all].
  - repeat split; [exact Hup|constructor].
  - unfold Read.
    set (u := wrap64 (uploaded r + n)).
    set (u' := if (fsize r >? 0) && (u >? fsize r) then fsize r else u).
    assert (Hu' : u' <= fsize r).
    { subst u'. destruct (fsize r >? 0) eqn:E1;
        [|rewrite Z.gtb_ltb in E1; apply Z.ltb_ge in E1; lia].
      cbn [andb]. destruct (u >? fsize r) eqn:E2; [lia|].
      rewrite Z.gtb_ltb in E2. apply Z.ltb_ge in E2. exact E2. }
    assert (Hfirst : forall q calls,
               (if uploaded r >? 0 then onProgress p (fsize r) (uploaded r) else (p, []))
               = (q, calls) ->
               Forall (fun c => fst c = fsize r /\ 0 < snd c <= fsize r) calls).
    { intros q calls. destruct (uploaded r >? 0) eqn:E.
      - apply Z.gtb_lt in E. unfold onProgress.
        destruct (negb (progress p)); [intros [= _ <-]; constructor|].
        destruct (lastUploadedBytes p >=? uploaded r); intros [= _ <-];
          [constructor|].
        constructor; [cbn; lia|constructor].
      - intros [= _ <-]. constructor. }
    destruct (if uploaded r >? 0 then onProgress p (fsize r) (uploaded r) else (p, []))
      as [q calls] eqn:Hq.
    specialize (Hfirst q calls eq_refl).
    specialize (IH (mkReader u' (fsize r)) q Hsize Hu').
    destruct (Read_all (mkReader u' (fsize r)) rest q) as [[r' q'] calls'].
    cbn [fsize uploaded] in IH. destruct IH as (Hf & Hle & Hall).
    split; [exact Hf|]. split; [exact Hle|].
    apply Forall_app. split; assumption.
Qed.

(** X29: a reader made for a body of known, positive size never has more
    than that size as its count of uploaded bytes, whatever the byte counts
    of its reads are, and every call of the handler it makes gives that size
    as the total and a positive count within it. *)
Theorem Read_within_size (size : Z) (ns : list Z) (p : uploadProgress) :
  0 < size ->
  let '(r', _, calls) := Read_all (mkReader 0 size) ns p in
  uploaded r' <= size
  /\ Forall (fun c => fst c = size /\ 0 < snd c <= size) calls.
Proof.
  intros Hsize.
  pose proof (Read_all_spec ns (mkReader 0 size) p) as H.
  cbn [fsize uploaded] in H. specialize (H Hsize ltac:(lia)).
  destruct (Read_all (mkReader 0 size) ns p) as [[r' q'] calls].
  destruct H as (_ & Hle & Hall). split; assumption.
Qed.

Lemma Read_within_size_witness :
  let '(r', _, calls) :=
    Read_all (mkReader 0 10) [4; 4; 4; 0] (newUploadProgress true) in
  uploaded r' <= 10
  /\ Forall (fun c => fst c = 10 /\ 0 < snd c <= 10) calls.
Proof.
  apply (Read_within_size 10 [4; 4; 4; 0] (newUploadProgress true)). lia.
Defined.

(** X30: an entry is the base64 text of [bucket:key]; for bucket names
    without a colon, two entries are the same text only if they are made of
    the same bucket and the same key. *)
Theorem EncodedEntry_injective (bucket key bucket' key' : string) :
  GoStrings.Contains bucket ":" = false ->
  GoStrings.Contains bucket' ":" = false ->
  EncodedEntry bucket key = EncodedEntry bucket' key' ->
  bucket = bucket' /\ key = key'.
Proof.
  intros Hb Hb' Heq. unfold EncodedEntry in Heq.
  apply (f_equal base64.DecodeString) in Heq.
  rewrite !base64_facts.DecodeString_EncodeToString in Heq.
  injection Heq as Heq.
  apply (f_equal string_of_list_byte) in Heq.
  rewrite !string_of_list_byte_of_string in Heq.
  pose proof (strings_facts.cut_char ":" bucket key Hb) as H1.
  pose proof (strings_facts.cut_char ":" bucket' key' Hb') as H2.
  change (bucket ++ ":" ++ key)%string with (bucket ++ String ":" key)%string in Heq.
  change (bucket' ++ ":" ++ key')%string with (bucket' ++ String ":" key')%string in Heq.
  rewrite Heq in H1. rewrite H1 in H2. injection H2 as -> ->. split; reflexivity.
Qed.

Lemma EncodedEntry_injective_witness :
  "site"%string = "site"%string /\ "a/b.txt"%string = "a/b.txt"%string.
Proof.
  apply (EncodedEntry_injective "site" "a/b.txt" "site" "a/b.txt"); reflexivity.
Defined.

End upload_spec.
